(** * LaunchBox provider of Pegasus Frontend: import and matching pipeline

    A shallow embedding of [LaunchboxProvider.cpp]: the registry parser
    ([read_emulators_xml]), the platform catalogue parser
    ([platform_xml_read_root], [platform_xml_read_game], [store_game],
    [store_game_fields], [store_addiapp]) and the asset matcher
    ([find_assets_in], [find_videos_in]).

    Conventions of the embedding:
    - a [QString] is a [string]; its characters are read as 8-bit code units;
    - a [HashMap] is a [gmap]; [emplace] keeps an existing entry;
    - [HashMap::at] on a missing key throws: functions that use it return an
      [option], [None] standing for the exception;
    - the warnings sent to [qWarning] are collected in a list of [Diag];
    - the file system, Qt's number and date parsers and the bucket order of
      the unordered field map are the fields of the class [Host]. *)

From Stdlib Require Import Strings.String Strings.Ascii ZArith Floats.SpecFloat.
From stdpp Require Import base gmap strings list fin_maps.

Open Scope string_scope.
Open Scope Z_scope.
Open Scope list_scope.

(** ** QString operations *)

Module QStr.

Definition chars (s : string) : list ascii := list_ascii_of_string s.
Definition str (l : list ascii) : string := string_of_list_ascii l.

Definition size (s : string) : Z := Z.of_nat (length (chars s)).

Definition isEmpty (s : string) : bool :=
  match s with EmptyString => true | String _ _ => false end.

(** [QString::left(n)] and [leftRef(n)]: the whole string when [n] is
    negative or not smaller than the size. *)
Definition left (n : Z) (s : string) : string :=
  if (n <? 0) || (size s <=? n) then s else str (take (Z.to_nat n) (chars s)).

Fixpoint is_prefix (p l : list ascii) : bool :=
  match p, l with
  | [], _ => true
  | _ :: _, [] => false
  | a :: p', b :: l' => Ascii.eqb a b && is_prefix p' l'
  end.

Definition startsWith (p s : string) : bool := is_prefix (chars p) (chars s).

Definition endsWith (p s : string) : bool :=
  is_prefix (rev (chars p)) (rev (chars s)).

(** Index of the last occurrence of [c] in [l], counting from [i]; [acc]
    when there is none. *)
Fixpoint rindex (c : ascii) (l : list ascii) (i acc : Z) : Z :=
  match l with
  | [] => acc
  | x :: l' => rindex c l' (i + 1) (if Ascii.eqb x c then i else acc)
  end.

(** [QString::lastIndexOf(ch, from)]: a negative [from] counts from the end;
    the search runs backwards from position [from]; -1 when not found. *)
Definition lastIndexOf (c : ascii) (from : Z) (s : string) : Z :=
  let len := size s in
  let from' := if from <? 0 then from + len else from in
  if (from' <? 0) || (len <=? from') then -1
  else rindex c (take (Z.to_nat from' + 1)%nat (chars s)) 0 (-1).

(** [QChar::isSpace] on the 8-bit range. *)
Definition isSpace (c : ascii) : bool :=
  let n := N_of_ascii c in
  ((9 <=? n) && (n <=? 13) || (n =? 32) || (n =? 133) || (n =? 160))%N.

Fixpoint drop_spaces (l : list ascii) : list ascii :=
  match l with
  | [] => []
  | c :: l' => if isSpace c then drop_spaces l' else l
  end.

Definition trimmed (s : string) : string :=
  str (rev (drop_spaces (rev (drop_spaces (chars s))))).

(** [QString::replace(before, after)] for a non-empty [before]: every
    occurrence, left to right, without overlap. [skip] counts the characters
    of the current occurrence that are still to be dropped. *)
Fixpoint replace_from (b a l : list ascii) (skip : nat) : list ascii :=
  match l with
  | [] => []
  | x :: l' =>
      match skip with
      | S k => replace_from b a l' k
      | O => if is_prefix b l
             then (a ++ replace_from b a l' (length b - 1))%list
             else x :: replace_from b a l' 0
      end
  end.

Definition replace (before after s : string) : string :=
  str (replace_from (chars before) (chars after) (chars s) 0).

(** [QString::replace(QRegularExpression, QString)] for a character class. *)
Definition replace_class (cls : ascii -> bool) (by_ : ascii) (s : string) : string :=
  str (map (fun c => if cls c then by_ else c) (chars s)).

(** [QString::splitRef(sep)], empty parts kept. *)
Fixpoint split_from (sep : ascii) (cur : list ascii) (l : list ascii) : list string :=
  match l with
  | [] => [str (rev cur)]
  | x :: l' => if Ascii.eqb x sep
               then str (rev cur) :: split_from sep [] l'
               else split_from sep (x :: cur) l'
  end.

Definition split (sep : ascii) (s : string) : list string :=
  split_from sep [] (chars s).

(** [QStringList::removeDuplicates]: the first occurrence of each string
    stays, in place. *)
Fixpoint dedup_from (seen : list string) (l : list string) : list string :=
  match l with
  | [] => []
  | x :: l' => if bool_decide (x ∈ seen) then dedup_from seen l'
               else x :: dedup_from (x :: seen) l'
  end.

Definition removeDuplicates (l : list string) : list string := dedup_from [] l.

(** The double quote character and the launch command template
    ["%1" %2 {file.path}] filled by [QString::arg(a1, a2)] in one pass. *)
Definition dquote : string := String (ascii_of_nat 34) EmptyString.

End QStr.

(** ** File names *)

Module FileName.
Import QStr.

(** The part of a path after its last ['/']. *)
Definition fileName (path : string) : string :=
  let i := rindex "/"%char (chars path) 0 (-1) in
  str (drop (Z.to_nat (i + 1)) (chars path)).

(** [QFileInfo::completeBaseName]: the file name up to, not including, its
    last ['.']; the whole file name when it has none. *)
Definition completeBaseName (path : string) : string :=
  let n := fileName path in
  let i := rindex "."%char (chars n) 0 (-1) in
  if i <? 0 then n else str (take (Z.to_nat i) (chars n)).

End FileName.

(** ** Data model *)

Module GameField.

Inductive t : Set :=
  | ID | PATH | TITLE | RELEASE | DEVELOPER | PUBLISHER
  | NOTES | PLAYMODE | GENRE | STARS | EMULATOR | EMULATOR_PARAMS.

#[global] Instance eq_dec : EqDecision t.
Proof. solve_decision. Defined.

Definition to_nat (f : t) : nat :=
  match f with
  | ID => 0 | PATH => 1 | TITLE => 2 | RELEASE => 3 | DEVELOPER => 4
  | PUBLISHER => 5 | NOTES => 6 | PLAYMODE => 7 | GENRE => 8 | STARS => 9
  | EMULATOR => 10 | EMULATOR_PARAMS => 11
  end%nat.

Definition of_nat (n : nat) : option t :=
  match n with
  | 0 => Some ID | 1 => Some PATH | 2 => Some TITLE | 3 => Some RELEASE
  | 4 => Some DEVELOPER | 5 => Some PUBLISHER | 6 => Some NOTES
  | 7 => Some PLAYMODE | 8 => Some GENRE | 9 => Some STARS
  | 10 => Some EMULATOR | 11 => Some EMULATOR_PARAMS | _ => None
  end%nat.

#[global] Instance countable : Countable t.
Proof. apply (inj_countable to_nat of_nat). by intros []. Defined.

End GameField.

Module AdditionalAppField.

Inductive t : Set := ID | GAME_ID | PATH | NAME.

#[global] Instance eq_dec : EqDecision t.
Proof. solve_decision. Defined.

Definition to_nat (f : t) : nat :=
  match f with ID => 0 | GAME_ID => 1 | PATH => 2 | NAME => 3 end%nat.

Definition of_nat (n : nat) : option t :=
  match n with
  | 0 => Some ID | 1 => Some GAME_ID | 2 => Some PATH | 3 => Some NAME
  | _ => None
  end%nat.

#[global] Instance countable : Countable t.
Proof. apply (inj_countable to_nat of_nat). by intros []. Defined.

End AdditionalAppField.

Inductive AssetType : Set :=
  | BOX_FRONT | BOX_BACK | ARCADE_MARQUEE | CARTRIDGE | SCREENSHOTS | POSTER
  | ARCADE_PANEL | LOGO | BACKGROUND | UI_STEAMGRID | MUSIC | VIDEOS.

#[global] Instance AssetType_eq_dec : EqDecision AssetType.
Proof. solve_decision. Defined.

(** The tables of [struct Literals]. *)
Definition gamefield_map : gmap string GameField.t :=
  list_to_map
    [ ("ID", GameField.ID); ("ApplicationPath", GameField.PATH);
      ("Title", GameField.TITLE); ("Developer", GameField.DEVELOPER);
      ("Publisher", GameField.PUBLISHER); ("ReleaseDate", GameField.RELEASE);
      ("Notes", GameField.NOTES); ("PlayMode", GameField.PLAYMODE);
      ("Genre", GameField.GENRE); ("CommunityStarRating", GameField.STARS);
      ("Emulator", GameField.EMULATOR);
      ("CommandLine", GameField.EMULATOR_PARAMS) ].

Definition addiappfield_map : gmap string AdditionalAppField.t :=
  list_to_map
    [ ("Id", AdditionalAppField.ID);
      ("ApplicationPath", AdditionalAppField.PATH);
      ("GameID", AdditionalAppField.GAME_ID);
      ("Name", AdditionalAppField.NAME) ].

Definition assetdir_map : list (string * AssetType) :=
  [ ("Box - Front", BOX_FRONT);
    ("Box - Front - Reconstructed", BOX_FRONT);
    ("Fanart - Box - Front", BOX_FRONT);
    ("Box - Back", BOX_BACK);
    ("Box - Back - Reconstructed", BOX_BACK);
    ("Fanart - Box - Back", BOX_BACK);
    ("Arcade - Marquee", ARCADE_MARQUEE);
    ("Banner", ARCADE_MARQUEE);
    ("Cart - Front", CARTRIDGE);
    ("Disc", CARTRIDGE);
    ("Fanart - Cart - Front", CARTRIDGE);
    ("Fanart - Disc", CARTRIDGE);
    ("Screenshot - Gameplay", SCREENSHOTS);
    ("Screenshot - Game Select", SCREENSHOTS);
    ("Screenshot - Game Title", SCREENSHOTS);
    ("Screenshot - Game Over", SCREENSHOTS);
    ("Screenshot - High Scores", SCREENSHOTS);
    ("Advertisement Flyer - Front", POSTER);
    ("Arcade - Control Panel", ARCADE_PANEL);
    ("Clear Logo", LOGO);
    ("Fanart - Background", BACKGROUND);
    ("Steam Banner", UI_STEAMGRID) ].

Record Emulator := {
  app_path : string;
  emu_cmd_params : string;
}.

Definition Emulator_incomplete (e : Emulator) : bool := QStr.isEmpty (app_path e).

Record Platform := {
  default_emu_id : string;
  name : string;
  cmd_params : string;
  xml_path : string;
}.

Definition Platform_incomplete (p : Platform) : bool :=
  QStr.isEmpty (default_emu_id p) || QStr.isEmpty (name p) || QStr.isEmpty (xml_path p).

(** A [QFileInfo] is the file path it was built with. *)
Abbreviation QFileInfo := string (only parsing).

(** A [QDate]: [None] is the invalid date. *)
Abbreviation QDate := (option (Z * Z * Z)) (only parsing).

Record GameFile := {
  fileinfo : QFileInfo;
  gf_name : string;
}.

(** [modeldata::Game]. [assets] holds the media files attached to the game,
    each under its asset type, in the order of their attachment. *)
Record Game := {
  src_file : QFileInfo;
  title : string;
  description : string;
  developers : list string;
  publishers : list string;
  genres : list string;
  release_date : QDate;
  rating : spec_float;
  launch_cmd : string;
  launch_workdir : string;
  files : list GameFile;
  assets : list (AssetType * string);
}.

(** [providers::SearchContext], the accumulator shared by a scan. *)
Record SearchContext := {
  games : gmap nat Game;
  path_to_gameid : gmap string nat;
  collections : gmap string string;
  collection_childs : gmap string (list nat);
}.

Definition empty_context : SearchContext :=
  {| games := ∅; path_to_gameid := ∅; collections := ∅; collection_childs := ∅ |}.

(** The warnings of the provider, one constructor per [qWarning] site. *)
Inductive Diag : Set :=
  | NoLaunchCommand (game_title : string)
  | GameNoId (xmlpath : string)
  | GameNoPath (xmlpath id : string)
  | GameFileMissing (xmlpath path : string)
  | AddiappNoId (xmlpath : string)
  | AddiappNoGameId (xmlpath id : string)
  | AddiappUnknownGame (xmlpath id gameid : string)
  | AddiappNoPath (xmlpath id : string)
  | AddiappFileMissing (xmlpath path : string)
  | CouldNotOpen (path : string)
  | XmlError (xmlpath : string)
  | EmulatorFileMissing (path : string)
  | PlatformMissingEmulator (platform_name : string)
  | NoEmulatorSettings
  | NoPlatforms.

(** What [QXmlStreamReader] delivers of a document: the name of the root
    element when there is one, the elements below it that were read before
    the end of the document or the first syntax error, each with its leaf
    children (tag and text), and whether the stream ended on an error. *)
Record XmlLeaf := { tag : string; text : string }.
Record XmlElement := { elem_name : string; children : list XmlLeaf }.
Record XmlDoc := {
  doc_file : string;
  doc_root : option string;
  doc_elements : list XmlElement;
  doc_error : bool;
}.

(** ** The host: file system and Qt services *)

Class Host := {
  (** the file path of [QFileInfo(dir, file)] *)
  filePath : string -> string -> QFileInfo;
  (** [QFileInfo::exists] *)
  exists_ : QFileInfo -> bool;
  (** [QFileInfo::canonicalFilePath] *)
  canonicalFilePath : QFileInfo -> string;
  (** [QFileInfo::absolutePath] *)
  absolutePath : QFileInfo -> string;
  (** [QString::toFloat]; [None] when [ok] comes back false *)
  toFloat : string -> option spec_float;
  (** [QDate::fromString(_, Qt::ISODate)] *)
  QDate_fromString : string -> QDate;
  (** the files a recursive [QDirIterator] visits under a directory *)
  dir_files : string -> list string;
  (** opening a file and reading it through [QXmlStreamReader] *)
  open_xml : string -> option XmlDoc;
  (** the title a new [modeldata::Game] gets from its file *)
  pretty_filename : QFileInfo -> string;
  (** the order in which a range-for visits the unordered field map *)
  field_order : gmap GameField.t string -> list (GameField.t * string);
  field_order_perm : forall m, field_order m ≡ₚ map_to_list m;
}.

(** [operator==] of [QFileInfo]: the same path, or the same canonical path. *)
Definition QFileInfo_eqb `{Host} (a b : QFileInfo) : bool :=
  String.eqb a b || String.eqb (canonicalFilePath a) (canonicalFilePath b).

(** The single-precision constant [0.0001f] (0x38d1b717). *)
Definition f32_0_0001 : spec_float := S754_finite false 13743895 (-37).

(** Modelled from the spec: the constructor [modeldata::Game(QFileInfo)] is
    declared outside these sources. The new record has the file it was built
    from as its only launch file, an unset rating (zero) and empty fields. *)
Definition Game_new `{Host} (finfo : QFileInfo) : Game :=
  {| src_file := finfo;
     title := pretty_filename finfo;
     description := EmptyString;
     developers := [];
     publishers := [];
     genres := [];
     release_date := None;
     rating := S754_zero false;
     launch_cmd := EmptyString;
     launch_workdir := EmptyString;
     files := [ {| fileinfo := finfo; gf_name := EmptyString |} ];
     assets := [] |}.

(** Field updates of a [Game]. *)
Definition set_title (v : string) (g : Game) : Game :=
  {| src_file := src_file g; title := v; description := description g;
     developers := developers g; publishers := publishers g;
     genres := genres g; release_date := release_date g; rating := rating g;
     launch_cmd := launch_cmd g; launch_workdir := launch_workdir g;
     files := files g; assets := assets g |}.

Definition set_description (v : string) (g : Game) : Game :=
  {| src_file := src_file g; title := title g; description := v;
     developers := developers g; publishers := publishers g;
     genres := genres g; release_date := release_date g; rating := rating g;
     launch_cmd := launch_cmd g; launch_workdir := launch_workdir g;
     files := files g; assets := assets g |}.

Definition set_developers (v : list string) (g : Game) : Game :=
  {| src_file := src_file g; title := title g; description := description g;
     developers := v; publishers := publishers g; genres := genres g;
     release_date := release_date g; rating := rating g;
     launch_cmd := launch_cmd g; launch_workdir := launch_workdir g;
     files := files g; assets := assets g |}.

Definition set_publishers (v : list string) (g : Game) : Game :=
  {| src_file := src_file g; title := title g; description := description g;
     developers := developers g; publishers := v; genres := genres g;
     release_date := release_date g; rating := rating g;
     launch_cmd := launch_cmd g; launch_workdir := launch_workdir g;
     files := files g; assets := assets g |}.

Definition set_genres (v : list string) (g : Game) : Game :=
  {| src_file := src_file g; title := title g; description := description g;
     developers := developers g; publishers := publishers g; genres := v;
     release_date := release_date g; rating := rating g;
     launch_cmd := launch_cmd g; launch_workdir := launch_workdir g;
     files := files g; assets := assets g |}.

Definition set_release_date (v : QDate) (g : Game) : Game :=
  {| src_file := src_file g; title := title g; description := description g;
     developers := developers g; publishers := publishers g;
     genres := genres g; release_date := v; rating := rating g;
     launch_cmd := launch_cmd g; launch_workdir := launch_workdir g;
     files := files g; assets := assets g |}.

Definition set_rating (v : spec_float) (g : Game) : Game :=
  {| src_file := src_file g; title := title g; description := description g;
     developers := developers g; publishers := publishers g;
     genres := genres g; release_date := release_date g; rating := v;
     launch_cmd := launch_cmd g; launch_workdir := launch_workdir g;
     files := files g; assets := assets g |}.

Definition set_launch_cmd (v : string) (g : Game) : Game :=
  {| src_file := src_file g; title := title g; description := description g;
     developers := developers g; publishers := publishers g;
     genres := genres g; release_date := release_date g; rating := rating g;
     launch_cmd := v; launch_workdir := launch_workdir g; files := files g;
     assets := assets g |}.

Definition set_launch_workdir (v : string) (g : Game) : Game :=
  {| src_file := src_file g; title := title g; description := description g;
     developers := developers g; publishers := publishers g;
     genres := genres g; release_date := release_date g; rating := rating g;
     launch_cmd := launch_cmd g; launch_workdir := v; files := files g;
     assets := assets g |}.

Definition set_files (v : list GameFile) (g : Game) : Game :=
  {| src_file := src_file g; title := title g; description := description g;
     developers := developers g; publishers := publishers g;
     genres := genres g; release_date := release_date g; rating := rating g;
     launch_cmd := launch_cmd g; launch_workdir := launch_workdir g;
     files := v; assets := assets g |}.

Definition set_assets (v : list (AssetType * string)) (g : Game) : Game :=
  {| src_file := src_file g; title := title g; description := description g;
     developers := developers g; publishers := publishers g;
     genres := genres g; release_date := release_date g; rating := rating g;
     launch_cmd := launch_cmd g; launch_workdir := launch_workdir g;
     files := files g; assets := v |}.

(** ** Field merge: [store_game_fields] *)

(** The game under construction and the two locals [emu_app], [emu_params]. *)
Record MergeState := {
  ms_game : Game;
  emu_app : string;
  emu_params : string;
}.

Definition on_game (f : Game -> Game) (st : MergeState) : MergeState :=
  {| ms_game := f (ms_game st); emu_app := emu_app st; emu_params := emu_params st |}.

(** The [case GameField::STARS] of the switch. *)
Definition merge_stars `{Host} (value : string) (g : Game) : Game :=
  if SFltb (rating g) f32_0_0001 then
    match toFloat value with
    | Some fval => if SFltb (rating g) fval then set_rating fval g else g
    | None => g
    end
  else g.

(** One turn of the loop over the field map: the body of the switch. *)
Definition merge_field `{Host} (emulators : gmap string Emulator)
    (st : MergeState) (pair : GameField.t * string) : MergeState :=
  match pair.1 with
  | GameField.TITLE => on_game (set_title pair.2) st
  | GameField.NOTES =>
      on_game (fun g => if QStr.isEmpty (description g)
                        then set_description pair.2 g else g) st
  | GameField.DEVELOPER =>
      on_game (fun g => set_developers
                 (QStr.removeDuplicates (developers g ++ [pair.2])) g) st
  | GameField.PUBLISHER =>
      on_game (fun g => set_publishers
                 (QStr.removeDuplicates (publishers g ++ [pair.2])) g) st
  | GameField.GENRE =>
      on_game (fun g => set_genres
                 (QStr.removeDuplicates (genres g ++ [pair.2])) g) st
  | GameField.RELEASE =>
      on_game (fun g => match release_date g with
                        | Some _ => g
                        | None => set_release_date (QDate_fromString pair.2) g
                        end) st
  | GameField.STARS => on_game (merge_stars pair.2) st
  | GameField.PLAYMODE =>
      on_game (fun g => set_genres
                 (QStr.removeDuplicates
                    (genres g ++ map QStr.trimmed (QStr.split ";"%char pair.2))) g) st
  | GameField.EMULATOR =>
      match emulators !! pair.2 with
      | Some emu => {| ms_game := ms_game st; emu_app := app_path emu;
                       emu_params := emu_params st |}
      | None => st
      end
  | GameField.EMULATOR_PARAMS =>
      {| ms_game := ms_game st; emu_app := emu_app st; emu_params := pair.2 |}
  | GameField.ID | GameField.PATH => st
  end.

(** The launch command template filled in. *)
Definition launch_command (app params : string) : string :=
  QStr.dquote +:+ app +:+ QStr.dquote +:+ " " +:+ params +:+ " {file.path}".

(** The loop of [store_game_fields] run over a given visiting order. *)
Definition store_game_fields_in `{Host} (order : list (GameField.t * string))
    (game : Game) (platform : Platform) (emulators : gmap string Emulator)
  : option Game :=
  emu ← emulators !! default_emu_id platform;
  let emu_app0 := app_path emu in
  let emu_params0 := if QStr.isEmpty (cmd_params platform)
                     then app_path emu else cmd_params platform in
  let st := foldl (merge_field emulators)
              {| ms_game := game; emu_app := emu_app0; emu_params := emu_params0 |}
              order in
  Some (set_launch_workdir (absolutePath (emu_app st))
          (set_launch_cmd (launch_command (emu_app st) (emu_params st)) (ms_game st))).

Definition store_game_fields `{Host} (game : Game) (fields : gmap GameField.t string)
    (platform : Platform) (emulators : gmap string Emulator) : option Game :=
  store_game_fields_in (field_order fields) game platform emulators.

(** ** Scan state *)

(** The shared context and the warnings printed so far, oldest first. *)
Record State := {
  sctx : SearchContext;
  log : list Diag;
}.

Definition warn (d : Diag) (st : State) : State :=
  {| sctx := sctx st; log := (log st ++ [d])%list |}.

(** [HashMap::emplace]: an existing entry is kept. *)
Definition emplace `{Countable K} {V} (k : K) (v : V) (m : gmap K V) : gmap K V :=
  match m !! k with
  | Some _ => m
  | None => <[k := v]> m
  end.

(** [emplace_back] on the vector that [collection_childs] refers to, the
    entry of [sctx.collection_childs] under the key [coll]. *)
Definition push_child (coll : string) (game_id : nat) (c : SearchContext) : SearchContext :=
  {| games := games c;
     path_to_gameid := path_to_gameid c;
     collections := collections c;
     collection_childs :=
       <[coll := (default [] (collection_childs c !! coll) ++ [game_id])%list]>
         (collection_childs c) |}.

Definition add_game (can_path : string) (game_id : nat) (game : Game)
    (c : SearchContext) : SearchContext :=
  {| games := emplace game_id game (games c);
     path_to_gameid := emplace can_path game_id (path_to_gameid c);
     collections := collections c;
     collection_childs := collection_childs c |}.

(** ** Platform catalogue parser *)

Definition store_game `{Host} (finfo : QFileInfo) (fields : gmap GameField.t string)
    (platform : Platform) (emulators : gmap string Emulator)
    (coll : string) (st : State) : option (nat * State) :=
  let can_path := canonicalFilePath finfo in
  st1 ← match path_to_gameid (sctx st) !! can_path with
        | Some _ => Some st
        | None =>
            game ← store_game_fields (Game_new finfo) fields platform emulators;
            let st' := if QStr.isEmpty (launch_cmd game)
                       then warn (NoLaunchCommand (title game)) st else st in
            let game_id := size (games (sctx st')) in
            Some {| sctx := add_game can_path game_id game (sctx st');
                    log := log st' |}
        end;
  game_id ← path_to_gameid (sctx st1) !! can_path;
  Some (game_id, {| sctx := push_child coll game_id (sctx st1); log := log st1 |}).

(** The reading loop shared by [platform_xml_read_game] and
    [platform_xml_read_addiapp]: unknown tags are skipped, values trimmed,
    empty values dropped, the first value of a field kept. *)
Definition read_fields `{Countable F} (field_map : gmap string F)
    (kids : list XmlLeaf) : gmap F string :=
  foldl (fun acc leaf =>
           match field_map !! tag leaf with
           | None => acc
           | Some f =>
               let contents := QStr.trimmed (text leaf) in
               if QStr.isEmpty contents then acc else emplace f contents acc
           end) ∅ kids.

Definition platform_xml_read_game `{Host} (xmlpath : string) (kids : list XmlLeaf)
    (lb_dir : string) (platform : Platform) (emulators : gmap string Emulator)
    (coll : string) (gameid_map : gmap string nat) (st : State)
  : option (gmap string nat * State) :=
  let game_values := read_fields gamefield_map kids in
  match game_values !! GameField.ID with
  | None => Some (gameid_map, warn (GameNoId xmlpath) st)
  | Some id =>
      match game_values !! GameField.PATH with
      | None => Some (gameid_map, warn (GameNoPath xmlpath id) st)
      | Some path =>
          let game_finfo := filePath lb_dir path in
          if negb (exists_ game_finfo)
          then Some (gameid_map, warn (GameFileMissing xmlpath path) st)
          else
            '(gameid, st') ← store_game game_finfo game_values platform emulators coll st;
            Some (emplace id gameid gameid_map, st')
      end
  end.

Definition platform_xml_read_addiapp (kids : list XmlLeaf)
  : gmap AdditionalAppField.t string :=
  read_fields addiappfield_map kids.

(** Modelled from the spec: the constructor [modeldata::GameFile(QFileInfo)]
    is declared outside these sources; the display name is optional and
    starts unset. *)
Definition GameFile_new (finfo : QFileInfo) : GameFile :=
  {| fileinfo := finfo; gf_name := EmptyString |}.

Definition set_name (n : option string) (gf : GameFile) : GameFile :=
  match n with
  | Some v => {| fileinfo := fileinfo gf; gf_name := v |}
  | None => gf
  end.

(** [std::find_if] on the files of a game followed by the naming of the
    file found; [None] when no file refers to [finfo]. *)
Fixpoint name_existing `{Host} (finfo : QFileInfo) (n : option string)
    (l : list GameFile) : option (list GameFile) :=
  match l with
  | [] => None
  | gf :: l' =>
      if QFileInfo_eqb (fileinfo gf) finfo then Some (set_name n gf :: l')
      else cons gf <$> name_existing finfo n l'
  end.

Definition set_game (game_id : nat) (g : Game) (c : SearchContext) : SearchContext :=
  {| games := <[game_id := g]> (games c);
     path_to_gameid := path_to_gameid c;
     collections := collections c;
     collection_childs := collection_childs c |}.

Definition register_path (can_path : string) (game_id : nat) (c : SearchContext)
  : SearchContext :=
  {| games := games c;
     path_to_gameid := emplace can_path game_id (path_to_gameid c);
     collections := collections c;
     collection_childs := collection_childs c |}.

Definition store_addiapp `{Host} (xmlpath lb_dir : string)
    (values : gmap AdditionalAppField.t string)
    (gameid_map : gmap string nat) (st : State) : option State :=
  match values !! AdditionalAppField.ID with
  | None => Some (warn (AddiappNoId xmlpath) st)
  | Some id =>
  match values !! AdditionalAppField.GAME_ID with
  | None => Some (warn (AddiappNoGameId xmlpath id) st)
  | Some lb_gameid =>
  match gameid_map !! lb_gameid with
  | None => Some (warn (AddiappUnknownGame xmlpath id lb_gameid) st)
  | Some gameid =>
  match values !! AdditionalAppField.PATH with
  | None => Some (warn (AddiappNoPath xmlpath id) st)
  | Some path =>
      let path_finfo := filePath lb_dir path in
      if negb (exists_ path_finfo)
      then Some (warn (AddiappFileMissing xmlpath path) st)
      else
        let name_opt := values !! AdditionalAppField.NAME in
        let can_path := canonicalFilePath path_finfo in
        game ← games (sctx st) !! gameid;
        let files' :=
          match name_existing path_finfo name_opt (files game) with
          | Some l => l
          | None => (files game ++ [set_name name_opt (GameFile_new path_finfo)])%list
          end in
        Some {| sctx := register_path can_path gameid
                          (set_game gameid (set_files files' game) (sctx st));
                log := log st |}
  end end end end.

(** The [while] loop of [platform_xml_read_root] over the elements below the
    root: games are stored at once, additional applications are put aside. *)
Fixpoint read_elements `{Host} (xmlpath : string) (elems : list XmlElement)
    (lb_dir : string) (platform : Platform) (emulators : gmap string Emulator)
    (coll : string)
    (addiapps : list (gmap AdditionalAppField.t string))
    (gameid_map : gmap string nat) (st : State)
  : option (list (gmap AdditionalAppField.t string) * gmap string nat * State) :=
  match elems with
  | [] => Some (addiapps, gameid_map, st)
  | e :: rest =>
      if String.eqb (elem_name e) "Game" then
        '(gameid_map', st') ← platform_xml_read_game xmlpath (children e) lb_dir
                                platform emulators coll gameid_map st;
        read_elements xmlpath rest lb_dir platform emulators coll addiapps gameid_map' st'
      else if String.eqb (elem_name e) "AdditionalApplication" then
        read_elements xmlpath rest lb_dir platform emulators coll
          (addiapps ++ [platform_xml_read_addiapp (children e)]) gameid_map st
      else
        read_elements xmlpath rest lb_dir platform emulators coll addiapps gameid_map st
  end.

(** The final loop of [platform_xml_read_root] over the entries put aside. *)
Fixpoint store_addiapps `{Host} (xmlpath lb_dir : string)
    (addiapps : list (gmap AdditionalAppField.t string))
    (gameid_map : gmap string nat) (st : State) : option State :=
  match addiapps with
  | [] => Some st
  | values :: rest =>
      st' ← store_addiapp xmlpath lb_dir values gameid_map st;
      store_addiapps xmlpath lb_dir rest gameid_map st'
  end.

(** The collection of the platform is created when missing, and so is its
    list of children ([operator[]] on [sctx.collection_childs]). *)
Definition open_collection (coll : string) (c : SearchContext) : SearchContext :=
  {| games := games c;
     path_to_gameid := path_to_gameid c;
     collections := emplace coll coll (collections c);
     collection_childs := emplace coll [] (collection_childs c) |}.

(** The boolean of the result tells whether the reader is in error
    afterwards ([xml.error()]). *)
Definition platform_xml_read_root `{Host} (doc : XmlDoc) (lb_dir : string)
    (platform : Platform) (emulators : gmap string Emulator) (st : State)
  : option (bool * State) :=
  match doc_root doc with
  | None => Some (true, st)
  | Some root =>
      if negb (String.eqb root "LaunchBox") then Some (true, st)
      else
        let coll := name platform in
        let st0 := {| sctx := open_collection coll (sctx st); log := log st |} in
        '(addiapps, gameid_map, st1) ←
          read_elements (doc_file doc) (doc_elements doc) lb_dir platform emulators
            coll [] ∅ st0;
        st2 ← store_addiapps (doc_file doc) lb_dir addiapps gameid_map st1;
        Some (doc_error doc, st2)
  end.

Definition process_platform_xml `{Host} (lb_dir : string) (platform : Platform)
    (emulators : gmap string Emulator) (st : State) : option State :=
  match open_xml (xml_path platform) with
  | None => Some (warn (CouldNotOpen (xml_path platform)) st)
  | Some doc =>
      '(err, st') ← platform_xml_read_root doc lb_dir platform emulators st;
      Some (if err : bool then warn (XmlError (doc_file doc)) st' else st')
  end.

(** ** Registry parser *)

Record EmulatorData := {
  emus : gmap string Emulator;
  platforms : list Platform;
}.

(** The children of an [EmulatorPlatform] element read into a [Platform]. *)
Definition read_platform_fields (kids : list XmlLeaf) : Platform :=
  foldl (fun p leaf =>
           if String.eqb (tag leaf) "Emulator" then
             {| default_emu_id := QStr.trimmed (text leaf); name := name p;
                cmd_params := cmd_params p; xml_path := xml_path p |}
           else if String.eqb (tag leaf) "Platform" then
             {| default_emu_id := default_emu_id p; name := QStr.trimmed (text leaf);
                cmd_params := cmd_params p; xml_path := xml_path p |}
           else if String.eqb (tag leaf) "CommandLine" then
             {| default_emu_id := default_emu_id p; name := name p;
                cmd_params := QStr.trimmed (text leaf); xml_path := xml_path p |}
           else p)
    {| default_emu_id := EmptyString; name := EmptyString;
       cmd_params := EmptyString; xml_path := EmptyString |} kids.

(** The children of an [Emulator] element: the id, the emulator and the
    warnings printed on the way. *)
Definition read_emulator_fields `{Host} (lb_dir : string) (kids : list XmlLeaf)
  : string * Emulator * list Diag :=
  foldl (fun '(emu_id, emu, lg) leaf =>
           if String.eqb (tag leaf) "ID" then (QStr.trimmed (text leaf), emu, lg)
           else if String.eqb (tag leaf) "ApplicationPath" then
             let finfo := filePath lb_dir (QStr.trimmed (text leaf)) in
             let app := canonicalFilePath finfo in
             ( emu_id,
               {| app_path := app; emu_cmd_params := emu_cmd_params emu |},
               if QStr.isEmpty app then (lg ++ [EmulatorFileMissing finfo])%list else lg )
           else if String.eqb (tag leaf) "CommandLine" then
             ( emu_id,
               {| app_path := app_path emu; emu_cmd_params := QStr.trimmed (text leaf) |},
               lg )
           else (emu_id, emu, lg))
    (EmptyString, {| app_path := EmptyString; emu_cmd_params := EmptyString |}, [])
    kids.

(** The main loop of [read_emulators_xml] over the elements below the root. *)
Definition read_registry_element `{Host} (lb_dir : string)
    (acc : EmulatorData * list Diag) (e : XmlElement) : EmulatorData * list Diag :=
  let '(out, lg) := acc in
  if String.eqb (elem_name e) "EmulatorPlatform" then
    let p := read_platform_fields (children e) in
    let p := if negb (QStr.isEmpty (name p)) then
               {| default_emu_id := default_emu_id p; name := name p;
                  cmd_params := cmd_params p;
                  xml_path := canonicalFilePath
                                (lb_dir +:+ "Data/Platforms/" +:+ name p +:+ ".xml") |}
             else p in
    if negb (Platform_incomplete p)
    then ({| emus := emus out; platforms := (platforms out ++ [p])%list |}, lg)
    else (out, lg)
  else if String.eqb (elem_name e) "Emulator" then
    let '(emu_id, emu, lg') := read_emulator_fields lb_dir (children e) in
    if negb (QStr.isEmpty emu_id) && negb (Emulator_incomplete emu)
    then ({| emus := emplace emu_id emu (emus out); platforms := platforms out |},
          (lg ++ lg')%list)
    else (out, (lg ++ lg')%list)
  else (out, lg).

(** The closing loop of [read_emulators_xml]: platforms without emulator are
    erased, one warning each. *)
Fixpoint remove_platforms_without_emulator (emulators : gmap string Emulator)
    (ps : list Platform) : list Platform * list Diag :=
  match ps with
  | [] => ([], [])
  | p :: rest =>
      let '(kept, lg) := remove_platforms_without_emulator emulators rest in
      match emulators !! default_emu_id p with
      | None => (kept, PlatformMissingEmulator (name p) :: lg)
      | Some _ => (p :: kept, lg)
      end
  end.

(** The registry as it stands before the closing loop. *)
Definition read_registry `{Host} (lb_dir : string) (doc : XmlDoc)
  : EmulatorData * list Diag :=
  let root_ok := match doc_root doc with
                 | Some root => String.eqb root "LaunchBox"
                 | None => true
                 end in
  let elems := match doc_root doc with
               | Some root => if String.eqb root "LaunchBox" then doc_elements doc else []
               | None => []
               end in
  let '(out, lg) := foldl (read_registry_element lb_dir)
                      ({| emus := ∅; platforms := [] |}, []) elems in
  (out, if negb root_ok || doc_error doc
        then (lg ++ [XmlError (doc_file doc)])%list else lg).

Definition read_emulators_xml `{Host} (lb_dir : string) : EmulatorData * list Diag :=
  let xml_path := lb_dir +:+ "Data/Emulators.xml" in
  match open_xml xml_path with
  | None => ({| emus := ∅; platforms := [] |}, [CouldNotOpen xml_path])
  | Some doc =>
      let '(out, lg) := read_registry lb_dir doc in
      let '(kept, lg') := remove_platforms_without_emulator (emus out) (platforms out) in
      ({| emus := emus out; platforms := kept |}, (lg ++ lg')%list)
  end.

(** ** Catalogue title index and asset matcher *)

(** The characters of the class of [rx_invalid]: less-than, greater-than,
    colon, double quote, slash, backslash, bar, question mark, star and
    apostrophe. *)
Definition is_invalid_char (c : ascii) : bool :=
  bool_decide (nat_of_ascii c ∈ [60; 62; 58; 34; 47; 92; 124; 63; 42; 39]%nat).

Definition escape_title (t : string) : string :=
  QStr.replace_class is_invalid_char "_"%char t.

Fixpoint build_title_map (key : string -> string) (coll_childs : list nat)
    (gs : gmap nat Game) (out : gmap string nat) : option (gmap string nat) :=
  match coll_childs with
  | [] => Some out
  | gameid :: rest =>
      g ← gs !! gameid;
      build_title_map key rest gs (emplace (key (title g)) gameid out)
  end.

Definition build_escaped_title_map (coll_childs : list nat) (gs : gmap nat Game)
  : option (gmap string nat) :=
  build_title_map escape_title coll_childs gs ∅.

(** Whether the game holds an asset of the type. *)
Definition has_asset (ty : AssetType) (g : Game) : bool :=
  bool_decide (ty ∈ (assets g).*1).

(** Modelled from the spec: [assets.addFileMaybe] is declared outside these
    sources. The file is attached under its type only when the game holds no
    asset of that type yet: the first match of a type wins, and later matches
    of the same type on the same game are ignored. *)
Definition addFileMaybe (ty : AssetType) (path : string) (g : Game) : Game :=
  if has_asset ty g then g else set_assets (assets g ++ [(ty, path)]) g.

(** The name that [find_assets_in] looks up for a file. *)
Definition asset_game_title (has_num_suffix : bool) (file : string) : string :=
  let basename := FileName.completeBaseName file in
  if has_num_suffix
  then QStr.left (QStr.size basename - 3) basename
  else basename.

(** The loop of [find_assets_in] over the files of the directory. *)
Fixpoint find_assets_loop (files_ : list string) (asset_type : AssetType)
    (has_num_suffix : bool) (title_to_gameid_map : gmap string nat)
    (gs : gmap nat Game) : option (gmap nat Game) :=
  match files_ with
  | [] => Some gs
  | file :: rest =>
      match title_to_gameid_map !! asset_game_title has_num_suffix file with
      | None =>
          find_assets_loop rest asset_type has_num_suffix title_to_gameid_map gs
      | Some gameid =>
          g ← gs !! gameid;
          find_assets_loop rest asset_type has_num_suffix title_to_gameid_map
            (<[gameid := addFileMaybe asset_type file g]> gs)
      end
  end.

Definition find_assets_in `{Host} (asset_dir : string) (asset_type : AssetType)
    (has_num_suffix : bool) (title_to_gameid_map : gmap string nat)
    (gs : gmap nat Game) : option (gmap nat Game) :=
  find_assets_loop (dir_files asset_dir) asset_type has_num_suffix
    title_to_gameid_map gs.

(** The title [find_videos_in] derives from a base name: a trailing
    parenthesis group is cut off, the rest trimmed. *)
Definition video_game_title (basename : string) : string :=
  let title_range_end :=
    if QStr.endsWith ")" basename then
      let idx := QStr.lastIndexOf "("%char (-2) basename in
      if 0 <? idx then idx else QStr.size basename
    else QStr.size basename in
  QStr.trimmed (QStr.left title_range_end basename).

(** The title tried after a miss. *)
Definition video_retry_title (game_title : string) : string :=
  let t := QStr.replace " - " ": " game_title in
  if QStr.endsWith ", The" t
  then "The " +:+ QStr.left (QStr.size t - 5) t
  else t.

(** The game a video file is attached to, if any. *)
Definition video_match (title_to_gameid_map : gmap string nat) (file : string)
  : option nat :=
  let game_title := video_game_title (FileName.completeBaseName file) in
  match title_to_gameid_map !! game_title with
  | Some gameid => Some gameid
  | None => title_to_gameid_map !! video_retry_title game_title
  end.

Fixpoint find_videos_loop (files_ : list string)
    (title_to_gameid_map : gmap string nat) (gs : gmap nat Game)
  : option (gmap nat Game) :=
  match files_ with
  | [] => Some gs
  | file :: rest =>
      match video_match title_to_gameid_map file with
      | None => find_videos_loop rest title_to_gameid_map gs
      | Some gameid =>
          g ← gs !! gameid;
          find_videos_loop rest title_to_gameid_map
            (<[gameid := addFileMaybe VIDEOS file g]> gs)
      end
  end.

Definition find_videos_in `{Host} (asset_dir : string)
    (title_to_gameid_map : gmap string nat) (gs : gmap nat Game)
  : option (gmap nat Game) :=
  find_videos_loop (dir_files asset_dir) title_to_gameid_map gs.

(** The loop of [find_assets] over the image directories. *)
Fixpoint find_image_assets `{Host} (images_root : string)
    (dirs : list (string * AssetType)) (esctitle_to_gameid_map : gmap string nat)
    (gs : gmap nat Game) : option (gmap nat Game) :=
  match dirs with
  | [] => Some gs
  | (dir, ty) :: rest =>
      gs' ← find_assets_in (images_root +:+ dir) ty true esctitle_to_gameid_map gs;
      find_image_assets images_root rest esctitle_to_gameid_map gs'
  end.

Definition find_assets `{Host} (lb_dir : string) (platform : Platform)
    (dirs : list (string * AssetType)) (c : SearchContext) : option SearchContext :=
  match collection_childs c !! name platform with
  | None => Some c
  | Some childs =>
      esc_map ← build_escaped_title_map childs (games c);
      gs1 ← find_image_assets (lb_dir +:+ "Images/" +:+ name platform +:+ "/")
               dirs esc_map (games c);
      gs2 ← find_assets_in (lb_dir +:+ "Music/" +:+ name platform +:+ "/")
               MUSIC false esc_map gs1;
      title_map ← build_title_map id childs gs2 ∅;
      gs3 ← find_videos_in (lb_dir +:+ "Videos/" +:+ name platform +:+ "/")
               title_map gs2;
      Some {| games := gs3; path_to_gameid := path_to_gameid c;
              collections := collections c;
              collection_childs := collection_childs c |}
  end.

(** ** Orchestrator *)

(** The loop of [findLists] over the platforms of the registry. *)
Fixpoint scan_platforms `{Host} (lb_dir : string) (ps : list Platform)
    (emulators : gmap string Emulator) (st : State) : option State :=
  match ps with
  | [] => Some st
  | platform :: rest =>
      st1 ← process_platform_xml lb_dir platform emulators st;
      c ← find_assets lb_dir platform assetdir_map (sctx st1);
      scan_platforms lb_dir rest emulators {| sctx := c; log := log st1 |}
  end.

(** [findLists] once the installation directory [lb_dir] is known. *)
Definition findLists `{Host} (lb_dir : string) (st : State) : option State :=
  let '(emu_data, lg) := read_emulators_xml lb_dir in
  let st0 := {| sctx := sctx st; log := (log st ++ lg)%list |} in
  if bool_decide (emus emu_data = ∅) then Some (warn NoEmulatorSettings st0)
  else match platforms emu_data with
       | [] => Some (warn NoPlatforms st0)
       | ps => scan_platforms lb_dir ps (emus emu_data) st0
       end.

(** ** Predicates used in the statements *)

(** The reading of the rule after the specification: a base name carries a
    numeric tag when it ends with a dash and two digits. *)
Definition is_digit (c : ascii) : bool :=
  let n := nat_of_ascii c in (48 <=? n)%nat && (n <=? 57)%nat.

Definition spec_has_numeric_tag (basename : string) : bool :=
  match rev (QStr.chars basename) with
  | d2 :: d1 :: dash :: _ => is_digit d2 && is_digit d1 && Ascii.eqb dash "-"%char
  | _ => false
  end.

Definition quiet_diag (d : Diag) : Prop :=
  match d with PlatformMissingEmulator _ => False | _ => True end.

(** What makes [platform_xml_read_game] drop an entry. *)
Definition game_entry_invalid `{Host} (lb_dir : string) (kids : list XmlLeaf) : Prop :=
  let values := read_fields gamefield_map kids in
  values !! GameField.ID = None \/
  values !! GameField.PATH = None \/
  exists path, values !! GameField.PATH = Some path /\
               exists_ (filePath lb_dir path) = false.

(** What makes [store_addiapp] drop an entry. *)
Definition addiapp_entry_invalid `{Host} (lb_dir : string)
    (values : gmap AdditionalAppField.t string) (gameid_map : gmap string nat) : Prop :=
  values !! AdditionalAppField.ID = None \/
  values !! AdditionalAppField.GAME_ID = None \/
  (exists gid, values !! AdditionalAppField.GAME_ID = Some gid /\
               gameid_map !! gid = None) \/
  values !! AdditionalAppField.PATH = None \/
  exists path, values !! AdditionalAppField.PATH = Some path /\
               exists_ (filePath lb_dir path) = false.

(** Two records that differ at most in the order of their genres. *)
Definition same_but_genre_order (g1 g2 : Game) : Prop :=
  set_genres [] g1 = set_genres [] g2 /\ genres g1 ≡ₚ genres g2.

Definition ms_equiv (s1 s2 : MergeState) : Prop :=
  same_but_genre_order (ms_game s1) (ms_game s2) /\
  emu_app s1 = emu_app s2 /\ emu_params s1 = emu_params s2.

(** The invariant of the shared context: every game is registered in the
    dedup index under the canonical path of the file it was built from; the
    ids of the games are below their number, so that the number is a fresh
    id; the index and the collections only name games that exist. *)
Definition ctx_wf `{Host} (c : SearchContext) : Prop :=
  (forall i g, games c !! i = Some g ->
               path_to_gameid c !! canonicalFilePath (src_file g) = Some i) /\
  (forall i, is_Some (games c !! i) -> (i < size (games c))%nat) /\
  (forall p i, path_to_gameid c !! p = Some i -> is_Some (games c !! i)) /\
  (forall coll l i, collection_childs c !! coll = Some l -> i ∈ l ->
                    is_Some (games c !! i)).

(** The local ids of a file only name games that exist. *)
Definition gameid_map_ok (gm : gmap string nat) (c : SearchContext) : Prop :=
  forall k i, gm !! k = Some i -> is_Some (games c !! i).

(** The games of [c'] are those of [c], built from the same files. *)
Definition same_sources (gs gs' : gmap nat Game) : Prop :=
  forall i, src_file <$> gs' !! i = src_file <$> gs !! i.

Definition title_map_ok (m : gmap string nat) (gs : gmap nat Game) : Prop :=
  forall k i, m !! k = Some i -> is_Some (gs !! i).

(** A list of characters that does not begin with white space. *)
Definition no_leading_space (l : list ascii) : Prop :=
  match l with
  | [] => True
  | c :: _ => QStr.isSpace c = false
  end.

(** The first game of a list of children whose title, turned into a key,
    is [k]. *)
Fixpoint first_with_title (key : string -> string) (k : string)
    (childs : list nat) (gs : gmap nat Game) : option nat :=
  match childs with
  | [] => None
  | i :: rest =>
      match gs !! i with
      | Some g => if String.eqb (key (title g)) k then Some i
                  else first_with_title key k rest gs
      | None => first_with_title key k rest gs
      end
  end.

(** What holds of every emulator and every platform of the registry. *)
Definition emulator_complete `{Host} (lb_dir : string) (id : string) (e : Emulator) : Prop :=
  QStr.isEmpty id = false /\
  QStr.isEmpty (app_path e) = false /\
  exists p, app_path e = canonicalFilePath (filePath lb_dir p).

Definition platform_complete `{Host} (lb_dir : string) (p : Platform) : Prop :=
  QStr.isEmpty (default_emu_id p) = false /\
  QStr.isEmpty (name p) = false /\
  QStr.isEmpty (xml_path p) = false /\
  xml_path p = canonicalFilePath (lb_dir +:+ "Data/Platforms/" +:+ name p +:+ ".xml").

(** A game with its launch files and its assets taken away: what the field
    merge gave it. *)
Definition game_core (g : Game) : Game := set_files [] (set_assets [] g).

(** [g'] is [g] with more launch files or assets at the end, and possibly
    other display names for the files it had: the files are compared by
    their [fileinfo] only. *)
Definition game_grows (g g' : Game) : Prop :=
  game_core g = game_core g' /\
  map fileinfo (files g) `prefix_of` map fileinfo (files g') /\
  assets g `prefix_of` assets g'.

(** [c'] has everything [c] has: the same entries in the dedup index and the
    collections, the same games under the same ids, grown at most, and the
    same children at the head of every list of children. *)
Definition ctx_grows (c c' : SearchContext) : Prop :=
  (forall p i, path_to_gameid c !! p = Some i -> path_to_gameid c' !! p = Some i) /\
  (forall i g, games c !! i = Some g ->
               exists g', games c' !! i = Some g' /\ game_grows g g') /\
  (forall k v, collections c !! k = Some v -> collections c' !! k = Some v) /\
  (forall k l, collection_childs c !! k = Some l ->
               exists l', collection_childs c' !! k = Some l' /\ l `prefix_of` l').

Definition state_grows (st st' : State) : Prop :=
  ctx_grows (sctx st) (sctx st') /\ log st `prefix_of` log st'.

(** [g'] is [g] with more assets at the end. *)
Definition assets_appended (g g' : Game) : Prop :=
  exists extra, g' = set_assets (assets g ++ extra) g.

Definition games_assets_appended (gs gs' : gmap nat Game) : Prop :=
  forall i, match gs !! i, gs' !! i with
            | Some g, Some g' => assets_appended g g'
            | None, None => True
            | _, _ => False
            end.

(** The children of a collection; none when the collection is not there. *)
Definition children_of (coll : string) (c : SearchContext) : list nat :=
  default [] (collection_childs c !! coll).

(** The text of the last child with the tag [t]. *)
Fixpoint last_text (t : string) (kids : list XmlLeaf) : option string :=
  match kids with
  | [] => None
  | leaf :: rest =>
      match last_text t rest with
      | Some x => Some x
      | None => if String.eqb (tag leaf) t then Some (text leaf) else None
      end
  end.

(** A base name without its last three characters, whatever they are; the
    whole base name when it has fewer than three. *)
Definition cut_last_three (basename : string) : string :=
  let l := QStr.chars basename in
  if (length l <? 3)%nat then basename else QStr.str (take (length l - 3) l).

(** The game of id [i] holds an asset of the type [ty]. *)
Definition holds_asset (gs : gmap nat Game) (i : nat) (ty : AssetType) : Prop :=
  exists g, gs !! i = Some g /\ has_asset ty g = true.

(** The games of [gs'] are those of [gs] with assets added at the end of
    those they had, and every asset [(ty, file)] added to the game of id [i]
    satisfies [J i ty file]. *)
Definition attached_by (J : nat -> AssetType -> string -> Prop)
    (gs gs' : gmap nat Game) : Prop :=
  forall i, match gs !! i, gs' !! i with
            | Some g, Some g' =>
                exists extra, g' = set_assets (assets g ++ extra) g /\
                              Forall (fun a => J i a.1 a.2) extra
            | None, None => True
            | _, _ => False
            end.


(** Every game that [c] holds and [old] does not, a game created since, is
    registered in the dedup index under the canonical path of the file it
    was built from. *)
Definition created_registered `{Host} (old : gmap nat Game) (c : SearchContext) : Prop :=
  forall i g, old !! i = None -> games c !! i = Some g ->
              path_to_gameid c !! canonicalFilePath (src_file g) = Some i.

(** The path of a Game element that passes the checks of
    [platform_xml_read_game] and whose ID is [gid]. *)
Definition valid_game_path `{Host} (lb_dir gid : string) (e : XmlElement) : option string :=
  let values := read_fields gamefield_map (children e) in
  if String.eqb (elem_name e) "Game" && bool_decide (values !! GameField.ID = Some gid)
  then path ← values !! GameField.PATH;
       if exists_ (filePath lb_dir path) then Some path else None
  else None.

(** The path of the first such element of a file: the game that the ID
    [gid] names in the file. *)
Fixpoint first_game_with_id `{Host} (lb_dir gid : string) (elems : list XmlElement)
  : option string :=
  match elems with
  | [] => None
  | e :: rest =>
      match valid_game_path lb_dir gid e with
      | Some path => Some path
      | None => first_game_with_id lb_dir gid rest
      end
  end.

(** How the asset matcher comes to attach the file [file] under the type
    [ty] to the game of id [i]: from an image directory, the name looked up
    being the base name cut by three characters; from the music directory,
    the name being the base name; from the video directory, the name being
    the title of the file or, when that is not in the index, the title tried
    after a miss. *)
Definition image_match `{Host} (images_root : string) (dirs : list (string * AssetType))
    (index : string -> option nat) (i : nat) (ty : AssetType) (file : string) : Prop :=
  exists dir, (dir, ty) ∈ dirs /\ file ∈ dir_files (images_root +:+ dir) /\
              index (cut_last_three (FileName.completeBaseName file)) = Some i.

Definition music_match `{Host} (music_root : string) (index : string -> option nat)
    (i : nat) (ty : AssetType) (file : string) : Prop :=
  ty = MUSIC /\ file ∈ dir_files music_root /\
  index (FileName.completeBaseName file) = Some i.

Definition video_title_match (index : string -> option nat) (i : nat) (file : string)
  : Prop :=
  let t := video_game_title (FileName.completeBaseName file) in
  index t = Some i \/ (index t = None /\ index (video_retry_title t) = Some i).


(** ** A small installation, used to run the definitions *)

Module Demo.

Definition leaf (t v : string) : XmlLeaf := {| tag := t; text := v |}.

Definition disk : list string :=
  [ "/lb/emu/retroarch"; "/lb/Games/a.nes"; "/lb/Games/b.nes";
    "/lb/Data/Emulators.xml"; "/lb/Data/Platforms/NES.xml";
    "/lb/Data/Platforms/SNES.xml" ].

Definition emulators_xml : XmlDoc :=
  {| doc_file := "/lb/Data/Emulators.xml";
     doc_root := Some "LaunchBox";
     doc_elements :=
       [ {| elem_name := "Emulator";
            children := [ leaf "ID" "e1"; leaf "ApplicationPath" "emu/retroarch";
                          leaf "CommandLine" "-f" ] |};
         {| elem_name := "EmulatorPlatform";
            children := [ leaf "Emulator" "e1"; leaf "Platform" "NES" ] |};
         {| elem_name := "EmulatorPlatform";
            children := [ leaf "Emulator" "ghost"; leaf "Platform" "SNES" ] |} ];
     doc_error := false |}.

Definition nes_xml : XmlDoc :=
  {| doc_file := "/lb/Data/Platforms/NES.xml";
     doc_root := Some "LaunchBox";
     doc_elements :=
       [ {| elem_name := "AdditionalApplication";
            children := [ leaf "Id" "x1"; leaf "GameID" "g1";
                          leaf "ApplicationPath" "Games/b.nes" ] |};
         {| elem_name := "Game";
            children := [ leaf "ID" "g1"; leaf "ApplicationPath" "Games/a.nes";
                          leaf "Title" "Alpha" ] |};
         {| elem_name := "Game";
            children := [ leaf "ID" "g2"; leaf "ApplicationPath" "Games/b.nes";
                          leaf "Title" "Beta" ] |};
         {| elem_name := "Game";
            children := [ leaf "ID" "g3"; leaf "ApplicationPath" "Games/gone.nes" ] |};
         {| elem_name := "Game";
            children := [ leaf "ID" "g4"; leaf "ApplicationPath" "Games/a.nes";
                          leaf "Title" "Alpha again" ] |} ];
     doc_error := false |}.

(** The single-precision values nearest to 0.5, 0.3 and 0.9. *)
Definition f32_0_5 : spec_float := S754_finite false 8388608 (-24).
Definition f32_0_3 : spec_float := S754_finite false 10066330 (-25).
Definition f32_0_9 : spec_float := S754_finite false 15099494 (-24).

Definition dirname (p : string) : string :=
  let i := QStr.rindex "/"%char (QStr.chars p) 0 (-1) in
  QStr.str (take (Z.to_nat i) (QStr.chars p)).

Definition host : Host :=
  {| filePath dir file := dir +:+ file;
     exists_ p := bool_decide (p ∈ disk);
     canonicalFilePath p := if bool_decide (p ∈ disk) then p else EmptyString;
     absolutePath := dirname;
     toFloat s :=
       if String.eqb s "0.5" then Some f32_0_5
       else if String.eqb s "0.3" then Some f32_0_3
       else if String.eqb s "0.9" then Some f32_0_9
       else None;
     QDate_fromString _ := None;
     dir_files _ := [];
     open_xml p :=
       if String.eqb p "/lb/Data/Emulators.xml" then Some emulators_xml
       else if String.eqb p "/lb/Data/Platforms/NES.xml" then Some nes_xml
       else None;
     pretty_filename := FileName.completeBaseName;
     field_order := map_to_list;
     field_order_perm m := Permutation_refl (map_to_list m) |}.

Definition start : State := {| sctx := empty_context; log := [] |}.


Definition nes : Platform :=
  {| default_emu_id := "e1"; name := "NES"; cmd_params := EmptyString;
     xml_path := "/lb/Data/Platforms/NES.xml" |}.

Definition retroarch : Emulator :=
  {| app_path := "/lb/emu/retroarch"; emu_cmd_params := "-f" |}.

Definition emulators : gmap string Emulator := {[ "e1" := retroarch ]}.

(** A field map with a genre and a play mode, and its two visiting orders. *)
Definition genre_fields : gmap GameField.t string :=
  <[ GameField.GENRE := "Action" ]> {[ GameField.PLAYMODE := "Co-op; Versus" ]}.

Definition genre_first : list (GameField.t * string) :=
  [ (GameField.GENRE, "Action"); (GameField.PLAYMODE, "Co-op; Versus") ].

Definition playmode_first : list (GameField.t * string) :=
  [ (GameField.PLAYMODE, "Co-op; Versus"); (GameField.GENRE, "Action") ].

(** The scan of the installation from the empty context. *)
Definition scan : option State := findLists (H := host) "/lb/" start.

(** The state of the scan when the loop over the elements of [nes_xml] ends,
    before the additional applications are stored. *)
Definition after_games
  : option (list (gmap AdditionalAppField.t string) * gmap string nat * State) :=
  read_elements (H := host) (doc_file nes_xml) (doc_elements nes_xml) "/lb/" nes
    emulators "NES" [] ∅
    {| sctx := open_collection "NES" empty_context; log := [] |}.

(** The additional application [x1] of [nes_xml]: a second file for the game
    [g1], which is also the file of the game [g2]. *)
(** The Game element of [nes_xml] whose file is not on the disk, and the
    elements before and after it. *)
Definition gone_game : XmlElement :=
  {| elem_name := "Game";
     children := [ leaf "ID" "g3"; leaf "ApplicationPath" "Games/gone.nes" ] |}.

Definition before_gone : list XmlElement := take 3 (doc_elements nes_xml).
Definition after_gone : list XmlElement := drop 4 (doc_elements nes_xml).

Definition x1_values : gmap AdditionalAppField.t string :=
  platform_xml_read_addiapp
    [ leaf "Id" "x1"; leaf "GameID" "g1"; leaf "ApplicationPath" "Games/b.nes" ].

End Demo.

(** ** Further sample data *)

(** Two games whose titles give the same escaped key. *)
Definition sample_colliding : gmap nat Game :=
  {[ 0%nat := set_title "A:B" (Game_new (H := Demo.host) "/lb/Games/a.nes");
     1%nat := set_title "A?B" (Game_new (H := Demo.host) "/lb/Games/b.nes") ]}.

(** A second emulator and a field map that chooses it for one game. *)
Definition sample_emulators : gmap string Emulator :=
  <[ "e2" := {| app_path := "/lb/emu/mame"; emu_cmd_params := EmptyString |} ]>
    Demo.emulators.

Definition sample_fields : gmap GameField.t string :=
  list_to_map
    [ (GameField.TITLE, "Alpha"); (GameField.NOTES, "A game");
      (GameField.DEVELOPER, "Dev"); (GameField.STARS, "0.5");
      (GameField.GENRE, "Action"); (GameField.PLAYMODE, "Co-op; Action;");
      (GameField.EMULATOR, "e2"); (GameField.EMULATOR_PARAMS, "-x") ].

Definition sample_game : option Game :=
  store_game_fields (H := Demo.host) (Game_new (H := Demo.host) "/lb/Games/a.nes")
    sample_fields Demo.nes sample_emulators.

(** The local ids and the state of the scan of [Demo.nes_xml] when its Game
    elements have been read, and the game of id 0 at that point. *)
Definition sample_gm : gmap string nat :=
  default ∅ ((fun r => r.1.2) <$> Demo.after_games).

Definition sample_st : State :=
  default Demo.start ((fun r => r.2) <$> Demo.after_games).

Definition sample_g0 : Game :=
  default (Game_new (H := Demo.host) "/lb/Games/a.nes") (games (sctx sample_st) !! 0%nat).

(** A Game element with a new ID for the file of the game of id 0. *)
Definition sample_kids : list XmlLeaf :=
  [ Demo.leaf "ID" "g9"; Demo.leaf "ApplicationPath" "Games/a.nes";
    Demo.leaf "Title" "Alpha once more" ].

Definition sample_read : option (gmap string nat * State) :=
  platform_xml_read_game (H := Demo.host) "/lb/Data/Platforms/NES.xml" sample_kids
    "/lb/" Demo.nes Demo.emulators "NES" sample_gm sample_st.

(** A platform of the registry whose catalogue cannot be opened. *)
Definition sample_snes : Platform :=
  {| default_emu_id := "e1"; name := "SNES"; cmd_params := EmptyString;
     xml_path := "/lb/Data/Platforms/SNES.xml" |}.

(** The installation of [Demo] with a box front, a piece of music and a
    video on the disk. *)
Definition sample_host : Host :=
  {| filePath := filePath (Host := Demo.host);
     exists_ := exists_ (Host := Demo.host);
     canonicalFilePath := canonicalFilePath (Host := Demo.host);
     absolutePath := absolutePath (Host := Demo.host);
     toFloat := toFloat (Host := Demo.host);
     QDate_fromString := QDate_fromString (Host := Demo.host);
     dir_files d :=
       if String.eqb d "/lb/Images/NES/Box - Front"
       then [ "/lb/Images/NES/Box - Front/Alpha-01.png";
              "/lb/Images/NES/Box - Front/Gamma-01.png" ]
       else if String.eqb d "/lb/Music/NES/" then [ "/lb/Music/NES/Beta.mp3" ]
       else if String.eqb d "/lb/Videos/NES/" then [ "/lb/Videos/NES/Beta (USA).mp4" ]
       else [];
     open_xml := open_xml (Host := Demo.host);
     pretty_filename := pretty_filename (Host := Demo.host);
     field_order := field_order (Host := Demo.host);
     field_order_perm := field_order_perm (Host := Demo.host) |}.

Definition sample_ctx : SearchContext := default empty_context (sctx <$> Demo.scan).

Definition sample_assets : option SearchContext :=
  find_assets (H := sample_host) "/lb/" Demo.nes assetdir_map sample_ctx.

(** A collection of four games, and an installation with two box fronts, a
    piece of music and three videos on the disk. *)
Definition matcher_game (t file : string) : Game :=
  set_title t (Game_new (H := Demo.host) file).

Definition matcher_ctx : SearchContext :=
  {| games :=
       list_to_map
         [ (0%nat, matcher_game "Mario" "/lb/Games/a.nes");
           (1%nat, matcher_game "Ma" "/lb/Games/b.nes");
           (2%nat, matcher_game "The Metroid Prime" "/lb/Games/c.nes");
           (3%nat, matcher_game "The Zelda: Link" "/lb/Games/d.nes") ];
     path_to_gameid :=
       list_to_map
         [ ("/lb/Games/a.nes", 0%nat); ("/lb/Games/b.nes", 1%nat);
           ("/lb/Games/c.nes", 2%nat); ("/lb/Games/d.nes", 3%nat) ];
     collections := {[ "NES" := "NES" ]};
     collection_childs := {[ "NES" := [0; 1; 2; 3]%nat ]} |}.

Definition matcher_host : Host :=
  {| filePath := filePath (Host := Demo.host);
     exists_ := exists_ (Host := Demo.host);
     canonicalFilePath := canonicalFilePath (Host := Demo.host);
     absolutePath := absolutePath (Host := Demo.host);
     toFloat := toFloat (Host := Demo.host);
     QDate_fromString := QDate_fromString (Host := Demo.host);
     dir_files d :=
       if String.eqb d "/lb/Images/NES/Box - Front"
       then [ "/lb/Images/NES/Box - Front/Mario.png";
              "/lb/Images/NES/Box - Front/Mario-01.png" ]
       else if String.eqb d "/lb/Music/NES/" then [ "/lb/Music/NES/Mario.mp3" ]
       else if String.eqb d "/lb/Videos/NES/"
       then [ "/lb/Videos/NES/Metroid Prime, The (USA).mp4";
              "/lb/Videos/NES/Zelda - Link, The (USA).mp4";
              "/lb/Videos/NES/Nothing (USA).mp4" ]
       else [];
     open_xml := open_xml (Host := Demo.host);
     pretty_filename := pretty_filename (Host := Demo.host);
     field_order := field_order (Host := Demo.host);
     field_order_perm := field_order_perm (Host := Demo.host) |}.

Definition matcher_result : option SearchContext :=
  find_assets (H := matcher_host) "/lb/" Demo.nes assetdir_map matcher_ctx.

(** * Properties *)

(** ** Launch command *)

Lemma launch_command_not_empty (app params : string) :
  QStr.isEmpty (launch_command app params) = false.
Proof. reflexivity. Qed.

Lemma store_game_fields_in_Some `{Host} order game platform emulators emu :
  emulators !! default_emu_id platform = Some emu ->
  exists st,
    st = foldl (merge_field emulators)
           {| ms_game := game; emu_app := app_path emu;
              emu_params := if QStr.isEmpty (cmd_params platform)
                            then app_path emu else cmd_params platform |} order /\
    store_game_fields_in order game platform emulators =
      Some (set_launch_workdir (absolutePath (emu_app st))
              (set_launch_cmd (launch_command (emu_app st) (emu_params st))
                 (ms_game st))).
Proof.
  intros Hemu. eexists. split; [reflexivity|].
  unfold store_game_fields_in. rewrite Hemu. reflexivity.
Qed.

Lemma store_game_fields_in_launch_cmd `{Host} order game platform emulators g :
  store_game_fields_in order game platform emulators = Some g ->
  exists app params, launch_cmd g = launch_command app params.
Proof.
  unfold store_game_fields_in. intros Hg.
  destruct (emulators !! default_emu_id platform) as [emu|]; simplify_eq/=.
  eauto.
Qed.

Lemma emplace_lookup_same `{Countable K} {V} (k : K) (v : V) (m : gmap K V) :
  emplace k v m !! k = Some (default v (m !! k)).
Proof.
  unfold emplace. destruct (m !! k) as [w|] eqn:E; simpl.
  - exact E.
  - apply lookup_insert_eq.
Qed.

Lemma emplace_lookup_ne `{Countable K} {V} (k k' : K) (v : V) (m : gmap K V) :
  k <> k' -> emplace k v m !! k' = m !! k'.
Proof.
  intros Hne. unfold emplace. destruct (m !! k); [reflexivity|].
  by apply lookup_insert_ne.
Qed.

Lemma emplace_lookup_keep `{Countable K} {V} (k k' : K) (v w : V) (m : gmap K V) :
  m !! k' = Some w -> emplace k v m !! k' = Some w.
Proof.
  intros Hw. destruct (decide (k = k')) as [->|Hne].
  - rewrite emplace_lookup_same, Hw. reflexivity.
  - rewrite emplace_lookup_ne by done. exact Hw.
Qed.

(** ** Command-line parameters *)

Lemma merge_field_emu_params_other `{Host} emulators st k v :
  k <> GameField.EMULATOR_PARAMS ->
  emu_params (merge_field emulators st (k, v)) = emu_params st.
Proof.
  intros Hk. destruct k; unfold merge_field; simpl; try reflexivity; try congruence.
  destruct (emulators !! v); reflexivity.
Qed.

Lemma foldl_merge_emu_params_absent `{Host} emulators l st :
  GameField.EMULATOR_PARAMS ∉ l.*1 ->
  emu_params (foldl (merge_field emulators) st l) = emu_params st.
Proof.
  revert st. induction l as [|[k v] l IH]; intros st Hnot; [reflexivity|].
  simpl in *. apply not_elem_of_cons in Hnot as [Hk Hl].
  rewrite IH by exact Hl. apply merge_field_emu_params_other. congruence.
Qed.

Lemma foldl_merge_emu_params_present `{Host} emulators l st v :
  NoDup l.*1 -> (GameField.EMULATOR_PARAMS, v) ∈ l ->
  emu_params (foldl (merge_field emulators) st l) = v.
Proof.
  revert st. induction l as [|[k w] l IH]; intros st Hnd Hin.
  - by apply elem_of_nil in Hin.
  - simpl in *. apply NoDup_cons in Hnd as [Hk Hnd].
    apply elem_of_cons in Hin as [Heq|Hin].
    + inversion Heq; subst. rewrite foldl_merge_emu_params_absent by exact Hk.
      reflexivity.
    + apply IH; assumption.
Qed.

Lemma field_order_NoDup `{Host} (fields : gmap GameField.t string) :
  NoDup (field_order fields).*1.
Proof.
  rewrite (fmap_Permutation fst _ _ (field_order_perm fields)).
  apply NoDup_fst_map_to_list.
Qed.

Lemma field_order_elem `{Host} (fields : gmap GameField.t string) k v :
  (k, v) ∈ field_order fields <-> fields !! k = Some v.
Proof. rewrite field_order_perm. apply elem_of_map_to_list. Qed.

(** The parameters that reach the launch command: the CommandLine value of
    the game when it has one, else the platform's override when it is not
    empty, else the application path of the platform's emulator. *)
Lemma store_game_fields_effective_params `{Host} game fields platform emulators emu :
  emulators !! default_emu_id platform = Some emu ->
  exists g app,
    store_game_fields game fields platform emulators = Some g /\
    launch_cmd g =
      launch_command app
        (match fields !! GameField.EMULATOR_PARAMS with
         | Some v => v
         | None => if QStr.isEmpty (cmd_params platform)
                   then app_path emu else cmd_params platform
         end).
Proof.
  intros Hemu.
  destruct (store_game_fields_in_Some (field_order fields) game platform emulators
              emu Hemu) as (ms & Hms & Hg).
  exists (set_launch_workdir (absolutePath (emu_app ms))
            (set_launch_cmd (launch_command (emu_app ms) (emu_params ms)) (ms_game ms))),
         (emu_app ms).
  split; [exact Hg|]. simpl. f_equal. subst ms.
  destruct (fields !! GameField.EMULATOR_PARAMS) as [v|] eqn:Hv.
  - apply foldl_merge_emu_params_present.
    + apply field_order_NoDup.
    + by apply field_order_elem.
  - rewrite foldl_merge_emu_params_absent; [reflexivity|].
    intros Hin. apply list_elem_of_fmap in Hin as ([k v] & Hk & Hin).
    simpl in Hk. subst k. apply field_order_elem in Hin. congruence.
Qed.

(** C2: with no CommandLine value on the game and an empty override on the
    platform, the launch command carries the application path of the emulator
    a second time, where the parameters [-f] of the emulator were due. *)
Theorem default_params_are_app_path :
  launch_cmd <$> store_game_fields (H := Demo.host)
                   (Game_new (H := Demo.host) "/lb/Games/a.nes")
                   {[ GameField.TITLE := "Alpha" ]} Demo.nes Demo.emulators
    = Some (launch_command "/lb/emu/retroarch" "/lb/emu/retroarch") /\
  emu_cmd_params Demo.retroarch = "-f" /\
  launch_command "/lb/emu/retroarch" "/lb/emu/retroarch"
    <> launch_command "/lb/emu/retroarch" (emu_cmd_params Demo.retroarch).
Proof.
  split; [vm_compute; reflexivity|]. split; [reflexivity|].
  vm_compute. discriminate.
Qed.

(** ** Rating *)








(** ** Strings *)

Lemma chars_str (l : list ascii) : QStr.chars (QStr.str l) = l.
Proof. apply list_ascii_of_string_of_list_ascii. Qed.

Lemma str_chars (s : string) : QStr.str (QStr.chars s) = s.
Proof. apply string_of_list_ascii_of_string. Qed.

Lemma left_whole (n : Z) (s : string) :
  n < 0 \/ QStr.size s <= n -> QStr.left n s = s.
Proof.
  intros Hn. unfold QStr.left.
  destruct (n <? 0) eqn:E1; [reflexivity|].
  destruct (QStr.size s <=? n) eqn:E2; [reflexivity|]. lia.
Qed.

Lemma left_take (n : nat) (s : string) :
  (n < length (QStr.chars s))%nat ->
  QStr.left (Z.of_nat n) s = QStr.str (take n (QStr.chars s)).
Proof.
  intros Hn. unfold QStr.left, QStr.size.
  destruct (Z.of_nat n <? 0) eqn:E1; [lia|].
  destruct (Z.of_nat (length (QStr.chars s)) <=? Z.of_nat n) eqn:E2; [lia|].
  simpl. rewrite Nat2Z.id. reflexivity.
Qed.






(** ** Videos *)





Example video_retry_title_zelda :
  QStr.replace " - " ": " "Zelda - Link - Sword" = "Zelda: Link: Sword" /\
  video_game_title "Zelda - Link, The (USA) (Rev A)" = "Zelda - Link, The (USA)" /\
  video_game_title "Zelda - Link, The  (USA)" = "Zelda - Link, The" /\
  video_retry_title "Zelda - Link, The" = "The Zelda: Link" /\
  video_game_title "(USA)" = "(USA)".
Proof. repeat split; reflexivity. Qed.

(** ** Registry pruning *)

Lemma foldl_invariant {A B} (P : A -> Prop) (f : A -> B -> A) (l : list B) (a : A) :
  P a -> (forall a x, P a -> P (f a x)) -> P (foldl f a l).
Proof.
  intros Ha Hstep. revert a Ha.
  induction l as [|x l IH]; intros a Ha; [exact Ha|].
  simpl. apply IH, Hstep, Ha.
Qed.

Lemma remove_platforms_without_emulator_filter (emulators : gmap string Emulator) ps :
  remove_platforms_without_emulator emulators ps =
  ( filter (fun p => is_Some (emulators !! default_emu_id p)) ps,
    map (fun p => PlatformMissingEmulator (name p))
      (filter (fun p => emulators !! default_emu_id p = None) ps) ).
Proof.
  induction ps as [|p ps IH]; [reflexivity|].
  simpl. rewrite IH.
  destruct (emulators !! default_emu_id p) as [e|] eqn:E.
  - rewrite filter_cons_True by (rewrite E; eauto).
    rewrite (filter_cons_False (fun p => emulators !! default_emu_id p = None))
      by (rewrite E; discriminate).
    reflexivity.
  - rewrite filter_cons_False by (rewrite E; intros [? ?]; discriminate).
    rewrite (filter_cons_True (fun p => emulators !! default_emu_id p = None))
      by (rewrite E; reflexivity).
    reflexivity.
Qed.

Lemma read_emulator_fields_quiet `{Host} lb_dir kids :
  Forall quiet_diag (read_emulator_fields lb_dir kids).2.
Proof.
  unfold read_emulator_fields.
  apply (foldl_invariant (fun acc : string * Emulator * list Diag => Forall quiet_diag acc.2)).
  - constructor.
  - intros [[emu_id emu] lg] leaf Hlg. simpl in *.
    repeat case_match; simpl; try assumption.
    apply Forall_app. split; [assumption|]. repeat constructor.
Qed.

Lemma read_registry_element_inv `{Host} lb_dir acc e :
  Forall (fun p => Platform_incomplete p = false) (platforms acc.1) /\ Forall quiet_diag acc.2 ->
  Forall (fun p => Platform_incomplete p = false) (platforms (read_registry_element lb_dir acc e).1) /\
  Forall quiet_diag (read_registry_element lb_dir acc e).2.
Proof.
  destruct acc as [out lg]. simpl. intros [Hps Hlg].
  unfold read_registry_element.
  destruct (String.eqb (elem_name e) "EmulatorPlatform").
  - match goal with |- context [negb (Platform_incomplete ?p)] => set (q := p) end.
    destruct (Platform_incomplete q) eqn:Hq; simpl; split; try assumption.
    apply Forall_app. split; [assumption|]. repeat constructor. exact Hq.
  - destruct (String.eqb (elem_name e) "Emulator"); [|split; assumption].
    pose proof (read_emulator_fields_quiet lb_dir (children e)) as Hq.
    destruct (read_emulator_fields lb_dir (children e)) as [[emu_id emu] lg'].
    simpl in Hq.
    destruct (negb (QStr.isEmpty emu_id) && negb (Emulator_incomplete emu)); simpl;
      (split; [assumption|]); apply Forall_app; split; assumption.
Qed.

Lemma read_registry_inv `{Host} lb_dir doc :
  Forall (fun p => Platform_incomplete p = false) (platforms (read_registry lb_dir doc).1) /\
  Forall quiet_diag (read_registry lb_dir doc).2.
Proof.
  unfold read_registry.
  match goal with |- context [foldl ?f ?a ?l] =>
    pose proof (foldl_invariant
      (fun acc : EmulatorData * list Diag =>
         Forall (fun p => Platform_incomplete p = false) (platforms acc.1) /\
         Forall quiet_diag acc.2) f l a) as Hinv;
    destruct (foldl f a l) as [out lg]
  end.
  simpl in *. destruct Hinv as [Hps Hlg].
  - split; constructor.
  - intros acc e. apply read_registry_element_inv.
  - split; [assumption|].
    case_match; [|assumption].
    apply Forall_app. split; [assumption|]. repeat constructor.
Qed.

(** C6: every platform returned by [read_emulators_xml] refers to an
    emulator of the returned map. The returned platforms are the parsed ones,
    all of them complete, without those whose emulator is missing; the
    warnings are those of the parse, none of which is about a missing
    emulator, followed by one [PlatformMissingEmulator] for each platform
    removed, in order. *)
Theorem read_emulators_xml_prunes `{Host} (lb_dir : string) :
  let out := (read_emulators_xml lb_dir).1 in
  let lg := (read_emulators_xml lb_dir).2 in
  Forall (fun p => is_Some (emus out !! default_emu_id p)) (platforms out) /\
  forall doc,
    open_xml (lb_dir +:+ "Data/Emulators.xml") = Some doc ->
    let parsed := (read_registry lb_dir doc).1 in
    emus out = emus parsed /\
    Forall (fun p => Platform_incomplete p = false) (platforms parsed) /\
    platforms out =
      filter (fun p => is_Some (emus parsed !! default_emu_id p)) (platforms parsed) /\
    lg = (read_registry lb_dir doc).2 ++
         map (fun p => PlatformMissingEmulator (name p))
           (filter (fun p => emus parsed !! default_emu_id p = None) (platforms parsed)) /\
    Forall quiet_diag (read_registry lb_dir doc).2.
Proof.
  intros out lg. subst out lg. unfold read_emulators_xml.
  destruct (open_xml (lb_dir +:+ "Data/Emulators.xml")) as [doc|] eqn:Hopen.
  - pose proof (read_registry_inv lb_dir doc) as [Hcomplete Hquiet].
    destruct (read_registry lb_dir doc) as [parsed plog] eqn:Hreg.
    rewrite remove_platforms_without_emulator_filter. simpl in *.
    split.
    + apply Forall_forall. intros p Hp. by apply list_elem_of_filter in Hp as [Hp _].
    + intros doc' Hdoc'. simplify_eq. rewrite Hreg. simpl.
      repeat split; assumption.
  - simpl. split; [constructor|]. intros doc' Hdoc'. discriminate.
Qed.

Lemma read_emulators_xml_prunes_witness :
  open_xml (Host := Demo.host) ("/lb/" +:+ "Data/Emulators.xml") = Some Demo.emulators_xml /\
  Forall (fun p => is_Some (emus (read_emulators_xml (H := Demo.host) "/lb/").1
                              !! default_emu_id p))
    (platforms (read_emulators_xml (H := Demo.host) "/lb/").1) /\
  platforms (read_emulators_xml (H := Demo.host) "/lb/").1 =
    filter (fun p => is_Some (emus (read_registry (H := Demo.host) "/lb/" Demo.emulators_xml).1
                                !! default_emu_id p))
      (platforms (read_registry (H := Demo.host) "/lb/" Demo.emulators_xml).1) /\
  (read_emulators_xml (H := Demo.host) "/lb/").2 =
    (read_registry (H := Demo.host) "/lb/" Demo.emulators_xml).2 ++
    map (fun p => PlatformMissingEmulator (name p))
      (filter (fun p => emus (read_registry (H := Demo.host) "/lb/" Demo.emulators_xml).1
                          !! default_emu_id p = None)
         (platforms (read_registry (H := Demo.host) "/lb/" Demo.emulators_xml).1)).
Proof.
  assert (Hopen : open_xml (Host := Demo.host) ("/lb/" +:+ "Data/Emulators.xml")
                  = Some Demo.emulators_xml) by reflexivity.
  split; [exact Hopen|].
  split; [exact (proj1 (read_emulators_xml_prunes (H := Demo.host) "/lb/"))|].
  destruct (proj2 (read_emulators_xml_prunes (H := Demo.host) "/lb/")
              Demo.emulators_xml Hopen) as (_ & _ & Hps & Hlg & _).
  split; [exact Hps|exact Hlg].
Defined.

(** ** Skipped game entries *)

(** The warnings never feed back into the scan: a call started with another
    log does the same to the context and prints the same. *)
Lemma store_game_frame `{Host} finfo fields platform emulators coll st id st' :
  store_game finfo fields platform emulators coll st = Some (id, st') ->
  log st' = log st /\
  forall l,
    store_game finfo fields platform emulators coll {| sctx := sctx st; log := l |}
    = Some (id, {| sctx := sctx st'; log := l |}).
Proof.
  unfold store_game. simpl.
  destruct (path_to_gameid (sctx st) !! canonicalFilePath finfo) as [i|] eqn:Hidx; simpl.
  - rewrite Hidx. simpl. intros [= <- <-]. split; [reflexivity|].
    intros l. simpl. reflexivity.
  - destruct (store_game_fields (Game_new finfo) fields platform emulators)
      as [g|] eqn:Hg; simpl; [|discriminate].
    destruct (store_game_fields_in_launch_cmd _ _ _ _ _ Hg) as (app & params & Hcmd).
    rewrite Hcmd, launch_command_not_empty. simpl.
    destruct (emplace (canonicalFilePath finfo) (size (games (sctx st)))
                (path_to_gameid (sctx st)) !! canonicalFilePath finfo) as [j|];
      simpl; [|discriminate].
    intros [= <- <-]. split; reflexivity.
Qed.

Lemma platform_xml_read_game_frame `{Host} xmlpath kids lb_dir platform emulators coll
    gameid_map st gm' st' :
  platform_xml_read_game xmlpath kids lb_dir platform emulators coll gameid_map st
    = Some (gm', st') ->
  exists out,
    log st' = log st ++ out /\
    forall l,
      platform_xml_read_game xmlpath kids lb_dir platform emulators coll gameid_map
        {| sctx := sctx st; log := l |}
      = Some (gm', {| sctx := sctx st'; log := l ++ out |}).
Proof.
  unfold platform_xml_read_game.
  destruct (read_fields gamefield_map kids !! GameField.ID) as [id|].
  2:{ intros [= <- <-]. eexists. split; reflexivity. }
  destruct (read_fields gamefield_map kids !! GameField.PATH) as [path|].
  2:{ intros [= <- <-]. eexists. split; reflexivity. }
  destruct (exists_ (filePath lb_dir path)); simpl.
  2:{ intros [= <- <-]. eexists. split; reflexivity. }
  destruct (store_game (filePath lb_dir path) (read_fields gamefield_map kids)
              platform emulators coll st) as [[gid st1]|] eqn:Hsg; simpl; [|discriminate].
  intros [= <- <-].
  destruct (store_game_frame _ _ _ _ _ _ _ _ Hsg) as [Hlog Hfr].
  exists []. split; [rewrite app_nil_r; exact Hlog|].
  intros l. rewrite Hfr. simpl. rewrite app_nil_r. reflexivity.
Qed.

Lemma read_elements_frame `{Host} xmlpath elems lb_dir platform emulators coll
    aa gm st aa' gm' st' :
  read_elements xmlpath elems lb_dir platform emulators coll aa gm st
    = Some (aa', gm', st') ->
  exists out,
    log st' = log st ++ out /\
    forall l,
      read_elements xmlpath elems lb_dir platform emulators coll aa gm
        {| sctx := sctx st; log := l |}
      = Some (aa', gm', {| sctx := sctx st'; log := l ++ out |}).
Proof.
  revert aa gm st. induction elems as [|e rest IH]; intros aa gm st; simpl.
  - intros [= <- <- <-]. exists []. rewrite !app_nil_r. split; [reflexivity|].
    intros l. rewrite app_nil_r. reflexivity.
  - destruct (String.eqb (elem_name e) "Game").
    + destruct (platform_xml_read_game xmlpath (children e) lb_dir platform emulators
                  coll gm st) as [[gm1 st1]|] eqn:Hg; simpl; [|discriminate].
      intros Hrest.
      destruct (platform_xml_read_game_frame _ _ _ _ _ _ _ _ _ _ Hg) as (o1 & Hl1 & Hf1).
      destruct (IH _ _ _ Hrest) as (o2 & Hl2 & Hf2).
      exists (o1 ++ o2). split; [rewrite Hl2, Hl1, app_assoc; reflexivity|].
      intros l. rewrite Hf1. simpl.
      specialize (Hf2 (l ++ o1)). rewrite <- app_assoc in Hf2. exact Hf2.
    + destruct (String.eqb (elem_name e) "AdditionalApplication"); apply IH.
Qed.

Lemma read_elements_app `{Host} xmlpath l1 l2 lb_dir platform emulators coll aa gm st :
  read_elements xmlpath (l1 ++ l2) lb_dir platform emulators coll aa gm st =
  match read_elements xmlpath l1 lb_dir platform emulators coll aa gm st with
  | Some (aa1, gm1, st1) =>
      read_elements xmlpath l2 lb_dir platform emulators coll aa1 gm1 st1
  | None => None
  end.
Proof.
  revert aa gm st. induction l1 as [|e l1 IH]; intros aa gm st; simpl; [reflexivity|].
  destruct (String.eqb (elem_name e) "Game").
  - destruct (platform_xml_read_game xmlpath (children e) lb_dir platform emulators
                coll gm st) as [[gm1 st1]|]; simpl; [apply IH|reflexivity].
  - destruct (String.eqb (elem_name e) "AdditionalApplication"); apply IH.
Qed.

Lemma platform_xml_read_game_invalid `{Host} xmlpath kids lb_dir platform emulators coll
    gameid_map st :
  game_entry_invalid lb_dir kids ->
  exists d,
    platform_xml_read_game xmlpath kids lb_dir platform emulators coll gameid_map st
    = Some (gameid_map, warn d st).
Proof.
  unfold game_entry_invalid, platform_xml_read_game.
  intros [Hid|[Hpath|(path & Hpath & Hex)]].
  - rewrite Hid. eauto.
  - destruct (read_fields gamefield_map kids !! GameField.ID); rewrite ?Hpath; eauto.
  - destruct (read_fields gamefield_map kids !! GameField.ID); [|eauto].
    rewrite Hpath, Hex. simpl. eauto.
Qed.

(** C7: a Game element without ID, without path, or whose file does not
    exist, is dropped: the call returns the context and the map of local ids
    it was given, with one warning added. The other elements of the file are
    read as if the entry were not there: with the entry, the loop over the
    elements ends in the same context, the same local ids and the same
    entries put aside, and its log has that one warning more. *)
Theorem game_entry_skipped `{Host} xmlpath kids lb_dir platform emulators coll
    gameid_map st :
  game_entry_invalid lb_dir kids ->
  (exists d,
     platform_xml_read_game xmlpath kids lb_dir platform emulators coll gameid_map st
     = Some (gameid_map, warn d st)) /\
  (forall e before after aa aa' gm' st',
     elem_name e = "Game" -> children e = kids ->
     read_elements xmlpath (before ++ after) lb_dir platform emulators coll
       aa gameid_map st = Some (aa', gm', st') ->
     exists d l1 l2,
       log st' = l1 ++ l2 /\
       read_elements xmlpath (before ++ e :: after) lb_dir platform emulators coll
         aa gameid_map st
       = Some (aa', gm', {| sctx := sctx st'; log := l1 ++ d :: l2 |})).
Proof.
  intros Hbad. split; [by apply platform_xml_read_game_invalid|].
  intros e before after aa aa' gm' st' Hname Hkids.
  rewrite !read_elements_app.
  destruct (read_elements xmlpath before lb_dir platform emulators coll aa gameid_map st)
    as [[[aa1 gm1] st1]|]; [|discriminate].
  intros Hafter. simpl. rewrite Hname. simpl. rewrite Hkids.
  destruct (platform_xml_read_game_invalid xmlpath kids lb_dir platform emulators coll
              gm1 st1 Hbad) as (d & ->). simpl.
  destruct (read_elements_frame _ _ _ _ _ _ _ _ _ _ _ _ Hafter) as (out & Hlog & Hfr).
  exists d, (log st1), out. split; [exact Hlog|].
  unfold warn. rewrite Hfr. rewrite <- app_assoc. reflexivity.
Qed.

Lemma game_entry_skipped_witness :
  game_entry_invalid (H := Demo.host) "/lb/" (children Demo.gone_game) /\
  (exists d,
     platform_xml_read_game (H := Demo.host) "/lb/Data/Platforms/NES.xml"
       (children Demo.gone_game) "/lb/" Demo.nes Demo.emulators "NES" ∅ Demo.start
     = Some (∅, warn d Demo.start)) /\
  match read_elements (H := Demo.host) "/lb/Data/Platforms/NES.xml"
          (Demo.before_gone ++ Demo.after_gone) "/lb/" Demo.nes Demo.emulators "NES"
          [] ∅ Demo.start with
  | Some (aa', gm', st') =>
      exists d l1 l2,
        log st' = l1 ++ l2 /\
        read_elements (H := Demo.host) "/lb/Data/Platforms/NES.xml"
          (Demo.before_gone ++ Demo.gone_game :: Demo.after_gone) "/lb/" Demo.nes
          Demo.emulators "NES" [] ∅ Demo.start
        = Some (aa', gm', {| sctx := sctx st'; log := l1 ++ d :: l2 |})
  | None => False
  end.
Proof.
  assert (Hbad : game_entry_invalid (H := Demo.host) "/lb/" (children Demo.gone_game)).
  { right. right. exists "Games/gone.nes". split; vm_compute; reflexivity. }
  destruct (game_entry_skipped (H := Demo.host) "/lb/Data/Platforms/NES.xml"
              (children Demo.gone_game) "/lb/" Demo.nes Demo.emulators "NES" ∅
              Demo.start Hbad) as [Hskip Hsib].
  split; [exact Hbad|]. split; [exact Hskip|].
  destruct (read_elements (H := Demo.host) "/lb/Data/Platforms/NES.xml"
              (Demo.before_gone ++ Demo.after_gone) "/lb/" Demo.nes Demo.emulators "NES"
              [] ∅ Demo.start) as [[[aa' gm'] st']|] eqn:E.
  - exact (Hsib Demo.gone_game Demo.before_gone Demo.after_gone [] aa' gm' st'
             eq_refl eq_refl E).
  - vm_compute in E. discriminate E.
Defined.

(** ** Additional applications *)

Lemma store_addiapp_invalid `{Host} xmlpath lb_dir values gameid_map st :
  addiapp_entry_invalid lb_dir values gameid_map ->
  exists d, store_addiapp xmlpath lb_dir values gameid_map st = Some (warn d st).
Proof.
  unfold addiapp_entry_invalid, store_addiapp.
  intros Hbad.
  destruct (values !! AdditionalAppField.ID) as [id|]; [|eauto].
  destruct (values !! AdditionalAppField.GAME_ID) as [gid|]; [|eauto].
  destruct (gameid_map !! gid) as [gameid|] eqn:Hgm; [|eauto].
  destruct (values !! AdditionalAppField.PATH) as [path|]; [|eauto].
  destruct (exists_ (filePath lb_dir path)) eqn:Hex; simpl; [|eauto].
  destruct Hbad as [?|[?|[(g & Hg & Hn)|[?|(p & Hp & Hpe)]]]]; congruence.
Qed.

(** The loop over the elements reads the games as if they stood alone, and
    puts the additional applications aside in their order. *)
Lemma read_elements_games_first `{Host} xmlpath elems lb_dir platform emulators coll
    aa gm st :
  read_elements xmlpath elems lb_dir platform emulators coll aa gm st =
  match read_elements xmlpath (filter (fun e => elem_name e = "Game") elems)
          lb_dir platform emulators coll [] gm st with
  | Some (_, gm', st') =>
      Some (aa ++ map (fun e => platform_xml_read_addiapp (children e))
                    (filter (fun e => elem_name e = "AdditionalApplication") elems),
            gm', st')
  | None => None
  end.
Proof.
  revert aa gm st. induction elems as [|e rest IH]; intros aa gm st.
  - simpl. rewrite app_nil_r. reflexivity.
  - simpl. destruct (String.eqb_spec (elem_name e) "Game") as [Hg|Hg].
    + rewrite filter_cons_True by exact Hg.
      rewrite (filter_cons_False (fun e => elem_name e = "AdditionalApplication"))
        by (rewrite Hg; discriminate).
      simpl. rewrite Hg. simpl.
      destruct (platform_xml_read_game xmlpath (children e) lb_dir platform emulators
                  coll gm st) as [[gm1 st1]|]; simpl; [apply IH|reflexivity].
    + rewrite filter_cons_False by exact Hg.
      destruct (String.eqb_spec (elem_name e) "AdditionalApplication") as [Ha|Ha].
      * rewrite filter_cons_True by exact Ha. rewrite IH.
        destruct (read_elements xmlpath _ lb_dir platform emulators coll [] gm st)
          as [[[aa1 gm1] st1]|]; [|reflexivity].
        simpl. rewrite <- app_assoc. reflexivity.
      * rewrite filter_cons_False by exact Ha. apply IH.
Qed.

(** ** Order of the field merge *)

Lemma dedup_from_elem (seen l : list string) (x : string) :
  x ∈ QStr.dedup_from seen l <-> x ∈ l /\ x ∉ seen.
Proof.
  revert seen. induction l as [|y l IH]; intros seen; simpl.
  - split; [intros Hx; by apply elem_of_nil in Hx|intros [Hx _]; by apply elem_of_nil in Hx].
  - case_bool_decide as Hy.
    + rewrite IH, elem_of_cons. split; [tauto|].
      intros [[->|Hx] Hn]; [contradiction|tauto].
    + rewrite !elem_of_cons, IH, elem_of_cons. split.
      * intros [->|[Hx Hn]]; [tauto|]. split; [tauto|]. tauto.
      * intros [[->|Hx] Hn]; [tauto|].
        destruct (decide (x = y)) as [->|Hne]; [tauto|]. right. tauto.
Qed.

Lemma dedup_from_NoDup (seen l : list string) : NoDup (QStr.dedup_from seen l).
Proof.
  revert seen. induction l as [|y l IH]; intros seen; simpl; [constructor|].
  case_bool_decide as Hy; [apply IH|].
  constructor; [|apply IH].
  rewrite dedup_from_elem, elem_of_cons. tauto.
Qed.

Lemma removeDuplicates_elem (l : list string) (x : string) :
  x ∈ QStr.removeDuplicates l <-> x ∈ l.
Proof.
  unfold QStr.removeDuplicates. rewrite dedup_from_elem.
  split; [tauto|]. intros Hx. split; [exact Hx|]. apply not_elem_of_nil.
Qed.

Lemma removeDuplicates_perm (l1 l2 : list string) :
  (forall x, x ∈ l1 <-> x ∈ l2) ->
  QStr.removeDuplicates l1 ≡ₚ QStr.removeDuplicates l2.
Proof.
  intros Hl. apply NoDup_Permutation; try apply dedup_from_NoDup.
  intros x. rewrite !removeDuplicates_elem. apply Hl.
Qed.

Lemma ms_equiv_refl (s : MergeState) : ms_equiv s s.
Proof. repeat split; reflexivity. Qed.

Lemma ms_equiv_trans (s1 s2 s3 : MergeState) :
  ms_equiv s1 s2 -> ms_equiv s2 s3 -> ms_equiv s1 s3.
Proof.
  intros ((E1 & P1) & A1 & Q1) ((E2 & P2) & A2 & Q2).
  repeat split; try congruence. by etrans.
Qed.

Lemma merge_field_equiv `{Host} emulators s1 s2 x :
  ms_equiv s1 s2 ->
  ms_equiv (merge_field emulators s1 x) (merge_field emulators s2 x).
Proof.
  intros ((Heq & Hperm) & Happ & Hpar).
  destruct s1 as [g1 a1 p1], s2 as [g2 a2 p2]. simpl in *. subst a2 p2.
  destruct g1, g2. unfold set_genres in Heq. simpl in *.
  injection Heq as -> -> -> -> -> -> -> -> -> -> ->.
  destruct x as [k v].
  destruct k; unfold merge_field, ms_equiv, same_but_genre_order, on_game, merge_stars;
    simpl; repeat case_match; simpl;
    repeat split; try reflexivity; try assumption.
  - apply removeDuplicates_perm. intros x. rewrite !elem_of_app, Hperm. reflexivity.
  - apply removeDuplicates_perm. intros x. rewrite !elem_of_app, Hperm. reflexivity.
Qed.

Lemma foldl_merge_equiv `{Host} emulators l s1 s2 :
  ms_equiv s1 s2 ->
  ms_equiv (foldl (merge_field emulators) s1 l) (foldl (merge_field emulators) s2 l).
Proof.
  revert s1 s2. induction l as [|x l IH]; intros s1 s2 Hs; [exact Hs|].
  simpl. apply IH, merge_field_equiv, Hs.
Qed.

(** Two turns of the loop on different fields commute, but for GENRE and
    PLAYMODE, which append to the same list. *)
Lemma merge_field_swap `{Host} emulators s k1 v1 k2 v2 :
  k1 <> k2 ->
  ~ (k1 = GameField.GENRE /\ k2 = GameField.PLAYMODE) ->
  ~ (k1 = GameField.PLAYMODE /\ k2 = GameField.GENRE) ->
  merge_field emulators (merge_field emulators s (k1, v1)) (k2, v2) =
  merge_field emulators (merge_field emulators s (k2, v2)) (k1, v1).
Proof.
  intros Hne Hgp Hpg. destruct s as [g a p]. destruct g.
  destruct k1, k2; try congruence; try tauto;
    unfold merge_field, on_game, merge_stars; simpl;
    repeat case_match; simpl in *; try reflexivity; congruence.
Qed.

Lemma merge_field_swap_genres `{Host} emulators s k1 v1 k2 v2 :
  k1 <> k2 ->
  ms_equiv (merge_field emulators (merge_field emulators s (k1, v1)) (k2, v2))
           (merge_field emulators (merge_field emulators s (k2, v2)) (k1, v1)).
Proof.
  intros Hne.
  destruct (decide (k1 = GameField.GENRE /\ k2 = GameField.PLAYMODE)) as [[-> ->]|Hgp].
  { repeat split; try reflexivity. simpl.
    apply NoDup_Permutation; try apply dedup_from_NoDup.
    intros x. rewrite !removeDuplicates_elem, !elem_of_app, !removeDuplicates_elem,
                !elem_of_app. tauto. }
  destruct (decide (k1 = GameField.PLAYMODE /\ k2 = GameField.GENRE)) as [[-> ->]|Hpg].
  { repeat split; try reflexivity. simpl.
    apply NoDup_Permutation; try apply dedup_from_NoDup.
    intros x. rewrite !removeDuplicates_elem, !elem_of_app, !removeDuplicates_elem,
                !elem_of_app. tauto. }
  rewrite merge_field_swap by assumption. apply ms_equiv_refl.
Qed.

Lemma foldl_merge_perm `{Host} emulators (l1 l2 : list (GameField.t * string)) :
  l1 ≡ₚ l2 -> NoDup l1.*1 ->
  forall s1 s2, ms_equiv s1 s2 ->
    ms_equiv (foldl (merge_field emulators) s1 l1) (foldl (merge_field emulators) s2 l2).
Proof.
  induction 1 as [|x l l' Hp IH|x y l|l l' l'' Hp1 IH1 Hp2 IH2]; intros Hnd s1 s2 Hs.
  - exact Hs.
  - simpl in *. apply NoDup_cons in Hnd as [_ Hnd].
    apply IH; [exact Hnd|]. apply merge_field_equiv, Hs.
  - simpl in *. apply NoDup_cons in Hnd as [Hy Hnd].
    apply foldl_merge_equiv.
    eapply ms_equiv_trans.
    + apply merge_field_equiv, merge_field_equiv, Hs.
    + destruct x as [kx vx], y as [ky vy]. apply merge_field_swap_genres.
      simpl in Hy. intros ->. apply Hy. left.
  - eapply ms_equiv_trans.
    + apply IH1; [exact Hnd|exact Hs].
    + apply IH2; [|apply ms_equiv_refl].
      by rewrite <- (fmap_Permutation fst _ _ Hp1).
Qed.

Lemma foldl_merge_perm_eq `{Host} emulators (l1 l2 : list (GameField.t * string)) :
  l1 ≡ₚ l2 -> NoDup l1.*1 ->
  GameField.GENRE ∉ l1.*1 \/ GameField.PLAYMODE ∉ l1.*1 ->
  forall s, foldl (merge_field emulators) s l1 = foldl (merge_field emulators) s l2.
Proof.
  induction 1 as [|x l l' Hp IH|x y l|l l' l'' Hp1 IH1 Hp2 IH2]; intros Hnd Hone s.
  - reflexivity.
  - simpl in *. apply NoDup_cons in Hnd as [_ Hnd].
    apply IH; [exact Hnd|]. rewrite !not_elem_of_cons in Hone. tauto.
  - simpl in *. apply NoDup_cons in Hnd as [Hy Hnd].
    destruct x as [kx vx], y as [ky vy]. simpl in *.
    rewrite !not_elem_of_cons in Hone. rewrite not_elem_of_cons in Hy.
    f_equal. apply merge_field_swap; [tauto| |]; intros [-> ->]; tauto.
  - rewrite IH1 by assumption. apply IH2.
    + by rewrite <- (fmap_Permutation fst _ _ Hp1).
    + by rewrite <- !(fmap_Permutation fst _ _ Hp1).
Qed.

(** C9, amended: for two visiting orders of the same field map the merge
    gives records that agree on every field but the order of the genre list:
    title, description, developers, publishers, release date, rating, launch
    command and working directory are equal, and the genre lists hold the
    same entries. The whole records are equal when the map lacks GENRE or
    PLAYMODE. *)
Theorem field_merge_order `{Host} (m : gmap GameField.t string) l1 l2
    game platform emulators :
  l1 ≡ₚ map_to_list m -> l2 ≡ₚ map_to_list m ->
  is_Some (emulators !! default_emu_id platform) ->
  exists g1 g2,
    store_game_fields_in l1 game platform emulators = Some g1 /\
    store_game_fields_in l2 game platform emulators = Some g2 /\
    same_but_genre_order g1 g2 /\
    (m !! GameField.GENRE = None \/ m !! GameField.PLAYMODE = None -> g1 = g2).
Proof.
  intros H1 H2 [emu Hemu].
  assert (H12 : l1 ≡ₚ l2) by (rewrite H1, H2; reflexivity).
  assert (Hnd : NoDup l1.*1).
  { rewrite (fmap_Permutation fst _ _ H1). apply NoDup_fst_map_to_list. }
  destruct (store_game_fields_in_Some l1 game platform emulators emu Hemu)
    as (s1 & Hs1 & Hg1).
  destruct (store_game_fields_in_Some l2 game platform emulators emu Hemu)
    as (s2 & Hs2 & Hg2).
  do 2 eexists. split; [exact Hg1|]. split; [exact Hg2|].
  split.
  - pose proof (foldl_merge_perm emulators l1 l2 H12 Hnd _ _
                  (ms_equiv_refl {| ms_game := game; emu_app := app_path emu;
                                    emu_params := if QStr.isEmpty (cmd_params platform)
                                                  then app_path emu
                                                  else cmd_params platform |})) as Heq.
    rewrite <- Hs1, <- Hs2 in Heq. destruct Heq as ((Heq & Hperm) & Happ & Hpar).
    rewrite Happ, Hpar. split; [|exact Hperm].
    destruct (ms_game s1), (ms_game s2). unfold set_genres in *. simpl in *.
    injection Heq as -> -> -> -> -> -> -> -> -> -> ->. reflexivity.
  - intros Hone.
    assert (Hkeys : GameField.GENRE ∉ l1.*1 \/ GameField.PLAYMODE ∉ l1.*1).
    { rewrite (fmap_Permutation fst _ _ H1).
      destruct Hone as [Hn|Hn]; [left|right];
        intros Hin; apply list_elem_of_fmap in Hin as ([k v] & Hk & Hin);
        simpl in Hk; subst k; apply elem_of_map_to_list in Hin; congruence. }
    rewrite Hs1, Hs2, (foldl_merge_perm_eq emulators l1 l2 H12 Hnd Hkeys). reflexivity.
Qed.

Lemma genre_first_order : Demo.genre_first ≡ₚ map_to_list Demo.genre_fields.
Proof.
  unfold Demo.genre_first, Demo.genre_fields.
  rewrite map_to_list_insert by (vm_compute; reflexivity).
  rewrite map_to_list_singleton. reflexivity.
Qed.

Lemma playmode_first_order : Demo.playmode_first ≡ₚ map_to_list Demo.genre_fields.
Proof. rewrite <- genre_first_order. apply perm_swap. Qed.

Lemma field_merge_order_witness :
  Demo.genre_first ≡ₚ map_to_list Demo.genre_fields /\
  Demo.playmode_first ≡ₚ map_to_list Demo.genre_fields /\
  is_Some (Demo.emulators !! default_emu_id Demo.nes) /\
  exists g1 g2,
    store_game_fields_in (H := Demo.host) Demo.genre_first
      (Game_new (H := Demo.host) "/lb/Games/a.nes") Demo.nes Demo.emulators = Some g1 /\
    store_game_fields_in (H := Demo.host) Demo.playmode_first
      (Game_new (H := Demo.host) "/lb/Games/a.nes") Demo.nes Demo.emulators = Some g2 /\
    same_but_genre_order g1 g2 /\
    (Demo.genre_fields !! GameField.GENRE = None \/
     Demo.genre_fields !! GameField.PLAYMODE = None -> g1 = g2).
Proof.
  assert (Hemu : is_Some (Demo.emulators !! default_emu_id Demo.nes)).
  { exists Demo.retroarch. vm_compute. reflexivity. }
  split; [exact genre_first_order|]. split; [exact playmode_first_order|].
  split; [exact Hemu|].
  exact (field_merge_order (H := Demo.host) Demo.genre_fields Demo.genre_first
           Demo.playmode_first (Game_new (H := Demo.host) "/lb/Games/a.nes")
           Demo.nes Demo.emulators genre_first_order playmode_first_order Hemu).
Defined.

(** C9 as stated fails: the two visiting orders of a map with a genre and a
    play mode give two different records. *)
Lemma field_merge_order_counterexample :
  Demo.genre_first ≡ₚ map_to_list Demo.genre_fields /\
  Demo.playmode_first ≡ₚ map_to_list Demo.genre_fields /\
  genres <$> store_game_fields_in (H := Demo.host) Demo.genre_first
               (Game_new (H := Demo.host) "/lb/Games/a.nes") Demo.nes Demo.emulators
    = Some ["Action"; "Co-op"; "Versus"] /\
  genres <$> store_game_fields_in (H := Demo.host) Demo.playmode_first
               (Game_new (H := Demo.host) "/lb/Games/a.nes") Demo.nes Demo.emulators
    = Some ["Co-op"; "Versus"; "Action"] /\
  store_game_fields_in (H := Demo.host) Demo.genre_first
    (Game_new (H := Demo.host) "/lb/Games/a.nes") Demo.nes Demo.emulators
  <> store_game_fields_in (H := Demo.host) Demo.playmode_first
       (Game_new (H := Demo.host) "/lb/Games/a.nes") Demo.nes Demo.emulators.
Proof.
  split; [exact genre_first_order|]. split; [exact playmode_first_order|].
  split; [vm_compute; reflexivity|]. split; [vm_compute; reflexivity|].
  vm_compute. discriminate.
Qed.

(** ** Deduplication by canonical path *)

Lemma ctx_wf_empty `{Host} : ctx_wf empty_context.
Proof.
  repeat split; simpl; intros *; rewrite ?lookup_empty;
    try discriminate; intros [? ?]; discriminate.
Qed.

Lemma ctx_wf_dedup `{Host} c i j g1 g2 :
  ctx_wf c ->
  games c !! i = Some g1 -> games c !! j = Some g2 ->
  canonicalFilePath (src_file g1) = canonicalFilePath (src_file g2) -> i = j.
Proof.
  intros (I1 & _) H1 H2 Hpath.
  apply I1 in H1. apply I1 in H2. congruence.
Qed.

Lemma merge_field_src_file `{Host} emulators st x :
  src_file (ms_game (merge_field emulators st x)) = src_file (ms_game st).
Proof.
  destruct x as [k v].
  destruct k; unfold merge_field, on_game, merge_stars; simpl;
    repeat case_match; reflexivity.
Qed.

Lemma store_game_fields_src_file `{Host} game fields platform emulators g :
  store_game_fields game fields platform emulators = Some g -> src_file g = src_file game.
Proof.
  unfold store_game_fields, store_game_fields_in.
  destruct (emulators !! default_emu_id platform) as [emu|]; simpl; [|discriminate].
  intros [= <-]. simpl.
  apply (foldl_invariant (fun st => src_file (ms_game st) = src_file game)).
  - reflexivity.
  - intros st x Hst. rewrite merge_field_src_file. exact Hst.
Qed.

Lemma ctx_wf_push_child `{Host} coll id c :
  ctx_wf c -> is_Some (games c !! id) -> ctx_wf (push_child coll id c).
Proof.
  intros (I1 & I2 & I3 & I4) Hid. repeat split; simpl; try assumption.
  intros coll' l i Hl Hi.
  destruct (decide (coll = coll')) as [->|Hne].
  - rewrite lookup_insert_eq in Hl. injection Hl as <-.
    apply elem_of_app in Hi as [Hi|Hi].
    + destruct (collection_childs c !! coll') as [l0|] eqn:E; simpl in Hi.
      * by apply (I4 coll' l0).
      * by apply elem_of_nil in Hi.
    + apply list_elem_of_singleton in Hi. by subst.
  - rewrite lookup_insert_ne in Hl by exact Hne. by apply (I4 coll' l).
Qed.

Lemma ctx_wf_fresh `{Host} c : ctx_wf c -> games c !! size (games c) = None.
Proof.
  intros (_ & I2 & _). destruct (games c !! size (games c)) eqn:E; [|reflexivity].
  assert (Hlt : (size (games c) < size (games c))%nat) by (apply I2; eauto). lia.
Qed.

Lemma ctx_wf_add_game `{Host} c g :
  ctx_wf c ->
  path_to_gameid c !! canonicalFilePath (src_file g) = None ->
  ctx_wf (add_game (canonicalFilePath (src_file g)) (size (games c)) g c) /\
  games (add_game (canonicalFilePath (src_file g)) (size (games c)) g c)
    = <[size (games c) := g]> (games c) /\
  path_to_gameid (add_game (canonicalFilePath (src_file g)) (size (games c)) g c)
    = <[canonicalFilePath (src_file g) := size (games c)]> (path_to_gameid c).
Proof.
  intros Hwf Hmiss. pose proof (ctx_wf_fresh c Hwf) as Hfresh.
  destruct Hwf as (I1 & I2 & I3 & I4).
  assert (Hg : emplace (size (games c)) g (games c) = <[size (games c) := g]> (games c)).
  { unfold emplace. rewrite Hfresh. reflexivity. }
  assert (Hp : emplace (canonicalFilePath (src_file g)) (size (games c)) (path_to_gameid c)
               = <[canonicalFilePath (src_file g) := size (games c)]> (path_to_gameid c)).
  { unfold emplace. rewrite Hmiss. reflexivity. }
  split; [|split; assumption].
  unfold ctx_wf, add_game. simpl. rewrite Hg, Hp. repeat split.
  - intros i g0 Hi. destruct (decide (size (games c) = i)) as [<-|Hne].
    + rewrite lookup_insert_eq in Hi. injection Hi as <-. apply lookup_insert_eq.
    + rewrite lookup_insert_ne in Hi by exact Hne.
      pose proof (I1 i g0 Hi) as Hidx.
      rewrite lookup_insert_ne; [exact Hidx|]. intros Heq. congruence.
  - intros i Hi. rewrite map_size_insert_None by exact Hfresh.
    destruct (decide (size (games c) = i)) as [<-|Hne]; [lia|].
    rewrite lookup_insert_ne in Hi by exact Hne. apply I2 in Hi. lia.
  - intros p i Hp'. destruct (decide (canonicalFilePath (src_file g) = p)) as [<-|Hne].
    + rewrite lookup_insert_eq in Hp'. injection Hp' as <-.
      rewrite lookup_insert_eq. eauto.
    + rewrite lookup_insert_ne in Hp' by exact Hne. apply I3 in Hp'.
      destruct (decide (size (games c) = i)) as [<-|Hne'].
      * rewrite lookup_insert_eq. eauto.
      * by rewrite lookup_insert_ne.
  - intros coll l i Hl Hi. pose proof (I4 coll l i Hl Hi) as Hgi.
    destruct (decide (size (games c) = i)) as [<-|Hne'].
    + rewrite lookup_insert_eq. eauto.
    + by rewrite lookup_insert_ne.
Qed.

Lemma store_game_hit `{Host} finfo fields platform emulators coll st id :
  path_to_gameid (sctx st) !! canonicalFilePath finfo = Some id ->
  store_game finfo fields platform emulators coll st
  = Some (id, {| sctx := push_child coll id (sctx st); log := log st |}).
Proof. intros Hhit. unfold store_game. rewrite Hhit. simpl. rewrite Hhit. reflexivity. Qed.

Lemma store_game_miss `{Host} finfo fields platform emulators coll st :
  path_to_gameid (sctx st) !! canonicalFilePath finfo = None ->
  is_Some (emulators !! default_emu_id platform) ->
  exists g,
    store_game_fields (Game_new finfo) fields platform emulators = Some g /\
    src_file g = finfo /\
    store_game finfo fields platform emulators coll st
    = Some (size (games (sctx st)),
            {| sctx := push_child coll (size (games (sctx st)))
                         (add_game (canonicalFilePath finfo) (size (games (sctx st))) g
                            (sctx st));
               log := log st |}).
Proof.
  intros Hmiss [emu Hemu].
  destruct (store_game_fields_in_Some (field_order fields) (Game_new finfo)
              platform emulators emu Hemu) as (ms & _ & Hg).
  fold (store_game_fields (Game_new finfo) fields platform emulators) in Hg.
  eexists. split; [exact Hg|].
  split; [apply (store_game_fields_src_file _ _ _ _ _ Hg)|].
  unfold store_game. rewrite Hmiss, Hg. simpl.
  rewrite emplace_lookup_same, Hmiss. reflexivity.
Qed.

Lemma store_game_total `{Host} finfo fields platform emulators coll st :
  is_Some (emulators !! default_emu_id platform) ->
  is_Some (store_game finfo fields platform emulators coll st).
Proof.
  intros Hemu.
  destruct (path_to_gameid (sctx st) !! canonicalFilePath finfo) as [id|] eqn:Hidx.
  - rewrite (store_game_hit _ _ _ _ _ _ _ Hidx). eauto.
  - destruct (store_game_miss finfo fields platform emulators coll st Hidx Hemu)
      as (g & _ & _ & ->). eauto.
Qed.

Lemma store_game_wf `{Host} finfo fields platform emulators coll st id st' :
  ctx_wf (sctx st) ->
  store_game finfo fields platform emulators coll st = Some (id, st') ->
  ctx_wf (sctx st') /\
  is_Some (games (sctx st') !! id) /\
  (forall i, is_Some (games (sctx st) !! i) -> is_Some (games (sctx st') !! i)).
Proof.
  intros Hwf Hsg.
  destruct (path_to_gameid (sctx st) !! canonicalFilePath finfo) as [i|] eqn:Hidx.
  - rewrite (store_game_hit _ _ _ _ _ _ _ Hidx) in Hsg. injection Hsg as <- <-.
    assert (Hi : is_Some (games (sctx st) !! i)).
    { destruct Hwf as (_ & _ & I3 & _). by apply (I3 _ _ Hidx). }
    simpl. split; [by apply ctx_wf_push_child|]. split; [exact Hi|tauto].
  - assert (Hemu : is_Some (emulators !! default_emu_id platform)).
    { unfold store_game, store_game_fields, store_game_fields_in in Hsg.
      rewrite Hidx in Hsg.
      destruct (emulators !! default_emu_id platform); [eauto|discriminate]. }
    destruct (store_game_miss finfo fields platform emulators coll st Hidx Hemu)
      as (g & _ & Hsrc & Heq).
    rewrite Heq in Hsg. injection Hsg as <- <-. simpl.
    rewrite <- Hsrc in *.
    destruct (ctx_wf_add_game (sctx st) g Hwf Hidx) as (Hwf' & Hgs & _).
    assert (Hnew : is_Some (games (add_game (canonicalFilePath (src_file g))
                                     (size (games (sctx st))) g (sctx st))
                            !! size (games (sctx st)))).
    { rewrite Hgs, lookup_insert_eq. eauto. }
    split; [by apply ctx_wf_push_child|]. split; [exact Hnew|].
    intros i Hi.
    change (is_Some (games (add_game (canonicalFilePath (src_file g))
                              (size (games (sctx st))) g (sctx st)) !! i)).
    rewrite Hgs.
    destruct (decide (size (games (sctx st)) = i)) as [<-|Hne].
    + rewrite lookup_insert_eq. eauto.
    + by rewrite lookup_insert_ne.
Qed.

Lemma gameid_map_ok_emplace k id (gm : gmap string nat) c :
  gameid_map_ok gm c -> is_Some (games c !! id) -> gameid_map_ok (emplace k id gm) c.
Proof.
  intros Hgm Hid k' i Hk. destruct (decide (k = k')) as [->|Hne].
  - rewrite emplace_lookup_same in Hk. injection Hk as <-.
    destruct (gm !! k') as [j|] eqn:E; simpl; [by apply (Hgm k')|exact Hid].
  - rewrite emplace_lookup_ne in Hk by exact Hne. by apply (Hgm k').
Qed.

Lemma platform_xml_read_game_wf `{Host} xmlpath kids lb_dir platform emulators coll
    gm st gm' st' :
  ctx_wf (sctx st) -> gameid_map_ok gm (sctx st) ->
  platform_xml_read_game xmlpath kids lb_dir platform emulators coll gm st
    = Some (gm', st') ->
  ctx_wf (sctx st') /\ gameid_map_ok gm' (sctx st').
Proof.
  intros Hwf Hgm. unfold platform_xml_read_game.
  destruct (read_fields gamefield_map kids !! GameField.ID) as [id|].
  2:{ intros [= <- <-]. split; assumption. }
  destruct (read_fields gamefield_map kids !! GameField.PATH) as [path|].
  2:{ intros [= <- <-]. split; assumption. }
  destruct (exists_ (filePath lb_dir path)); simpl.
  2:{ intros [= <- <-]. split; assumption. }
  destruct (store_game (filePath lb_dir path) (read_fields gamefield_map kids)
              platform emulators coll st) as [[gid st1]|] eqn:Hsg; simpl; [|discriminate].
  intros [= <- <-].
  destruct (store_game_wf _ _ _ _ _ _ _ _ Hwf Hsg) as (Hwf' & Hgid & Hmono).
  split; [exact Hwf'|].
  apply gameid_map_ok_emplace; [|exact Hgid].
  intros k i Hk. apply Hmono. by apply (Hgm k).
Qed.

Lemma platform_xml_read_game_total `{Host} xmlpath kids lb_dir platform emulators coll
    gm st :
  is_Some (emulators !! default_emu_id platform) ->
  is_Some (platform_xml_read_game xmlpath kids lb_dir platform emulators coll gm st).
Proof.
  intros Hemu. unfold platform_xml_read_game.
  destruct (read_fields gamefield_map kids !! GameField.ID) as [id|]; [|eauto].
  destruct (read_fields gamefield_map kids !! GameField.PATH) as [path|]; [|eauto].
  destruct (exists_ (filePath lb_dir path)); simpl; [|eauto].
  destruct (store_game_total (filePath lb_dir path) (read_fields gamefield_map kids)
              platform emulators coll st Hemu) as [[gid st1] ->].
  simpl. eauto.
Qed.

Lemma read_elements_wf `{Host} xmlpath elems lb_dir platform emulators coll aa gm st :
  is_Some (emulators !! default_emu_id platform) ->
  ctx_wf (sctx st) -> gameid_map_ok gm (sctx st) ->
  exists aa' gm' st',
    read_elements xmlpath elems lb_dir platform emulators coll aa gm st
      = Some (aa', gm', st') /\
    ctx_wf (sctx st') /\ gameid_map_ok gm' (sctx st').
Proof.
  intros Hemu. revert aa gm st.
  induction elems as [|e rest IH]; intros aa gm st Hwf Hgm; simpl.
  - eauto 6.
  - destruct (String.eqb (elem_name e) "Game").
    + destruct (platform_xml_read_game_total xmlpath (children e) lb_dir platform
                  emulators coll gm st Hemu) as [[gm1 st1] Hg].
      rewrite Hg. simpl.
      destruct (platform_xml_read_game_wf _ _ _ _ _ _ _ _ _ _ Hwf Hgm Hg) as [Hwf1 Hgm1].
      by apply IH.
    + destruct (String.eqb (elem_name e) "AdditionalApplication"); by apply IH.
Qed.

Lemma is_Some_insert_present {V} (m : gmap nat V) k v i :
  is_Some (m !! k) -> (is_Some (<[k := v]> m !! i) <-> is_Some (m !! i)).
Proof.
  intros Hk. destruct (decide (k = i)) as [<-|Hne].
  - rewrite lookup_insert_eq. split; eauto.
  - by rewrite lookup_insert_ne.
Qed.

Lemma ctx_wf_addiapp `{Host} c can gameid game fs :
  ctx_wf c -> games c !! gameid = Some game ->
  ctx_wf (register_path can gameid (set_game gameid (set_files fs game) c)).
Proof.
  intros (I1 & I2 & I3 & I4) Hgame.
  assert (Hpres : forall i, is_Some (<[gameid := set_files fs game]> (games c) !! i)
                            <-> is_Some (games c !! i)).
  { intros i. apply is_Some_insert_present. eauto. }
  unfold ctx_wf, register_path, set_game. simpl. repeat split.
  - intros i g0 Hi. destruct (decide (gameid = i)) as [<-|Hne].
    + rewrite lookup_insert_eq in Hi. injection Hi as <-. simpl.
      by apply emplace_lookup_keep, I1.
    + rewrite lookup_insert_ne in Hi by exact Hne.
      by apply emplace_lookup_keep, I1.
  - intros i Hi. apply Hpres in Hi.
    rewrite map_size_insert_Some by eauto. by apply I2.
  - intros p i Hp. apply Hpres.
    destruct (decide (can = p)) as [<-|Hne].
    + rewrite emplace_lookup_same in Hp. injection Hp as <-.
      destruct (path_to_gameid c !! can) as [j|] eqn:E; simpl; [by apply (I3 can)|eauto].
    + rewrite emplace_lookup_ne in Hp by exact Hne. by apply (I3 p).
  - intros coll l i Hl Hi. apply Hpres. by apply (I4 coll l).
Qed.

Lemma store_addiapp_wf `{Host} xmlpath lb_dir values gm st :
  ctx_wf (sctx st) -> gameid_map_ok gm (sctx st) ->
  exists st',
    store_addiapp xmlpath lb_dir values gm st = Some st' /\
    ctx_wf (sctx st') /\ gameid_map_ok gm (sctx st').
Proof.
  intros Hwf Hgm. unfold store_addiapp.
  destruct (values !! AdditionalAppField.ID) as [id|]; [|eauto].
  destruct (values !! AdditionalAppField.GAME_ID) as [gid|]; [|eauto].
  destruct (gm !! gid) as [gameid|] eqn:Hgid; [|eauto].
  destruct (values !! AdditionalAppField.PATH) as [path|]; [|eauto].
  destruct (exists_ (filePath lb_dir path)); simpl; [|eauto].
  destruct (Hgm gid gameid Hgid) as [game Hgame]. rewrite Hgame. simpl.
  eexists. split; [reflexivity|]. simpl.
  split; [by apply ctx_wf_addiapp|].
  intros k i Hk. simpl. apply is_Some_insert_present; [eauto|]. by apply (Hgm k).
Qed.

Lemma store_addiapps_wf `{Host} xmlpath lb_dir addiapps gm st :
  ctx_wf (sctx st) -> gameid_map_ok gm (sctx st) ->
  exists st',
    store_addiapps xmlpath lb_dir addiapps gm st = Some st' /\ ctx_wf (sctx st').
Proof.
  revert st. induction addiapps as [|values rest IH]; intros st Hwf Hgm; simpl.
  - eauto.
  - destruct (store_addiapp_wf xmlpath lb_dir values gm st Hwf Hgm)
      as (st1 & -> & Hwf1 & Hgm1).
    simpl. by apply IH.
Qed.

Lemma ctx_wf_open_collection `{Host} coll c :
  ctx_wf c -> ctx_wf (open_collection coll c).
Proof.
  intros (I1 & I2 & I3 & I4). repeat split; simpl; try assumption.
  intros coll' l i Hl Hi. destruct (decide (coll = coll')) as [->|Hne].
  - rewrite emplace_lookup_same in Hl. injection Hl as <-.
    destruct (collection_childs c !! coll') as [l0|] eqn:E; simpl in Hi.
    + by apply (I4 coll' l0).
    + by apply elem_of_nil in Hi.
  - rewrite emplace_lookup_ne in Hl by exact Hne. by apply (I4 coll' l).
Qed.

Lemma process_platform_xml_wf `{Host} lb_dir platform emulators st :
  is_Some (emulators !! default_emu_id platform) ->
  ctx_wf (sctx st) ->
  exists st', process_platform_xml lb_dir platform emulators st = Some st' /\
              ctx_wf (sctx st').
Proof.
  intros Hemu Hwf. unfold process_platform_xml.
  destruct (open_xml (xml_path platform)) as [doc|]; [|eauto].
  unfold platform_xml_read_root.
  destruct (doc_root doc) as [root|]; simpl; [|eauto].
  destruct (String.eqb root "LaunchBox"); simpl; [|eauto].
  destruct (read_elements_wf (doc_file doc) (doc_elements doc) lb_dir platform emulators
              (name platform) [] ∅
              {| sctx := open_collection (name platform) (sctx st); log := log st |} Hemu)
    as (aa & gm & st1 & -> & Hwf1 & Hgm1).
  { by apply ctx_wf_open_collection. }
  { intros k i Hk. by rewrite lookup_empty in Hk. }
  simpl.
  destruct (store_addiapps_wf (doc_file doc) lb_dir aa gm st1 Hwf1 Hgm1) as (st2 & -> & Hwf2).
  simpl. destruct (doc_error doc); eauto.
Qed.

(** The asset matcher keeps the games and the files they were built from. *)
Lemma same_sources_refl (gs : gmap nat Game) : same_sources gs gs.
Proof. intros i. reflexivity. Qed.

Lemma same_sources_trans (gs1 gs2 gs3 : gmap nat Game) :
  same_sources gs1 gs2 -> same_sources gs2 gs3 -> same_sources gs1 gs3.
Proof. intros H12 H23 i. rewrite H23. apply H12. Qed.

Lemma same_sources_is_Some (gs gs' : gmap nat Game) i :
  same_sources gs gs' -> (is_Some (gs' !! i) <-> is_Some (gs !! i)).
Proof. intros Hs. rewrite <- !(fmap_is_Some src_file), (Hs i). reflexivity. Qed.

Lemma same_sources_addFileMaybe (gs : gmap nat Game) id g ty file :
  gs !! id = Some g -> same_sources gs (<[id := addFileMaybe ty file g]> gs).
Proof.
  intros Hg i. destruct (decide (id = i)) as [<-|Hne].
  - rewrite lookup_insert_eq, Hg. unfold addFileMaybe.
    destruct (has_asset ty g); reflexivity.
  - by rewrite lookup_insert_ne.
Qed.

Lemma same_sources_size (gs gs' : gmap nat Game) :
  same_sources gs gs' -> size gs' = size gs.
Proof.
  intros Hs. rewrite <- !size_dom. f_equal. apply set_eq. intros i.
  rewrite !elem_of_dom. by apply same_sources_is_Some.
Qed.

Lemma ctx_wf_same_sources `{Host} c gs' :
  ctx_wf c -> same_sources (games c) gs' ->
  ctx_wf {| games := gs'; path_to_gameid := path_to_gameid c;
            collections := collections c; collection_childs := collection_childs c |}.
Proof.
  intros (I1 & I2 & I3 & I4) Hs. unfold ctx_wf. simpl. repeat split.
  - intros i g' Hi. pose proof (Hs i) as Hsi. rewrite Hi in Hsi. simpl in Hsi.
    destruct (games c !! i) as [g|] eqn:E; simpl in Hsi; [|discriminate].
    injection Hsi as ->. by apply I1.
  - intros i Hi. rewrite (same_sources_size _ _ Hs).
    apply I2. by apply (same_sources_is_Some _ _ i Hs).
  - intros p i Hp. apply (same_sources_is_Some _ _ i Hs). by apply (I3 p).
  - intros coll l i Hl Hi. apply (same_sources_is_Some _ _ i Hs). by apply (I4 coll l).
Qed.

Lemma title_map_ok_same_sources m gs gs' :
  title_map_ok m gs -> same_sources gs gs' -> title_map_ok m gs'.
Proof. intros Hm Hs k i Hk. apply (same_sources_is_Some _ _ i Hs). by apply (Hm k). Qed.

Lemma build_title_map_ok key childs (gs : gmap nat Game) (out : gmap string nat) :
  (forall i, i ∈ childs -> is_Some (gs !! i)) -> title_map_ok out gs ->
  exists m, build_title_map key childs gs out = Some m /\ title_map_ok m gs.
Proof.
  revert out. induction childs as [|id rest IH]; intros out Hch Hout; simpl.
  - eauto.
  - destruct (Hch id) as [g Hg]; [left|]. rewrite Hg. simpl.
    apply IH.
    + intros i Hi. apply Hch. by right.
    + intros k i Hk. destruct (decide (key (title g) = k)) as [<-|Hne].
      * rewrite emplace_lookup_same in Hk. injection Hk as <-.
        destruct (out !! key (title g)) as [j|] eqn:E; simpl; [by apply (Hout _ _ E)|eauto].
      * rewrite emplace_lookup_ne in Hk by exact Hne. by apply (Hout k).
Qed.

Lemma find_assets_loop_ok files_ ty hs (m : gmap string nat) (gs : gmap nat Game) :
  title_map_ok m gs ->
  exists gs', find_assets_loop files_ ty hs m gs = Some gs' /\ same_sources gs gs'.
Proof.
  revert gs. induction files_ as [|file rest IH]; intros gs Hm; simpl.
  - exists gs. split; [reflexivity|apply same_sources_refl].
  - destruct (m !! asset_game_title hs file) as [id|] eqn:Hid; [|by apply IH].
    destruct (Hm _ _ Hid) as [g Hg]. rewrite Hg. simpl.
    pose proof (same_sources_addFileMaybe gs id g ty file Hg) as Hs1.
    destruct (IH (<[id := addFileMaybe ty file g]> gs)) as (gs' & Hgs' & Hs2).
    { by apply title_map_ok_same_sources with gs. }
    exists gs'. split; [exact Hgs'|]. by apply same_sources_trans with (2 := Hs2).
Qed.

Lemma find_videos_loop_ok files_ (m : gmap string nat) (gs : gmap nat Game) :
  title_map_ok m gs ->
  exists gs', find_videos_loop files_ m gs = Some gs' /\ same_sources gs gs'.
Proof.
  revert gs. induction files_ as [|file rest IH]; intros gs Hm; simpl.
  - exists gs. split; [reflexivity|apply same_sources_refl].
  - destruct (video_match m file) as [id|] eqn:Hid; [|by apply IH].
    assert (Hin : is_Some (gs !! id)).
    { unfold video_match in Hid.
      destruct (m !! video_game_title (FileName.completeBaseName file)) as [j|] eqn:E.
      - injection Hid as <-. by apply (Hm _ _ E).
      - by apply (Hm _ _ Hid). }
    destruct Hin as [g Hg]. rewrite Hg. simpl.
    pose proof (same_sources_addFileMaybe gs id g VIDEOS file Hg) as Hs1.
    destruct (IH (<[id := addFileMaybe VIDEOS file g]> gs)) as (gs' & Hgs' & Hs2).
    { by apply title_map_ok_same_sources with gs. }
    exists gs'. split; [exact Hgs'|]. by apply same_sources_trans with (2 := Hs2).
Qed.

Lemma find_image_assets_ok `{Host} root dirs (m : gmap string nat) (gs : gmap nat Game) :
  title_map_ok m gs ->
  exists gs', find_image_assets root dirs m gs = Some gs' /\ same_sources gs gs'.
Proof.
  revert gs. induction dirs as [|[dir ty] rest IH]; intros gs Hm; simpl.
  - exists gs. split; [reflexivity|apply same_sources_refl].
  - unfold find_assets_in.
    destruct (find_assets_loop_ok (dir_files (root +:+ dir)) ty true m gs Hm)
      as (gs1 & -> & Hs1).
    simpl. destruct (IH gs1) as (gs' & Hgs' & Hs2).
    { by apply title_map_ok_same_sources with gs. }
    exists gs'. split; [exact Hgs'|]. by apply same_sources_trans with (2 := Hs2).
Qed.

Lemma find_assets_wf `{Host} lb_dir platform dirs c :
  ctx_wf c -> exists c', find_assets lb_dir platform dirs c = Some c' /\ ctx_wf c'.
Proof.
  intros Hwf. unfold find_assets.
  destruct (collection_childs c !! name platform) as [childs|] eqn:Hch; [|eauto].
  assert (Hchilds : forall i, i ∈ childs -> is_Some (games c !! i)).
  { destruct Hwf as (_ & _ & _ & I4). intros i Hi. by apply (I4 _ _ _ Hch). }
  assert (Hempty : forall gs : gmap nat Game, title_map_ok ∅ gs).
  { intros gs k i Hk. by rewrite lookup_empty in Hk. }
  unfold build_escaped_title_map.
  destruct (build_title_map_ok escape_title childs (games c) ∅ Hchilds (Hempty _))
    as (esc & -> & Hesc).
  simpl.
  destruct (find_image_assets_ok (lb_dir +:+ "Images/" +:+ name platform +:+ "/")
              dirs esc (games c) Hesc) as (gs1 & -> & Hs1).
  simpl. unfold find_assets_in.
  destruct (find_assets_loop_ok
              (dir_files (lb_dir +:+ "Music/" +:+ name platform +:+ "/"))
              MUSIC false esc gs1) as (gs2 & -> & Hs2).
  { by apply title_map_ok_same_sources with (games c). }
  simpl.
  pose proof (same_sources_trans _ _ _ Hs1 Hs2) as Hs12.
  destruct (build_title_map_ok id childs gs2 ∅) as (tm & -> & Htm).
  { intros i Hi. apply (same_sources_is_Some _ _ i Hs12). by apply Hchilds. }
  { apply Hempty. }
  simpl. unfold find_videos_in.
  destruct (find_videos_loop_ok
              (dir_files (lb_dir +:+ "Videos/" +:+ name platform +:+ "/")) tm gs2 Htm)
    as (gs3 & -> & Hs3).
  simpl. eexists. split; [reflexivity|].
  apply ctx_wf_same_sources; [exact Hwf|].
  by apply same_sources_trans with (2 := Hs3).
Qed.

Lemma scan_platforms_wf `{Host} lb_dir ps emulators st :
  Forall (fun p => is_Some (emulators !! default_emu_id p)) ps ->
  ctx_wf (sctx st) ->
  exists st', scan_platforms lb_dir ps emulators st = Some st' /\ ctx_wf (sctx st').
Proof.
  intros Hps. revert st. induction Hps as [|p ps Hp Hps IH]; intros st Hwf; simpl.
  - eauto.
  - destruct (process_platform_xml_wf lb_dir p emulators st Hp Hwf) as (st1 & -> & Hwf1).
    simpl.
    destruct (find_assets_wf lb_dir p assetdir_map (sctx st1) Hwf1) as (c & -> & Hwfc).
    simpl. by apply IH.
Qed.

Lemma read_emulators_xml_platforms `{Host} lb_dir :
  Forall (fun p => is_Some (emus (read_emulators_xml lb_dir).1 !! default_emu_id p))
    (platforms (read_emulators_xml lb_dir).1).
Proof.
  unfold read_emulators_xml.
  destruct (open_xml (lb_dir +:+ "Data/Emulators.xml")) as [doc|]; [|constructor].
  destruct (read_registry lb_dir doc) as [parsed plog].
  rewrite remove_platforms_without_emulator_filter. simpl.
  apply Forall_forall. intros p Hp. by apply list_elem_of_filter in Hp as [Hp _].
Qed.

Lemma findLists_wf `{Host} lb_dir st :
  ctx_wf (sctx st) ->
  exists st', findLists lb_dir st = Some st' /\ ctx_wf (sctx st').
Proof.
  intros Hwf. unfold findLists.
  pose proof (read_emulators_xml_platforms lb_dir) as Hps.
  destruct (read_emulators_xml lb_dir) as [emu_data lg]. simpl in Hps.
  case_bool_decide; [eauto|].
  destruct (platforms emu_data) as [|p ps] eqn:E; [eauto|].
  by apply scan_platforms_wf.
Qed.

Lemma store_addiapp_registers `{Host} xmlpath lb_dir values gm st id gid gameid path game :
  values !! AdditionalAppField.ID = Some id ->
  values !! AdditionalAppField.GAME_ID = Some gid ->
  gm !! gid = Some gameid ->
  values !! AdditionalAppField.PATH = Some path ->
  exists_ (filePath lb_dir path) = true ->
  games (sctx st) !! gameid = Some game ->
  exists st',
    store_addiapp xmlpath lb_dir values gm st = Some st' /\
    path_to_gameid (sctx st') !! canonicalFilePath (filePath lb_dir path)
    = Some (default gameid
              (path_to_gameid (sctx st) !! canonicalFilePath (filePath lb_dir path))).
Proof.
  intros Hid Hgid Hgm Hpath Hex Hgame. unfold store_addiapp.
  rewrite Hid, Hgid, Hgm, Hpath, Hex, Hgame. simpl.
  eexists. split; [reflexivity|]. simpl. apply emplace_lookup_same.
Qed.

(** ** The warning about an empty launch command *)

(** C10: the record that [store_game] builds for a new game has a launch
    command that is not empty, since the command starts with a double quote;
    so a call of [store_game] that returns has printed nothing, the warning
    [NoLaunchCommand] least of all. The call returns whenever the default
    emulator of the platform is in the emulator map, as it is for every
    platform that the registry parser returns. *)
Theorem store_game_launch_cmd_not_empty `{Host} finfo fields platform emulators coll st :
  (forall g,
     store_game_fields (Game_new finfo) fields platform emulators = Some g ->
     QStr.isEmpty (launch_cmd g) = false /\
     exists app params,
       launch_cmd g = QStr.dquote +:+ app +:+ QStr.dquote +:+ " " +:+ params
                        +:+ " {file.path}") /\
  (forall id st',
     store_game finfo fields platform emulators coll st = Some (id, st') ->
     log st' = log st) /\
  (is_Some (emulators !! default_emu_id platform) ->
   exists g id st',
     store_game_fields (Game_new finfo) fields platform emulators = Some g /\
     store_game finfo fields platform emulators coll st = Some (id, st')).
Proof.
  split; [|split].
  - intros g Hg.
    destruct (store_game_fields_in_launch_cmd _ _ _ _ _ Hg) as (app & params & Hcmd).
    split; [rewrite Hcmd; apply launch_command_not_empty|].
    exists app, params. exact Hcmd.
  - intros id st' Hsg. by destruct (store_game_frame _ _ _ _ _ _ _ _ Hsg) as [Hlog _].
  - intros [emu Hemu].
    destruct (store_game_fields_in_Some (field_order fields) (Game_new finfo)
                platform emulators emu Hemu) as (ms & _ & Hg).
    destruct (store_game_total finfo fields platform emulators coll st)
      as [[id st'] Hsg]; [eauto|].
    eexists _, id, st'. split; [exact Hg|exact Hsg].
Qed.

Lemma store_game_launch_cmd_not_empty_witness :
  is_Some (Demo.emulators !! default_emu_id Demo.nes) /\
  exists g id st',
    store_game_fields (H := Demo.host) (Game_new (H := Demo.host) "/lb/Games/a.nes")
      {[ GameField.TITLE := "Alpha" ]} Demo.nes Demo.emulators = Some g /\
    store_game (H := Demo.host) "/lb/Games/a.nes" {[ GameField.TITLE := "Alpha" ]}
      Demo.nes Demo.emulators "NES" Demo.start = Some (id, st') /\
    QStr.isEmpty (launch_cmd g) = false /\
    log st' = log Demo.start.
Proof.
  assert (Hemu : is_Some (Demo.emulators !! default_emu_id Demo.nes)).
  { exists Demo.retroarch. vm_compute. reflexivity. }
  split; [exact Hemu|].
  destruct (store_game_launch_cmd_not_empty (H := Demo.host) "/lb/Games/a.nes"
              {[ GameField.TITLE := "Alpha" ]} Demo.nes Demo.emulators "NES" Demo.start)
    as (Hcmd & Hlog & Hret).
  destruct (Hret Hemu) as (g & id & st' & Hg & Hsg).
  exists g, id, st'. split; [exact Hg|]. split; [exact Hsg|].
  split; [exact (proj1 (Hcmd g Hg))|exact (Hlog id st' Hsg)].
Defined.

(** * Further properties of the code *)

(** ** Reading the fields of an element *)

Lemma drop_spaces_split (l : list ascii) :
  exists sp, l = sp ++ QStr.drop_spaces l /\ Forall (fun c => QStr.isSpace c = true) sp.
Proof.
  induction l as [|c l IH]; simpl.
  - exists []. split; [reflexivity|constructor].
  - destruct (QStr.isSpace c) eqn:E.
    + destruct IH as (sp & Hl & Hsp). exists (c :: sp). split.
      * simpl. congruence.
      * by constructor.
    + exists []. split; [reflexivity|constructor].
Qed.

Lemma drop_spaces_head (l : list ascii) : no_leading_space (QStr.drop_spaces l).
Proof.
  induction l as [|c l IH]; simpl; [exact I|].
  destruct (QStr.isSpace c) eqn:E; [exact IH|]. simpl. exact E.
Qed.

Lemma drop_spaces_id (l : list ascii) : no_leading_space l -> QStr.drop_spaces l = l.
Proof. destruct l as [|c l]; simpl; [reflexivity|]. by intros ->. Qed.

Lemma trimmed_chars (s : string) :
  exists b,
    QStr.chars (QStr.trimmed s) = b /\ no_leading_space b /\ no_leading_space (rev b).
Proof.
  unfold QStr.trimmed. rewrite chars_str.
  set (a := QStr.drop_spaces (QStr.chars s)).
  set (b := QStr.drop_spaces (rev a)).
  exists (rev b). split; [reflexivity|]. rewrite rev_involutive.
  split; [|apply drop_spaces_head].
  destruct (drop_spaces_split (rev a)) as (sp & Hsplit & _). fold b in Hsplit.
  assert (Ha : a = rev b ++ rev sp).
  { rewrite <- (rev_involutive a), Hsplit, rev_app_distr. reflexivity. }
  pose proof (drop_spaces_head (QStr.chars s)) as Hhead. fold a in Hhead.
  destruct (rev b) as [|c r]; [exact I|].
  rewrite Ha in Hhead. exact Hhead.
Qed.

Lemma trimmed_idem (s : string) : QStr.trimmed (QStr.trimmed s) = QStr.trimmed s.
Proof.
  destruct (trimmed_chars s) as (b & Hb & Hfront & Hback).
  unfold QStr.trimmed at 1. rewrite Hb.
  rewrite (drop_spaces_id b Hfront), (drop_spaces_id (rev b) Hback), rev_involutive.
  rewrite <- Hb. apply str_chars.
Qed.

Lemma isEmpty_true (s : string) : QStr.isEmpty s = true <-> s = EmptyString.
Proof. destruct s; simpl; split; congruence. Qed.

Section read_fields.
Context `{Countable F} (field_map : gmap string F).

(** One turn of the reading loop. *)
Let read_step (acc : gmap F string) (leaf : XmlLeaf) : gmap F string :=
  match field_map !! tag leaf with
  | None => acc
  | Some f =>
      let contents := QStr.trimmed (text leaf) in
      if QStr.isEmpty contents then acc else emplace f contents acc
  end.

Lemma read_fields_foldl (kids : list XmlLeaf) :
  read_fields field_map kids = foldl read_step ∅ kids.
Proof. reflexivity. Qed.

Lemma read_step_keep acc leaf f v :
  acc !! f = Some v -> read_step acc leaf !! f = Some v.
Proof.
  intros Hv. unfold read_step.
  destruct (field_map !! tag leaf) as [f'|]; [|exact Hv].
  destruct (QStr.isEmpty (QStr.trimmed (text leaf))); [exact Hv|].
  by apply emplace_lookup_keep.
Qed.

Lemma foldl_read_step_keep kids acc f v :
  acc !! f = Some v -> foldl read_step acc kids !! f = Some v.
Proof.
  revert acc. induction kids as [|leaf kids IH]; intros acc Hv; [exact Hv|].
  simpl. apply IH, read_step_keep, Hv.
Qed.

Lemma foldl_read_step_origin kids acc f v :
  foldl read_step acc kids !! f = Some v ->
  acc !! f = Some v \/
  exists leaf, leaf ∈ kids /\ field_map !! tag leaf = Some f /\
               v = QStr.trimmed (text leaf) /\ QStr.isEmpty v = false.
Proof.
  revert acc. induction kids as [|leaf kids IH]; intros acc Hv; [by left|].
  simpl in Hv. destruct (IH _ Hv) as [Hacc|(l & Hl & Hf & Hval & Hne)].
  - unfold read_step in Hacc.
    destruct (field_map !! tag leaf) as [f'|] eqn:Hf'; [|by left].
    destruct (QStr.isEmpty (QStr.trimmed (text leaf))) eqn:Hempty; [by left|].
    destruct (decide (f' = f)) as [->|Hne].
    + rewrite emplace_lookup_same in Hacc.
      destruct (acc !! f) as [w|] eqn:Hw; simpl in Hacc.
      * left. exact Hacc.
      * right. exists leaf. injection Hacc as <-.
        split; [left|]. split; [exact Hf'|]. split; [reflexivity|exact Hempty].
    + left. by rewrite emplace_lookup_ne in Hacc.
  - right. exists l. split; [by right|]. repeat split; assumption.
Qed.

Lemma foldl_read_step_none kids acc f :
  acc !! f = None ->
  (forall l, l ∈ kids -> field_map !! tag l = Some f ->
             QStr.isEmpty (QStr.trimmed (text l)) = true) ->
  foldl read_step acc kids !! f = None.
Proof.
  revert acc. induction kids as [|leaf kids IH]; intros acc Hacc Hkids; [exact Hacc|].
  simpl. apply IH.
  - unfold read_step.
    destruct (field_map !! tag leaf) as [f'|] eqn:Hf'; [|exact Hacc].
    destruct (QStr.isEmpty (QStr.trimmed (text leaf))) eqn:Hempty; [exact Hacc|].
    destruct (decide (f' = f)) as [->|Hne].
    + rewrite (Hkids leaf) in Hempty; [discriminate|left|exact Hf'].
    + by rewrite emplace_lookup_ne.
  - intros l Hl. apply Hkids. by right.
Qed.

(** X1: a value that the reading loop stores for a field is the text of a
    child of the element whose tag is mapped to that field, trimmed; it is
    not empty, and trimming it again changes nothing. *)
Theorem read_fields_value (kids : list XmlLeaf) (f : F) (v : string) :
  read_fields field_map kids !! f = Some v ->
  QStr.isEmpty v = false /\
  QStr.trimmed v = v /\
  exists leaf, leaf ∈ kids /\ field_map !! tag leaf = Some f /\
               v = QStr.trimmed (text leaf).
Proof.
  rewrite read_fields_foldl. intros Hv.
  destruct (foldl_read_step_origin kids ∅ f v Hv) as [Hacc|(l & Hl & Hf & Hval & Hne)].
  - by rewrite lookup_empty in Hacc.
  - split; [exact Hne|]. split; [rewrite Hval; apply trimmed_idem|].
    exists l. repeat split; assumption.
Qed.

(** X2: when several children of an element carry the same field, the first
    one whose trimmed text is not empty gives the value; the later ones are
    ignored. *)
Theorem read_fields_first_wins (before after : list XmlLeaf) (leaf : XmlLeaf) (f : F) :
  field_map !! tag leaf = Some f ->
  QStr.isEmpty (QStr.trimmed (text leaf)) = false ->
  (forall l, l ∈ before -> field_map !! tag l = Some f ->
             QStr.isEmpty (QStr.trimmed (text l)) = true) ->
  read_fields field_map (before ++ leaf :: after) !! f = Some (QStr.trimmed (text leaf)).
Proof.
  intros Hf Hne Hbefore. rewrite read_fields_foldl, foldl_app. simpl.
  apply foldl_read_step_keep.
  unfold read_step at 1. rewrite Hf, Hne.
  rewrite emplace_lookup_same, (foldl_read_step_none before ∅ f); [reflexivity| |exact Hbefore].
  apply lookup_empty.
Qed.

(** A field is absent exactly when no child gives it a non-empty text. *)
Lemma read_fields_absent (kids : list XmlLeaf) (f : F) :
  read_fields field_map kids !! f = None <->
  (forall l, l ∈ kids -> field_map !! tag l = Some f ->
             QStr.isEmpty (QStr.trimmed (text l)) = true).
Proof.
  split.
  - intros Hnone l Hl Hf.
    destruct (QStr.isEmpty (QStr.trimmed (text l))) eqn:Hempty; [reflexivity|].
    apply list_elem_of_split in Hl as (k1 & k2 & ->).
    assert (Hsome : is_Some (read_fields field_map (k1 ++ l :: k2) !! f)).
    { rewrite read_fields_foldl, foldl_app.
      change (foldl read_step (foldl read_step ∅ k1) (l :: k2))
        with (foldl read_step (read_step (foldl read_step ∅ k1) l) k2).
      destruct ((foldl read_step ∅ k1 : gmap F string) !! f) as [w|] eqn:Hw.
      - exists w. apply foldl_read_step_keep, read_step_keep, Hw.
      - exists (QStr.trimmed (text l)). apply foldl_read_step_keep.
        unfold read_step at 1. rewrite Hf, Hempty, emplace_lookup_same, Hw. reflexivity. }
    rewrite Hnone in Hsome. by destruct Hsome.
  - intros Hkids. rewrite read_fields_foldl. apply foldl_read_step_none; [|exact Hkids].
    apply lookup_empty.
Qed.

End read_fields.

Lemma read_fields_value_witness :
  read_fields gamefield_map
    [ Demo.leaf "Title" "  Alpha "; Demo.leaf "Color" "red"; Demo.leaf "Title" "Beta" ]
    !! GameField.TITLE = Some "Alpha" /\
  QStr.isEmpty "Alpha" = false /\
  QStr.trimmed "Alpha" = "Alpha" /\
  exists leaf,
    leaf ∈ [ Demo.leaf "Title" "  Alpha "; Demo.leaf "Color" "red"; Demo.leaf "Title" "Beta" ] /\
    gamefield_map !! tag leaf = Some GameField.TITLE /\
    "Alpha" = QStr.trimmed (text leaf).
Proof.
  assert (Hv : read_fields gamefield_map
                 [ Demo.leaf "Title" "  Alpha "; Demo.leaf "Color" "red";
                   Demo.leaf "Title" "Beta" ] !! GameField.TITLE = Some "Alpha")
    by (vm_compute; reflexivity).
  split; [exact Hv|].
  exact (read_fields_value gamefield_map _ GameField.TITLE "Alpha" Hv).
Defined.

Lemma read_fields_first_wins_witness :
  gamefield_map !! tag (Demo.leaf "Notes" " first ") = Some GameField.NOTES /\
  QStr.isEmpty (QStr.trimmed (text (Demo.leaf "Notes" " first "))) = false /\
  (forall l, l ∈ [ Demo.leaf "Notes" "   "; Demo.leaf "Title" "T" ] ->
             gamefield_map !! tag l = Some GameField.NOTES ->
             QStr.isEmpty (QStr.trimmed (text l)) = true) /\
  read_fields gamefield_map
    ([ Demo.leaf "Notes" "   "; Demo.leaf "Title" "T" ]
     ++ Demo.leaf "Notes" " first " :: [ Demo.leaf "Notes" "second" ])
    !! GameField.NOTES = Some (QStr.trimmed (text (Demo.leaf "Notes" " first "))).
Proof.
  assert (H1 : gamefield_map !! tag (Demo.leaf "Notes" " first ") = Some GameField.NOTES)
    by (vm_compute; reflexivity).
  assert (H2 : QStr.isEmpty (QStr.trimmed (text (Demo.leaf "Notes" " first "))) = false)
    by reflexivity.
  assert (H3 : forall l, l ∈ [ Demo.leaf "Notes" "   "; Demo.leaf "Title" "T" ] ->
                         gamefield_map !! tag l = Some GameField.NOTES ->
                         QStr.isEmpty (QStr.trimmed (text l)) = true).
  { intros l Hl Hf.
    apply elem_of_cons in Hl as [->|Hl]; [reflexivity|].
    apply elem_of_cons in Hl as [->|Hl]; [vm_compute in Hf; discriminate Hf|].
    by apply elem_of_nil in Hl. }
  split; [exact H1|]. split; [exact H2|]. split; [exact H3|].
  exact (read_fields_first_wins gamefield_map _ _ _ GameField.NOTES H1 H2 H3).
Defined.

(** ** Catalogue title index *)

Lemma replace_class_chars (cls : ascii -> bool) (c0 : ascii) (t : string) :
  QStr.chars (QStr.replace_class cls c0 t)
  = map (fun c => if cls c then c0 else c) (QStr.chars t).
Proof. unfold QStr.replace_class. apply chars_str. Qed.

Lemma map_escape_clean (l : list ascii) :
  Forall (fun c => is_invalid_char c = false) l ->
  map (fun c => if is_invalid_char c then "_"%char else c) l = l.
Proof.
  induction 1 as [|c l Hc Hl IH]; simpl; [reflexivity|]. rewrite Hc, IH. reflexivity.
Qed.

Lemma map_escape_Forall (l : list ascii) :
  Forall (fun c => is_invalid_char c = false)
    (map (fun c => if is_invalid_char c then "_"%char else c) l).
Proof.
  induction l as [|c l IH]; simpl; constructor; [|exact IH].
  destruct (is_invalid_char c) eqn:E; [reflexivity|exact E].
Qed.

(** X3: an escaped title holds none of the characters that are replaced, has
    the length of the title, is left as it is by a second escaping, and is
    the title itself when the title holds none of these characters. *)
Theorem escape_title_safe (t : string) :
  Forall (fun c => is_invalid_char c = false) (QStr.chars (escape_title t)) /\
  QStr.size (escape_title t) = QStr.size t /\
  escape_title (escape_title t) = escape_title t /\
  (Forall (fun c => is_invalid_char c = false) (QStr.chars t) -> escape_title t = t).
Proof.
  unfold escape_title. split; [|split; [|split]].
  - rewrite replace_class_chars. apply map_escape_Forall.
  - unfold QStr.size. rewrite replace_class_chars, length_map. reflexivity.
  - unfold QStr.replace_class at 1. rewrite replace_class_chars.
    rewrite map_escape_clean by apply map_escape_Forall. reflexivity.
  - intros Hclean. unfold QStr.replace_class.
    rewrite map_escape_clean by exact Hclean. apply str_chars.
Qed.

Lemma escape_title_safe_witness :
  Forall (fun c => is_invalid_char c = false) (QStr.chars "Metroid Prime") /\
  escape_title "Metroid Prime" = "Metroid Prime" /\
  escape_title "Who? Me: 1/2" = "Who_ Me_ 1_2".
Proof.
  assert (Hclean : Forall (fun c => is_invalid_char c = false) (QStr.chars "Metroid Prime")).
  { repeat (constructor; [vm_compute; reflexivity|]). constructor. }
  split; [exact Hclean|].
  split; [exact (proj2 (proj2 (proj2 (escape_title_safe "Metroid Prime"))) Hclean)|].
  vm_compute. reflexivity.
Defined.

Lemma build_title_map_lookup key childs (gs : gmap nat Game) (out m : gmap string nat) k :
  build_title_map key childs gs out = Some m ->
  m !! k = match out !! k with
           | Some i => Some i
           | None => first_with_title key k childs gs
           end.
Proof.
  revert out. induction childs as [|i rest IH]; intros out; simpl.
  - intros [= <-]. destruct (out !! k); reflexivity.
  - destruct (gs !! i) as [g|] eqn:Hg; simpl; [|discriminate].
    intros Hm. rewrite (IH _ Hm).
    destruct (String.eqb_spec (key (title g)) k) as [<-|Hne].
    + rewrite emplace_lookup_same. destruct (out !! key (title g)); reflexivity.
    + rewrite emplace_lookup_ne by exact Hne. reflexivity.
Qed.

Lemma build_title_map_missing key childs (gs : gmap nat Game) (out : gmap string nat) i :
  i ∈ childs -> gs !! i = None -> build_title_map key childs gs out = None.
Proof.
  revert out. induction childs as [|j rest IH]; intros out Hi Hnone.
  - by apply elem_of_nil in Hi.
  - simpl. apply elem_of_cons in Hi as [->|Hi].
    + rewrite Hnone. reflexivity.
    + destruct (gs !! j); simpl; [by apply IH|reflexivity].
Qed.

(** X4: the title index of a collection maps a key to the first child of the
    collection whose title gives that key: when two games of a collection
    have the same key the earlier one is kept; the index cannot be built when
    a child of the collection is not among the games. *)
Theorem build_title_map_first_wins key childs (gs : gmap nat Game) :
  (forall i, i ∈ childs -> is_Some (gs !! i)) ->
  (exists m,
     build_title_map key childs gs ∅ = Some m /\
     forall k, m !! k = first_with_title key k childs gs) /\
  (forall gs' i, i ∈ childs -> gs' !! i = None ->
                 build_title_map key childs gs' ∅ = None).
Proof.
  intros Hch. split.
  - destruct (build_title_map_ok key childs gs ∅ Hch) as (m & Hm & _).
    { intros k i Hk. by rewrite lookup_empty in Hk. }
    exists m. split; [exact Hm|]. intros k.
    rewrite (build_title_map_lookup _ _ _ _ _ k Hm), lookup_empty. reflexivity.
  - intros gs' i. apply build_title_map_missing.
Qed.

Lemma build_title_map_first_wins_witness :
  (forall i, i ∈ [0%nat; 1%nat] -> is_Some (sample_colliding !! i)) /\
  (exists m,
     build_title_map escape_title [0%nat; 1%nat] sample_colliding ∅ = Some m /\
     forall k, m !! k = first_with_title escape_title k [0%nat; 1%nat] sample_colliding) /\
  first_with_title escape_title "A_B" [0%nat; 1%nat] sample_colliding = Some 0%nat.
Proof.
  assert (Hch : forall i, i ∈ [0%nat; 1%nat] -> is_Some (sample_colliding !! i)).
  { intros i Hi.
    apply elem_of_cons in Hi as [->|Hi]; [eexists; vm_compute; reflexivity|].
    apply elem_of_cons in Hi as [->|Hi]; [eexists; vm_compute; reflexivity|].
    by apply elem_of_nil in Hi. }
  split; [exact Hch|].
  split; [exact (proj1 (build_title_map_first_wins escape_title _ _ Hch))|].
  vm_compute. reflexivity.
Defined.

(** ** What the registry holds *)

Lemma read_emulator_fields_app_path `{Host} lb_dir kids :
  app_path (read_emulator_fields lb_dir kids).1.2 = EmptyString \/
  exists p, app_path (read_emulator_fields lb_dir kids).1.2
            = canonicalFilePath (filePath lb_dir p).
Proof.
  unfold read_emulator_fields.
  apply (foldl_invariant
           (fun acc : string * Emulator * list Diag =>
              app_path acc.1.2 = EmptyString \/
              exists p, app_path acc.1.2 = canonicalFilePath (filePath lb_dir p))).
  - left. reflexivity.
  - intros [[emu_id emu] lg] leaf Hacc. simpl in *.
    repeat case_match; simpl; try assumption; right; eauto.
Qed.

Lemma read_registry_element_complete `{Host} lb_dir acc e :
  (forall id emu, emus acc.1 !! id = Some emu -> emulator_complete lb_dir id emu) /\
  Forall (platform_complete lb_dir) (platforms acc.1) ->
  (forall id emu, emus (read_registry_element lb_dir acc e).1 !! id = Some emu ->
                  emulator_complete lb_dir id emu) /\
  Forall (platform_complete lb_dir) (platforms (read_registry_element lb_dir acc e).1).
Proof.
  destruct acc as [out lg]. simpl. intros [Hemus Hps].
  unfold read_registry_element.
  destruct (String.eqb (elem_name e) "EmulatorPlatform").
  - set (p0 := read_platform_fields (children e)).
    destruct (QStr.isEmpty (name p0)) eqn:Hname; simpl.
    + unfold Platform_incomplete. rewrite Hname, orb_true_r. simpl.
      split; assumption.
    + match goal with |- context [negb (Platform_incomplete ?p)] => set (q := p) end.
      destruct (Platform_incomplete q) eqn:Hq; simpl; [split; assumption|].
      split; [assumption|].
      apply Forall_app. split; [assumption|]. constructor; [|constructor].
      unfold Platform_incomplete in Hq.
      apply orb_false_elim in Hq as [Hq Hxml].
      apply orb_false_elim in Hq as [Hid Hn].
      repeat split; assumption.
  - destruct (String.eqb (elem_name e) "Emulator"); [|split; assumption].
    pose proof (read_emulator_fields_app_path lb_dir (children e)) as Hpath.
    destruct (read_emulator_fields lb_dir (children e)) as [[emu_id emu] lg'].
    simpl in Hpath.
    destruct (QStr.isEmpty emu_id) eqn:Hid; simpl; [split; assumption|].
    destruct (Emulator_incomplete emu) eqn:Hinc; simpl; [split; assumption|].
    split; [|assumption].
    intros id emu' Hlook. destruct (decide (emu_id = id)) as [<-|Hne].
    + rewrite emplace_lookup_same in Hlook. injection Hlook as <-.
      destruct (emus out !! emu_id) as [old|] eqn:Hold; simpl; [by apply Hemus|].
      unfold Emulator_incomplete in Hinc.
      split; [exact Hid|]. split; [exact Hinc|].
      destruct Hpath as [Hempty|Hp]; [|exact Hp].
      rewrite Hempty in Hinc. discriminate.
    + rewrite emplace_lookup_ne in Hlook by exact Hne. by apply Hemus.
Qed.

(** X5: every emulator of the registry that [read_emulators_xml] returns has
    a non-empty id and a non-empty application path, the canonical path of a
    file given relative to the installation; every platform it returns has a
    non-empty emulator reference and name, and a non-empty catalogue path,
    the canonical path of the file named after the platform. *)
Theorem registry_complete `{Host} (lb_dir : string) :
  (forall id emu,
     emus (read_emulators_xml lb_dir).1 !! id = Some emu ->
     emulator_complete lb_dir id emu) /\
  Forall (platform_complete lb_dir) (platforms (read_emulators_xml lb_dir).1).
Proof.
  unfold read_emulators_xml.
  destruct (open_xml (lb_dir +:+ "Data/Emulators.xml")) as [doc|]; simpl.
  2:{ split; [|constructor]. intros id emu Hl. by rewrite lookup_empty in Hl. }
  assert (Hinv : (forall id emu, emus (read_registry lb_dir doc).1 !! id = Some emu ->
                                 emulator_complete lb_dir id emu) /\
                 Forall (platform_complete lb_dir) (platforms (read_registry lb_dir doc).1)).
  { unfold read_registry.
    match goal with |- context [foldl ?f ?a ?l] =>
      pose proof (foldl_invariant
        (fun acc : EmulatorData * list Diag =>
           (forall id emu, emus acc.1 !! id = Some emu -> emulator_complete lb_dir id emu) /\
           Forall (platform_complete lb_dir) (platforms acc.1)) f l a) as Hfold;
      destruct (foldl f a l) as [out lg]
    end.
    simpl in *. apply Hfold.
    - split; [|constructor]. intros id emu Hl. by rewrite lookup_empty in Hl.
    - intros acc e. apply read_registry_element_complete. }
  destruct (read_registry lb_dir doc) as [parsed plog]. simpl in Hinv.
  rewrite remove_platforms_without_emulator_filter. simpl.
  destruct Hinv as [Hemus Hps]. split; [exact Hemus|].
  apply Forall_forall. intros p Hp. apply list_elem_of_filter in Hp as [_ Hp].
  by apply (proj1 (Forall_forall _ _) Hps).
Qed.

Lemma registry_complete_witness :
  emus (read_emulators_xml (H := Demo.host) "/lb/").1 !! "e1" = Some Demo.retroarch /\
  emulator_complete (H := Demo.host) "/lb/" "e1" Demo.retroarch /\
  Forall (platform_complete (H := Demo.host) "/lb/")
    (platforms (read_emulators_xml (H := Demo.host) "/lb/").1).
Proof.
  assert (He : emus (read_emulators_xml (H := Demo.host) "/lb/").1 !! "e1"
               = Some Demo.retroarch) by (vm_compute; reflexivity).
  split; [exact He|].
  split; [exact (proj1 (registry_complete (H := Demo.host) "/lb/") "e1" Demo.retroarch He)|].
  exact (proj2 (registry_complete (H := Demo.host) "/lb/")).
Defined.

(** ** The record built by the field merge *)

Section merge_projection.
Context `{Host} (emulators : gmap string Emulator) {A : Type}.
Variables (proj : MergeState -> A) (k : GameField.t) (upd : string -> A -> A).
Hypothesis proj_other :
  forall st k' v, k' <> k -> proj (merge_field emulators st (k', v)) = proj st.
Hypothesis proj_key :
  forall st v, proj (merge_field emulators st (k, v)) = upd v (proj st).

Lemma foldl_merge_proj_absent l st :
  k ∉ l.*1 -> proj (foldl (merge_field emulators) st l) = proj st.
Proof.
  revert st. induction l as [|[k' w] l IH]; intros st Hnot; [reflexivity|].
  simpl in *. apply not_elem_of_cons in Hnot as [Hk Hl].
  rewrite IH by exact Hl. apply proj_other. congruence.
Qed.

Lemma foldl_merge_proj_present l st v :
  NoDup l.*1 -> (k, v) ∈ l ->
  proj (foldl (merge_field emulators) st l) = upd v (proj st).
Proof.
  revert st. induction l as [|[k' w] l IH]; intros st Hnd Hin.
  - by apply elem_of_nil in Hin.
  - simpl in *. apply NoDup_cons in Hnd as [Hk Hnd].
    apply elem_of_cons in Hin as [Heq|Hin].
    + injection Heq as <- <-. rewrite foldl_merge_proj_absent by exact Hk. apply proj_key.
    + rewrite (IH _ Hnd Hin). f_equal. apply proj_other.
      intros ->. apply Hk. apply list_elem_of_fmap. exists (k, v). split; [reflexivity|exact Hin].
Qed.

Lemma field_order_merge_proj (fields : gmap GameField.t string) st :
  proj (foldl (merge_field emulators) st (field_order fields))
  = match fields !! k with
    | Some v => upd v (proj st)
    | None => proj st
    end.
Proof.
  destruct (fields !! k) as [v|] eqn:Hv.
  - apply foldl_merge_proj_present; [apply field_order_NoDup|by apply field_order_elem].
  - apply foldl_merge_proj_absent.
    intros Hin. apply list_elem_of_fmap in Hin as ([k' v] & Hk & Hin).
    simpl in Hk. subst k'. apply field_order_elem in Hin. congruence.
Qed.

End merge_projection.

Lemma store_game_fields_unfold `{Host} game fields platform emulators g :
  store_game_fields game fields platform emulators = Some g ->
  exists emu st,
    emulators !! default_emu_id platform = Some emu /\
    st = foldl (merge_field emulators)
           {| ms_game := game; emu_app := app_path emu;
              emu_params := if QStr.isEmpty (cmd_params platform)
                            then app_path emu else cmd_params platform |}
           (field_order fields) /\
    g = set_launch_workdir (absolutePath (emu_app st))
          (set_launch_cmd (launch_command (emu_app st) (emu_params st)) (ms_game st)).
Proof.
  unfold store_game_fields, store_game_fields_in.
  destruct (emulators !! default_emu_id platform) as [emu|]; simpl; [|discriminate].
  intros [= <-]. eauto.
Qed.

Ltac case_goal :=
  repeat match goal with
         | |- context [match ?x with _ => _ end] => destruct x eqn:?
         end.

Ltac merge_other :=
  let st := fresh "st" in let k := fresh "k" in let v := fresh "v" in
  let Hk := fresh "Hk" in
  intros st k v Hk; destruct st as [[] ? ?];
  destruct k; try congruence;
  unfold merge_field, on_game, merge_stars; simpl; case_goal; reflexivity.

Lemma rating_merge_stars `{Host} v g g0 :
  rating (merge_stars v g) = rating (merge_stars v (set_rating (rating g) g0)).
Proof. unfold merge_stars. simpl. case_goal; reflexivity. Qed.

(** X6: the record that the field merge leaves takes its title from the
    Title field when there is one; its description from the Notes field when
    the record had none; its release date from the ReleaseDate field when the
    record had no valid one; its rating from the rating field as the STARS
    case decides; it gets the developer and the publisher appended to the
    lists it had, without duplicates. The files, the assets and the file the
    record was built from are left as they were. *)
Theorem store_game_fields_metadata `{Host} game fields platform emulators g :
  store_game_fields game fields platform emulators = Some g ->
  title g = default (title game) (fields !! GameField.TITLE) /\
  description g = match fields !! GameField.NOTES with
                  | Some v => if QStr.isEmpty (description game) then v
                              else description game
                  | None => description game
                  end /\
  developers g = match fields !! GameField.DEVELOPER with
                 | Some v => QStr.removeDuplicates (developers game ++ [v])
                 | None => developers game
                 end /\
  publishers g = match fields !! GameField.PUBLISHER with
                 | Some v => QStr.removeDuplicates (publishers game ++ [v])
                 | None => publishers game
                 end /\
  release_date g = match fields !! GameField.RELEASE, release_date game with
                   | Some v, None => QDate_fromString v
                   | _, d => d
                   end /\
  rating g = match fields !! GameField.STARS with
             | Some v => rating (merge_stars v game)
             | None => rating game
             end /\
  src_file g = src_file game /\ files g = files game /\ assets g = assets game.
Proof.
  intros Hg.
  destruct (store_game_fields_unfold _ _ _ _ _ Hg) as (emu & st & _ & Hst & ->).
  clear Hg. simpl. subst st.
  remember {| ms_game := game; emu_app := app_path emu;
              emu_params := if QStr.isEmpty (cmd_params platform)
                            then app_path emu else cmd_params platform |}
    as st0 eqn:Est0.
  assert (Hgame : ms_game st0 = game) by (subst st0; reflexivity).
  clear Est0. subst game.
  repeat split.
  - rewrite (field_order_merge_proj emulators (fun st => title (ms_game st))
               GameField.TITLE (fun v _ => v)); [|merge_other|reflexivity].
    destruct (fields !! GameField.TITLE); reflexivity.
  - rewrite (field_order_merge_proj emulators (fun st => description (ms_game st))
               GameField.NOTES (fun v d => if QStr.isEmpty d then v else d));
      [reflexivity|merge_other|].
    intros [[] ? ?] v. unfold merge_field, on_game. simpl. case_goal; reflexivity.
  - rewrite (field_order_merge_proj emulators (fun st => developers (ms_game st))
               GameField.DEVELOPER (fun v d => QStr.removeDuplicates (d ++ [v])));
      [reflexivity|merge_other|reflexivity].
  - rewrite (field_order_merge_proj emulators (fun st => publishers (ms_game st))
               GameField.PUBLISHER (fun v d => QStr.removeDuplicates (d ++ [v])));
      [reflexivity|merge_other|reflexivity].
  - rewrite (field_order_merge_proj emulators (fun st => release_date (ms_game st))
               GameField.RELEASE
               (fun v d => match d with Some _ => d | None => QDate_fromString v end));
      [|merge_other|].
    + simpl. destruct (fields !! GameField.RELEASE), (release_date (ms_game st0)); reflexivity.
    + intros [[] ? ?] v. unfold merge_field, on_game. simpl. case_goal; reflexivity.
  - rewrite (field_order_merge_proj emulators (fun st => rating (ms_game st))
               GameField.STARS
               (fun v r => rating (merge_stars v (set_rating r (ms_game st0)))));
      [|merge_other|].
    + simpl. destruct (fields !! GameField.STARS); [|reflexivity].
      symmetry. apply rating_merge_stars.
    + intros st v. unfold merge_field, on_game. simpl. apply rating_merge_stars.
  - apply (foldl_invariant (fun st => src_file (ms_game st) = src_file (ms_game st0)));
      [reflexivity|]. intros st x Hst. by rewrite merge_field_src_file.
  - apply (foldl_invariant (fun st => files (ms_game st) = files (ms_game st0))); [reflexivity|].
    intros [[] ? ?] [k v] Hst. simpl in *. rewrite <- Hst.
    destruct k; unfold merge_field, on_game, merge_stars; simpl;
      case_goal; reflexivity.
  - apply (foldl_invariant (fun st => assets (ms_game st) = assets (ms_game st0))); [reflexivity|].
    intros [[] ? ?] [k v] Hst. simpl in *. rewrite <- Hst.
    destruct k; unfold merge_field, on_game, merge_stars; simpl;
      case_goal; reflexivity.
Qed.

Lemma store_game_fields_metadata_witness :
  sample_game = Some (default (Game_new (H := Demo.host) "/lb/Games/a.nes") sample_game) /\
  title <$> sample_game = Some "Alpha" /\
  description <$> sample_game = Some "A game" /\
  developers <$> sample_game = Some ["Dev"] /\
  (rating <$> sample_game) = Some Demo.f32_0_5 /\
  title (default (Game_new (H := Demo.host) "/lb/Games/a.nes") sample_game)
  = default (title (Game_new (H := Demo.host) "/lb/Games/a.nes"))
      (sample_fields !! GameField.TITLE).
Proof.
  assert (Hg : sample_game
               = Some (default (Game_new (H := Demo.host) "/lb/Games/a.nes") sample_game))
    by (vm_compute; reflexivity).
  split; [exact Hg|].
  do 4 (split; [vm_compute; reflexivity|]).
  exact (proj1 (store_game_fields_metadata (H := Demo.host) (Game_new (H := Demo.host) "/lb/Games/a.nes")
             sample_fields Demo.nes sample_emulators _ Hg)).
Defined.

(** X7: the launch command of the record is the quoted application, the
    parameters and the file placeholder, and its working directory is the
    directory of the application. The application is that of the emulator
    named by the Emulator field of the game when the emulator map has it, and
    that of the default emulator of the platform otherwise; the parameters
    are the CommandLine field of the game when there is one, and those
    computed from the platform otherwise, also when the game names its own
    emulator. *)
Theorem store_game_fields_launch `{Host} game fields platform emulators g :
  store_game_fields game fields platform emulators = Some g ->
  exists emu,
    emulators !! default_emu_id platform = Some emu /\
    let app := match fields !! GameField.EMULATOR with
               | Some id => match emulators !! id with
                            | Some own => app_path own
                            | None => app_path emu
                            end
               | None => app_path emu
               end in
    let params := match fields !! GameField.EMULATOR_PARAMS with
                  | Some v => v
                  | None => if QStr.isEmpty (cmd_params platform)
                            then app_path emu else cmd_params platform
                  end in
    launch_cmd g = launch_command app params /\
    launch_workdir g = absolutePath app.
Proof.
  intros Hg.
  destruct (store_game_fields_unfold _ _ _ _ _ Hg) as (emu & st & Hemu & Hst & ->).
  clear Hg. exists emu. split; [exact Hemu|]. simpl. subst st.
  assert (Happ : forall st0,
            emu_app (foldl (merge_field emulators) st0 (field_order fields))
            = match fields !! GameField.EMULATOR with
              | Some id => match emulators !! id with
                           | Some own => app_path own
                           | None => emu_app st0
                           end
              | None => emu_app st0
              end).
  { intros st0.
    apply (field_order_merge_proj emulators emu_app GameField.EMULATOR
             (fun id a => match emulators !! id with
                          | Some own => app_path own
                          | None => a
                          end)).
    - merge_other.
    - intros st v. unfold merge_field. simpl. destruct (emulators !! v); reflexivity. }
  assert (Hpar : forall st0,
            emu_params (foldl (merge_field emulators) st0 (field_order fields))
            = match fields !! GameField.EMULATOR_PARAMS with
              | Some v => v
              | None => emu_params st0
              end).
  { intros st0.
    apply (field_order_merge_proj emulators emu_params GameField.EMULATOR_PARAMS
             (fun v _ => v)).
    - merge_other.
    - reflexivity. }
  rewrite Happ, Hpar. simpl. split; reflexivity.
Qed.

Lemma store_game_fields_launch_witness :
  sample_game = Some (default (Game_new (H := Demo.host) "/lb/Games/a.nes") sample_game) /\
  launch_cmd <$> sample_game = Some (launch_command "/lb/emu/mame" "-x") /\
  launch_workdir <$> sample_game = Some "/lb/emu" /\
  exists emu,
    sample_emulators !! default_emu_id Demo.nes = Some emu /\
    launch_workdir (default (Game_new (H := Demo.host) "/lb/Games/a.nes") sample_game)
    = absolutePath (Host := Demo.host)
        (match sample_fields !! GameField.EMULATOR with
         | Some id => match sample_emulators !! id with
                      | Some own => app_path own
                      | None => app_path emu
                      end
         | None => app_path emu
         end).
Proof.
  assert (Hg : sample_game
               = Some (default (Game_new (H := Demo.host) "/lb/Games/a.nes") sample_game))
    by (vm_compute; reflexivity).
  split; [exact Hg|].
  do 2 (split; [vm_compute; reflexivity|]).
  destruct (store_game_fields_launch (H := Demo.host) (Game_new (H := Demo.host) "/lb/Games/a.nes")
             sample_fields Demo.nes sample_emulators _ Hg)
    as (emu & Hemu & _ & Hdir).
  exists emu. split; [exact Hemu|exact Hdir].
Defined.

Lemma elem_of_map_iff {A B} (f : A -> B) (l : list A) (y : B) :
  y ∈ map f l <-> exists x, x ∈ l /\ y = f x.
Proof.
  induction l as [|a l IH]; simpl.
  - split; [intros Hy; by apply elem_of_nil in Hy|intros (x & Hx & _); by apply elem_of_nil in Hx].
  - rewrite elem_of_cons, IH. split.
    + intros [->|(x & Hx & ->)]; [exists a; split; [left|reflexivity]|].
      exists x. split; [by right|reflexivity].
    + intros (x & Hx & ->). apply elem_of_cons in Hx as [->|Hx]; [by left|].
      right. exists x. split; [exact Hx|reflexivity].
Qed.

Lemma merge_field_genres_elem `{Host} emulators st k v x :
  x ∈ genres (ms_game (merge_field emulators st (k, v))) <->
  x ∈ genres (ms_game st) \/
  (k = GameField.GENRE /\ x = v) \/
  (k = GameField.PLAYMODE /\
   exists part, part ∈ QStr.split ";"%char v /\ x = QStr.trimmed part).
Proof.
  destruct st as [[] ? ?].
  destruct k; unfold merge_field, on_game, merge_stars; simpl; case_goal; simpl;
    rewrite ?removeDuplicates_elem, ?elem_of_app, ?list_elem_of_singleton,
            ?elem_of_map_iff;
    try (split; [tauto|intros [?|[[Hk ?]|[Hk ?]]]; [assumption|discriminate Hk|discriminate Hk]]).
  - split; [intros [?|?]; [by left|right; right; by split]|].
    intros [?|[[Hk ?]|[_ ?]]]; [by left|discriminate Hk|by right].
  - split; [intros [?|?]; [by left|right; left; by split]|].
    intros [?|[[_ ?]|[Hk ?]]]; [by left|by right|discriminate Hk].
Qed.

Lemma merge_field_genres_NoDup `{Host} emulators st k v :
  NoDup (genres (ms_game st)) \/ k = GameField.GENRE \/ k = GameField.PLAYMODE ->
  NoDup (genres (ms_game (merge_field emulators st (k, v)))).
Proof.
  destruct st as [[] ? ?].
  destruct k; unfold merge_field, on_game, merge_stars; simpl; case_goal; simpl;
    intros [?|[Hk|Hk]]; try assumption; try discriminate Hk;
    apply dedup_from_NoDup.
Qed.

Lemma foldl_merge_genres_elem `{Host} emulators l st x :
  x ∈ genres (ms_game (foldl (merge_field emulators) st l)) <->
  x ∈ genres (ms_game st) \/
  (GameField.GENRE, x) ∈ l \/
  exists v part, (GameField.PLAYMODE, v) ∈ l /\
                 part ∈ QStr.split ";"%char v /\ x = QStr.trimmed part.
Proof.
  revert st. induction l as [|[k v] l IH]; intros st; simpl.
  - split; [tauto|]. intros [?|[Hx|(? & ? & Hx & _)]]; [assumption| |];
      by apply elem_of_nil in Hx.
  - rewrite IH, merge_field_genres_elem. split.
    + intros [[Hx|[[-> ->]|[-> (part & Hp & ->)]]]|[Hx|(w & part & Hw & Hp & ->)]].
      * by left.
      * right. left. left.
      * right. right. exists v, part. split; [left|]. split; [exact Hp|reflexivity].
      * right. left. by right.
      * right. right. exists w, part. split; [by right|]. split; [exact Hp|reflexivity].
    + intros [Hx|[Hx|(w & part & Hw & Hp & ->)]].
      * left. by left.
      * apply elem_of_cons in Hx as [Heq|Hx]; [|right; by left].
        injection Heq as <- <-. left. right. left. split; reflexivity.
      * apply elem_of_cons in Hw as [Heq|Hw].
        -- injection Heq as <- <-. left. right. right. split; [reflexivity|].
           exists part. split; [exact Hp|reflexivity].
        -- right. right. exists w, part. split; [exact Hw|]. split; [exact Hp|reflexivity].
Qed.

Lemma foldl_merge_genres_NoDup `{Host} emulators l st :
  NoDup (genres (ms_game st)) \/
  GameField.GENRE ∈ l.*1 \/ GameField.PLAYMODE ∈ l.*1 ->
  NoDup (genres (ms_game (foldl (merge_field emulators) st l))).
Proof.
  revert st. induction l as [|[k v] l IH]; intros st; simpl.
  - intros [Hnd|[Hin|Hin]]; [exact Hnd| |]; by apply elem_of_nil in Hin.
  - intros Hor. destruct (decide (k = GameField.GENRE)) as [->|Hg].
    { apply IH. left. apply merge_field_genres_NoDup. right. by left. }
    destruct (decide (k = GameField.PLAYMODE)) as [->|Hp].
    { apply IH. left. apply merge_field_genres_NoDup. right. by right. }
    apply IH. destruct Hor as [Hnd|[Hin|Hin]].
    + left. apply merge_field_genres_NoDup. by left.
    + apply elem_of_cons in Hin as [Heq|Hin]; [congruence|]. right. by left.
    + apply elem_of_cons in Hin as [Heq|Hin]; [congruence|]. right. by right.
Qed.

(** X8: the genres of the record are those it had, the Genre field, and the
    parts of the PlayMode field between semicolons, each trimmed; a part that
    is empty or blank, as after a semicolon that ends the field, gives the
    empty genre. The list has no duplicates when the map has a Genre or a
    PlayMode field, or when the list the record had has none. *)
Theorem store_game_fields_genres `{Host} game fields platform emulators g :
  store_game_fields game fields platform emulators = Some g ->
  (forall x,
     x ∈ genres g <->
     x ∈ genres game \/
     fields !! GameField.GENRE = Some x \/
     exists v part, fields !! GameField.PLAYMODE = Some v /\
                    part ∈ QStr.split ";"%char v /\ x = QStr.trimmed part) /\
  (NoDup (genres game) \/ is_Some (fields !! GameField.GENRE) \/
   is_Some (fields !! GameField.PLAYMODE) -> NoDup (genres g)).
Proof.
  intros Hg.
  destruct (store_game_fields_unfold _ _ _ _ _ Hg) as (emu & st & Hemu & Hst & ->).
  clear Hg. simpl. subst st. split.
  - intros x. rewrite foldl_merge_genres_elem. simpl.
    rewrite field_order_elem.
    split; (intros [Hx|[Hx|(v & part & Hv & Hp & ->)]]; [by left|right; by left|]);
      right; right; exists v, part; (split; [|split; [exact Hp|reflexivity]]).
    + by apply field_order_elem.
    + by apply field_order_elem.
  - intros Hor. apply foldl_merge_genres_NoDup. simpl.
    destruct Hor as [Hnd|[[v Hv]|[v Hv]]]; [by left| |].
    + right. left. apply list_elem_of_fmap. exists (GameField.GENRE, v).
      split; [reflexivity|by apply field_order_elem].
    + right. right. apply list_elem_of_fmap. exists (GameField.PLAYMODE, v).
      split; [reflexivity|by apply field_order_elem].
Qed.

Lemma store_game_fields_genres_witness :
  sample_game = Some (default (Game_new (H := Demo.host) "/lb/Games/a.nes") sample_game) /\
  genres <$> sample_game = Some ["Action"; "Co-op"; EmptyString] /\
  is_Some (sample_fields !! GameField.GENRE) /\
  NoDup (genres (default (Game_new (H := Demo.host) "/lb/Games/a.nes") sample_game)).
Proof.
  assert (Hg : sample_game
               = Some (default (Game_new (H := Demo.host) "/lb/Games/a.nes") sample_game))
    by (vm_compute; reflexivity).
  assert (Hgenre : is_Some (sample_fields !! GameField.GENRE))
    by (eexists; vm_compute; reflexivity).
  split; [exact Hg|]. split; [vm_compute; reflexivity|]. split; [exact Hgenre|].
  apply (proj2 (store_game_fields_genres (H := Demo.host) (Game_new (H := Demo.host) "/lb/Games/a.nes")
             sample_fields Demo.nes sample_emulators _ Hg)).
  right. left. exact Hgenre.
Defined.

(** ** What a scan keeps *)

Lemma game_grows_refl (g : Game) : game_grows g g.
Proof. repeat split; reflexivity. Qed.

Lemma game_grows_trans (g1 g2 g3 : Game) :
  game_grows g1 g2 -> game_grows g2 g3 -> game_grows g1 g3.
Proof.
  intros (C1 & F1 & A1) (C2 & F2 & A2).
  repeat split; [congruence|by etrans|by etrans].
Qed.

Lemma ctx_grows_refl (c : SearchContext) : ctx_grows c c.
Proof.
  repeat split; try done.
  - intros i g Hg. exists g. split; [exact Hg|apply game_grows_refl].
  - intros k l Hl. exists l. split; [exact Hl|reflexivity].
Qed.

Lemma ctx_grows_trans (c1 c2 c3 : SearchContext) :
  ctx_grows c1 c2 -> ctx_grows c2 c3 -> ctx_grows c1 c3.
Proof.
  intros (P1 & G1 & C1 & L1) (P2 & G2 & C2 & L2). repeat split.
  - intros p i Hp. by apply P2, P1.
  - intros i g Hg. destruct (G1 _ _ Hg) as (g2 & Hg2 & Hgr2).
    destruct (G2 _ _ Hg2) as (g3 & Hg3 & Hgr3).
    exists g3. split; [exact Hg3|by apply game_grows_trans with g2].
  - intros k v Hk. by apply C2, C1.
  - intros k l Hl. destruct (L1 _ _ Hl) as (l2 & Hl2 & Hp2).
    destruct (L2 _ _ Hl2) as (l3 & Hl3 & Hp3).
    exists l3. split; [exact Hl3|by etrans].
Qed.

Lemma state_grows_refl (st : State) : state_grows st st.
Proof. split; [apply ctx_grows_refl|reflexivity]. Qed.

Lemma state_grows_trans (s1 s2 s3 : State) :
  state_grows s1 s2 -> state_grows s2 s3 -> state_grows s1 s3.
Proof.
  intros [C1 L1] [C2 L2]. split; [by apply ctx_grows_trans with (sctx s2)|by etrans].
Qed.

Lemma state_grows_warn (d : Diag) (st : State) : state_grows st (warn d st).
Proof. split; [apply ctx_grows_refl|]. simpl. by apply prefix_app_r. Qed.

Lemma ctx_grows_push_child coll id c : ctx_grows c (push_child coll id c).
Proof.
  repeat split; simpl; try done.
  - intros i g Hg. exists g. split; [exact Hg|apply game_grows_refl].
  - intros k l Hl. destruct (decide (coll = k)) as [->|Hne].
    + rewrite lookup_insert_eq, Hl. simpl. eexists. split; [reflexivity|].
      by apply prefix_app_r.
    + rewrite lookup_insert_ne by exact Hne. exists l. split; [exact Hl|reflexivity].
Qed.

Lemma ctx_grows_add_game can id g c : ctx_grows c (add_game can id g c).
Proof.
  repeat split; simpl; try done.
  - intros p i Hp. by apply emplace_lookup_keep.
  - intros i g0 Hg. exists g0. split; [by apply emplace_lookup_keep|apply game_grows_refl].
  - intros k l Hl. exists l. split; [exact Hl|reflexivity].
Qed.

Lemma ctx_grows_open_collection coll c : ctx_grows c (open_collection coll c).
Proof.
  repeat split; simpl; try done.
  - intros i g Hg. exists g. split; [exact Hg|apply game_grows_refl].
  - intros k v Hk. by apply emplace_lookup_keep.
  - intros k l Hl. exists l. split; [by apply emplace_lookup_keep|reflexivity].
Qed.

Lemma name_existing_fileinfo `{Host} finfo n l l' :
  name_existing finfo n l = Some l' -> map fileinfo l' = map fileinfo l.
Proof.
  revert l'. induction l as [|gf l IH]; intros l'; simpl; [discriminate|].
  destruct (QFileInfo_eqb (fileinfo gf) finfo).
  - intros [= <-]. simpl. f_equal. destruct n; reflexivity.
  - destruct (name_existing finfo n l) as [l0|]; simpl; [|discriminate].
    intros [= <-]. simpl. f_equal. by apply IH.
Qed.

Lemma ctx_grows_addiapp `{Host} c can gameid game finfo n :
  games c !! gameid = Some game ->
  ctx_grows c
    (register_path can gameid
       (set_game gameid
          (set_files
             (match name_existing finfo n (files game) with
              | Some l => l
              | None => files game ++ [set_name n (GameFile_new finfo)]
              end) game) c)).
Proof.
  intros Hgame. repeat split; simpl; try done.
  - intros p i Hp. by apply emplace_lookup_keep.
  - intros i g Hg. destruct (decide (gameid = i)) as [<-|Hne].
    + rewrite lookup_insert_eq. eexists. split; [reflexivity|].
      rewrite Hgame in Hg. injection Hg as <-.
      split; [destruct game; reflexivity|]. simpl. split; [|reflexivity].
      destruct (name_existing finfo n (files game)) as [l|] eqn:E.
      * rewrite (name_existing_fileinfo _ _ _ _ E). reflexivity.
      * rewrite map_app. by apply prefix_app_r.
    + rewrite lookup_insert_ne by exact Hne. exists g. split; [exact Hg|apply game_grows_refl].
  - intros k l Hl. exists l. split; [exact Hl|reflexivity].
Qed.

Lemma store_game_grows `{Host} finfo fields platform emulators coll st id st' :
  store_game finfo fields platform emulators coll st = Some (id, st') ->
  state_grows st st'.
Proof.
  intros Hsg. destruct (store_game_frame _ _ _ _ _ _ _ _ Hsg) as [Hlog _].
  split; [|rewrite Hlog; reflexivity].
  unfold store_game in Hsg.
  destruct (path_to_gameid (sctx st) !! canonicalFilePath finfo) as [i|] eqn:Hidx;
    simpl in Hsg.
  - rewrite Hidx in Hsg. simpl in Hsg. injection Hsg as <- <-. simpl.
    apply ctx_grows_push_child.
  - destruct (store_game_fields (Game_new finfo) fields platform emulators) as [g|];
      simpl in Hsg; [|discriminate].
    match type of Hsg with
    | context [emplace ?k ?v ?m !! ?k] => destruct (emplace k v m !! k) as [j|]
    end; simpl in Hsg; [|discriminate].
    injection Hsg as <- <-. simpl.
    eapply ctx_grows_trans; [|apply ctx_grows_push_child].
    destruct (QStr.isEmpty (launch_cmd g)); apply ctx_grows_add_game.
Qed.

Lemma platform_xml_read_game_grows `{Host} xmlpath kids lb_dir platform emulators coll
    gm st gm' st' :
  platform_xml_read_game xmlpath kids lb_dir platform emulators coll gm st
    = Some (gm', st') ->
  state_grows st st' /\ (forall k i, gm !! k = Some i -> gm' !! k = Some i).
Proof.
  unfold platform_xml_read_game.
  destruct (read_fields gamefield_map kids !! GameField.ID) as [id|].
  2:{ intros [= <- <-]. split; [apply state_grows_warn|done]. }
  destruct (read_fields gamefield_map kids !! GameField.PATH) as [path|].
  2:{ intros [= <- <-]. split; [apply state_grows_warn|done]. }
  destruct (exists_ (filePath lb_dir path)); simpl.
  2:{ intros [= <- <-]. split; [apply state_grows_warn|done]. }
  destruct (store_game (filePath lb_dir path) (read_fields gamefield_map kids)
              platform emulators coll st) as [[gid st1]|] eqn:Hsg; simpl; [|discriminate].
  intros [= <- <-]. split; [by apply store_game_grows in Hsg|].
  intros k i Hk. by apply emplace_lookup_keep.
Qed.

Lemma read_elements_grows `{Host} xmlpath elems lb_dir platform emulators coll
    aa gm st aa' gm' st' :
  read_elements xmlpath elems lb_dir platform emulators coll aa gm st
    = Some (aa', gm', st') ->
  state_grows st st' /\ (forall k i, gm !! k = Some i -> gm' !! k = Some i).
Proof.
  revert aa gm st. induction elems as [|e rest IH]; intros aa gm st; simpl.
  - intros [= <- <- <-]. split; [apply state_grows_refl|done].
  - destruct (String.eqb (elem_name e) "Game").
    + destruct (platform_xml_read_game xmlpath (children e) lb_dir platform emulators
                  coll gm st) as [[gm1 st1]|] eqn:Hg; simpl; [|discriminate].
      intros Hrest.
      destruct (platform_xml_read_game_grows _ _ _ _ _ _ _ _ _ _ Hg) as [Hs1 Hm1].
      destruct (IH _ _ _ Hrest) as [Hs2 Hm2].
      split; [by apply state_grows_trans with st1|]. intros k i Hk. by apply Hm2, Hm1.
    + destruct (String.eqb (elem_name e) "AdditionalApplication"); apply IH.
Qed.

Lemma store_addiapp_grows `{Host} xmlpath lb_dir values gm st st' :
  store_addiapp xmlpath lb_dir values gm st = Some st' -> state_grows st st'.
Proof.
  unfold store_addiapp.
  destruct (values !! AdditionalAppField.ID) as [id|];
    [|intros [= <-]; apply state_grows_warn].
  destruct (values !! AdditionalAppField.GAME_ID) as [gid|];
    [|intros [= <-]; apply state_grows_warn].
  destruct (gm !! gid) as [gameid|]; [|intros [= <-]; apply state_grows_warn].
  destruct (values !! AdditionalAppField.PATH) as [path|];
    [|intros [= <-]; apply state_grows_warn].
  destruct (exists_ (filePath lb_dir path)); simpl;
    [|intros [= <-]; apply state_grows_warn].
  destruct (games (sctx st) !! gameid) as [game|] eqn:Hgame; simpl; [|discriminate].
  intros [= <-]. split; [|reflexivity]. simpl. by apply ctx_grows_addiapp.
Qed.

Lemma store_addiapps_grows `{Host} xmlpath lb_dir addiapps gm st st' :
  store_addiapps xmlpath lb_dir addiapps gm st = Some st' -> state_grows st st'.
Proof.
  revert st. induction addiapps as [|values rest IH]; intros st; simpl.
  - intros [= <-]. apply state_grows_refl.
  - destruct (store_addiapp xmlpath lb_dir values gm st) as [st1|] eqn:H1; simpl;
      [|discriminate].
    intros Hrest. apply state_grows_trans with st1; [by apply store_addiapp_grows in H1|].
    by apply IH.
Qed.

Lemma process_platform_xml_grows `{Host} lb_dir platform emulators st st' :
  process_platform_xml lb_dir platform emulators st = Some st' -> state_grows st st'.
Proof.
  unfold process_platform_xml.
  destruct (open_xml (xml_path platform)) as [doc|];
    [|intros [= <-]; apply state_grows_warn].
  destruct (platform_xml_read_root doc lb_dir platform emulators st) as [[err st1]|] eqn:Hroot;
    simpl; [|discriminate].
  intros [= <-].
  assert (Hst1 : state_grows st st1).
  { unfold platform_xml_read_root in Hroot.
    destruct (doc_root doc) as [root|]; [|injection Hroot as <- <-; apply state_grows_refl].
    destruct (String.eqb root "LaunchBox"); simpl in Hroot;
      [|injection Hroot as <- <-; apply state_grows_refl].
    match type of Hroot with
    | context [read_elements ?a ?b ?c ?d ?e ?f ?g ?h ?i] =>
        destruct (read_elements a b c d e f g h i) as [[[aa gm] st2]|] eqn:Hre
    end; simpl in Hroot; [|discriminate].
    destruct (store_addiapps (doc_file doc) lb_dir aa gm st2) as [st3|] eqn:Haa;
      simpl in Hroot; [|discriminate].
    injection Hroot as <- <-.
    apply read_elements_grows in Hre as [Hre _]. apply store_addiapps_grows in Haa.
    eapply state_grows_trans; [|eapply state_grows_trans; [exact Hre|exact Haa]].
    split; [apply ctx_grows_open_collection|reflexivity]. }
  destruct err; [|exact Hst1].
  eapply state_grows_trans; [exact Hst1|apply state_grows_warn].
Qed.

Lemma assets_appended_refl (g : Game) : assets_appended g g.
Proof. exists []. rewrite app_nil_r. by destruct g. Qed.

Lemma assets_appended_trans (g1 g2 g3 : Game) :
  assets_appended g1 g2 -> assets_appended g2 g3 -> assets_appended g1 g3.
Proof.
  intros [e1 ->] [e2 ->]. exists (e1 ++ e2). destruct g1. unfold set_assets. simpl.
  by rewrite app_assoc.
Qed.

Lemma assets_appended_grows (g g' : Game) : assets_appended g g' -> game_grows g g'.
Proof.
  intros [extra ->]. destruct g. repeat split; simpl; [reflexivity|].
  by apply prefix_app_r.
Qed.

Lemma games_assets_appended_refl (gs : gmap nat Game) : games_assets_appended gs gs.
Proof. intros i. destruct (gs !! i); [apply assets_appended_refl|exact I]. Qed.

Lemma games_assets_appended_trans (gs1 gs2 gs3 : gmap nat Game) :
  games_assets_appended gs1 gs2 -> games_assets_appended gs2 gs3 ->
  games_assets_appended gs1 gs3.
Proof.
  intros H12 H23 i. specialize (H12 i). specialize (H23 i).
  destruct (gs1 !! i), (gs2 !! i), (gs3 !! i); try done.
  by apply assets_appended_trans with g0.
Qed.

Lemma games_assets_appended_insert (gs : gmap nat Game) id g ty file :
  gs !! id = Some g ->
  games_assets_appended gs (<[id := addFileMaybe ty file g]> gs).
Proof.
  intros Hg i. destruct (decide (id = i)) as [<-|Hne].
  - rewrite lookup_insert_eq, Hg. unfold addFileMaybe.
    destruct (has_asset ty g); [apply assets_appended_refl|by exists [(ty, file)]].
  - rewrite lookup_insert_ne by exact Hne.
    destruct (gs !! i); [apply assets_appended_refl|exact I].
Qed.

Lemma find_assets_loop_appends files_ ty hs (m : gmap string nat) (gs gs' : gmap nat Game) :
  find_assets_loop files_ ty hs m gs = Some gs' -> games_assets_appended gs gs'.
Proof.
  revert gs. induction files_ as [|file rest IH]; intros gs; simpl.
  - intros [= <-]. apply games_assets_appended_refl.
  - destruct (m !! asset_game_title hs file) as [id|]; [|apply IH].
    destruct (gs !! id) as [g|] eqn:Hg; simpl; [|discriminate].
    intros Hrest. eapply games_assets_appended_trans; [|apply (IH _ Hrest)].
    by apply games_assets_appended_insert.
Qed.

Lemma find_videos_loop_appends files_ (m : gmap string nat) (gs gs' : gmap nat Game) :
  find_videos_loop files_ m gs = Some gs' -> games_assets_appended gs gs'.
Proof.
  revert gs. induction files_ as [|file rest IH]; intros gs; simpl.
  - intros [= <-]. apply games_assets_appended_refl.
  - destruct (video_match m file) as [id|]; [|apply IH].
    destruct (gs !! id) as [g|] eqn:Hg; simpl; [|discriminate].
    intros Hrest. eapply games_assets_appended_trans; [|apply (IH _ Hrest)].
    by apply games_assets_appended_insert.
Qed.

Lemma find_image_assets_appends `{Host} root dirs (m : gmap string nat)
    (gs gs' : gmap nat Game) :
  find_image_assets root dirs m gs = Some gs' -> games_assets_appended gs gs'.
Proof.
  revert gs. induction dirs as [|[dir ty] rest IH]; intros gs; simpl.
  - intros [= <-]. apply games_assets_appended_refl.
  - destruct (find_assets_in (root +:+ dir) ty true m gs) as [gs1|] eqn:H1; simpl;
      [|discriminate].
    intros Hrest. eapply games_assets_appended_trans; [|apply (IH _ Hrest)].
    by apply find_assets_loop_appends in H1.
Qed.

Lemma find_assets_frame `{Host} lb_dir platform dirs c c' :
  find_assets lb_dir platform dirs c = Some c' ->
  path_to_gameid c' = path_to_gameid c /\
  collections c' = collections c /\
  collection_childs c' = collection_childs c /\
  games_assets_appended (games c) (games c').
Proof.
  unfold find_assets.
  destruct (collection_childs c !! name platform) as [childs|].
  2:{ intros [= <-]. repeat split. apply games_assets_appended_refl. }
  destruct (build_escaped_title_map childs (games c)) as [esc|]; simpl; [|discriminate].
  destruct (find_image_assets _ dirs esc (games c)) as [gs1|] eqn:H1; simpl; [|discriminate].
  destruct (find_assets_in _ MUSIC false esc gs1) as [gs2|] eqn:H2; simpl; [|discriminate].
  destruct (build_title_map id childs gs2 ∅) as [tm|]; simpl; [|discriminate].
  destruct (find_videos_in _ tm gs2) as [gs3|] eqn:H3; simpl; [|discriminate].
  intros [= <-]. simpl. repeat split.
  apply find_image_assets_appends in H1.
  apply find_assets_loop_appends in H2. apply find_videos_loop_appends in H3.
  eapply games_assets_appended_trans; [exact H1|].
  eapply games_assets_appended_trans; [exact H2|exact H3].
Qed.

(** X9: the asset matcher touches the assets of the games and nothing else:
    after [find_assets] the dedup index, the collections and their children
    are the same, the games are the same ones under the same ids, and each
    game is the game it was with assets added at the end of those it had. *)
Theorem find_assets_appends `{Host} lb_dir platform dirs c c' :
  find_assets lb_dir platform dirs c = Some c' ->
  path_to_gameid c' = path_to_gameid c /\
  collections c' = collections c /\
  collection_childs c' = collection_childs c /\
  games_assets_appended (games c) (games c').
Proof. apply find_assets_frame. Qed.

Lemma find_assets_grows `{Host} lb_dir platform dirs c c' :
  find_assets lb_dir platform dirs c = Some c' -> ctx_grows c c'.
Proof.
  intros Hfa. destruct (find_assets_frame _ _ _ _ _ Hfa) as (Hp & Hc & Hl & Hg).
  repeat split.
  - intros p i. by rewrite Hp.
  - intros i g Hi. specialize (Hg i). rewrite Hi in Hg.
    destruct (games c' !! i) as [g'|]; [|done].
    exists g'. split; [reflexivity|by apply assets_appended_grows].
  - intros k v. by rewrite Hc.
  - intros k l Hk. exists l. rewrite Hl. split; [exact Hk|reflexivity].
Qed.

Lemma scan_platforms_grows `{Host} lb_dir ps emulators st st' :
  scan_platforms lb_dir ps emulators st = Some st' -> state_grows st st'.
Proof.
  revert st. induction ps as [|p ps IH]; intros st; simpl.
  - intros [= <-]. apply state_grows_refl.
  - destruct (process_platform_xml lb_dir p emulators st) as [st1|] eqn:H1; simpl;
      [|discriminate].
    destruct (find_assets lb_dir p assetdir_map (sctx st1)) as [c|] eqn:H2; simpl;
      [|discriminate].
    intros Hrest. apply process_platform_xml_grows in H1. apply find_assets_grows in H2.
    apply IH in Hrest.
    eapply state_grows_trans; [exact H1|].
    eapply state_grows_trans; [|exact Hrest].
    split; [exact H2|reflexivity].
Qed.

(** X10: a scan only adds. Whatever the context [findLists] starts from, the
    context it leaves has every entry of the dedup index under the same game
    id, every collection, every list of children with the same children at
    its head, and every game under its id with the title, the description,
    the lists, the release date, the rating, the launch command and the
    working directory it had. The launch files of such a game are the files
    it had, in their order, followed by the files added since; the display
    name of a file may have changed, since [store_addiapp] names a file that
    it finds. Its assets are the assets it had followed by those added
    since. The log the scan leaves starts with the log it found. *)
Theorem findLists_grows `{Host} lb_dir st st' :
  findLists lb_dir st = Some st' -> state_grows st st'.
Proof.
  unfold findLists. destruct (read_emulators_xml lb_dir) as [emu_data lg].
  set (st0 := {| sctx := sctx st; log := log st ++ lg |}).
  assert (H0 : state_grows st st0).
  { split; [apply ctx_grows_refl|]. simpl. by apply prefix_app_r. }
  case_bool_decide.
  { intros [= <-]. eapply state_grows_trans; [exact H0|apply state_grows_warn]. }
  destruct (platforms emu_data) as [|p ps].
  { intros [= <-]. eapply state_grows_trans; [exact H0|apply state_grows_warn]. }
  intros Hscan. apply scan_platforms_grows in Hscan.
  by apply state_grows_trans with st0.
Qed.

(** ** Every Game element is stored or reported *)

Lemma store_game_result `{Host} finfo fields platform emulators coll st id st' :
  store_game finfo fields platform emulators coll st = Some (id, st') ->
  log st' = log st /\
  children_of coll (sctx st') = children_of coll (sctx st) ++ [id] /\
  path_to_gameid (sctx st') !! canonicalFilePath finfo = Some id.
Proof.
  intros Hsg. destruct (store_game_frame _ _ _ _ _ _ _ _ Hsg) as [Hlog _].
  split; [exact Hlog|]. unfold store_game in Hsg. unfold children_of.
  destruct (path_to_gameid (sctx st) !! canonicalFilePath finfo) as [i|] eqn:Hidx;
    simpl in Hsg.
  - rewrite Hidx in Hsg. simpl in Hsg. injection Hsg as <- <-. simpl.
    rewrite lookup_insert_eq. split; [reflexivity|exact Hidx].
  - destruct (store_game_fields (Game_new finfo) fields platform emulators) as [g|];
      simpl in Hsg; [|discriminate].
    match type of Hsg with
    | context [emplace ?k ?v ?m !! ?k] => destruct (emplace k v m !! k) as [j|] eqn:Hj
    end; simpl in Hsg; [|discriminate].
    injection Hsg as <- <-. simpl. rewrite lookup_insert_eq.
    split; [|exact Hj]. by destruct (QStr.isEmpty (launch_cmd g)).
Qed.

Lemma platform_xml_read_game_count `{Host} xmlpath kids lb_dir platform emulators coll
    gm st gm' st' :
  platform_xml_read_game xmlpath kids lb_dir platform emulators coll gm st
    = Some (gm', st') ->
  (length (children_of coll (sctx st')) + length (log st')
   = length (children_of coll (sctx st)) + length (log st) + 1)%nat.
Proof.
  unfold platform_xml_read_game.
  destruct (read_fields gamefield_map kids !! GameField.ID) as [id|].
  2:{ intros [= <- <-]. simpl. rewrite length_app. simpl. lia. }
  destruct (read_fields gamefield_map kids !! GameField.PATH) as [path|].
  2:{ intros [= <- <-]. simpl. rewrite length_app. simpl. lia. }
  destruct (exists_ (filePath lb_dir path)); simpl.
  2:{ intros [= <- <-]. simpl. rewrite length_app. simpl. lia. }
  destruct (store_game (filePath lb_dir path) (read_fields gamefield_map kids)
              platform emulators coll st) as [[gid st1]|] eqn:Hsg; simpl; [|discriminate].
  intros [= <- <-].
  destruct (store_game_result _ _ _ _ _ _ _ _ Hsg) as (Hlog & Hch & _).
  rewrite Hlog, Hch, length_app. simpl. lia.
Qed.

(** X11: every Game element of a platform file counts once: when the loop
    over the elements ends, the number of children of the collection and the
    number of warnings have grown, together, by the number of Game elements,
    each of which added a child or a warning; the entries put aside have
    grown by the number of AdditionalApplication elements. *)
Theorem read_elements_count `{Host} xmlpath elems lb_dir platform emulators coll
    aa gm st aa' gm' st' :
  read_elements xmlpath elems lb_dir platform emulators coll aa gm st
    = Some (aa', gm', st') ->
  (length (children_of coll (sctx st')) + length (log st')
   = length (children_of coll (sctx st)) + length (log st)
     + length (filter (fun e => elem_name e = "Game") elems))%nat /\
  (length aa'
   = length aa
     + length (filter (fun e => elem_name e = "AdditionalApplication") elems))%nat.
Proof.
  revert aa gm st. induction elems as [|e rest IH]; intros aa gm st.
  - simpl. intros [= <- <- <-]. split; lia.
  - simpl. destruct (String.eqb_spec (elem_name e) "Game") as [Hg|Hg].
    + rewrite filter_cons_True by exact Hg.
      rewrite (filter_cons_False (fun e => elem_name e = "AdditionalApplication"))
        by (rewrite Hg; discriminate).
      destruct (platform_xml_read_game xmlpath (children e) lb_dir platform emulators
                  coll gm st) as [[gm1 st1]|] eqn:Hrg; simpl; [|discriminate].
      intros Hrest. apply platform_xml_read_game_count in Hrg.
      destruct (IH _ _ _ Hrest) as [Hc Ha]. split; [lia|exact Ha].
    + rewrite filter_cons_False by exact Hg.
      destruct (String.eqb_spec (elem_name e) "AdditionalApplication") as [Ha|Ha].
      * rewrite filter_cons_True by exact Ha. intros Hrest.
        destruct (IH _ _ _ Hrest) as [Hc Hl]. rewrite length_app in Hl. simpl in *.
        split; [exact Hc|lia].
      * rewrite filter_cons_False by exact Ha. apply IH.
Qed.

Lemma read_elements_count_witness :
  exists aa' gm' st',
    Demo.after_games = Some (aa', gm', st') /\
    (length (children_of "NES" (sctx st')) + length (log st')
     = length (children_of "NES" (open_collection "NES" empty_context)) + 0
       + length (filter (fun e => elem_name e = "Game") (doc_elements Demo.nes_xml)))%nat /\
    (length aa'
     = 0 + length (filter (fun e => elem_name e = "AdditionalApplication")
                     (doc_elements Demo.nes_xml)))%nat.
Proof.
  destruct Demo.after_games as [[[aa' gm'] st']|] eqn:E.
  - exists aa', gm', st'. split; [reflexivity|].
    exact (read_elements_count (H := Demo.host) _ _ _ _ _ _ _ _ _ _ _ _ E).
  - vm_compute in E. discriminate E.
Defined.

(** ** Local ids *)

(** X12: a Game element that passes the checks binds its ID to the game that
    the dedup index holds for its file, unless the ID is already bound in the
    file: then the ID keeps the game it was first bound to. No other local id
    changes. *)
Theorem platform_xml_read_game_binds `{Host} xmlpath kids lb_dir platform emulators coll
    gm st gm' st' id path :
  read_fields gamefield_map kids !! GameField.ID = Some id ->
  read_fields gamefield_map kids !! GameField.PATH = Some path ->
  exists_ (filePath lb_dir path) = true ->
  platform_xml_read_game xmlpath kids lb_dir platform emulators coll gm st
    = Some (gm', st') ->
  exists gid,
    path_to_gameid (sctx st') !! canonicalFilePath (filePath lb_dir path) = Some gid /\
    gm' !! id = Some (default gid (gm !! id)) /\
    (forall k, k <> id -> gm' !! k = gm !! k) /\
    children_of coll (sctx st') = children_of coll (sctx st) ++ [gid].
Proof.
  intros Hid Hpath Hex. unfold platform_xml_read_game. rewrite Hid, Hpath, Hex. simpl.
  destruct (store_game (filePath lb_dir path) (read_fields gamefield_map kids)
              platform emulators coll st) as [[gid st1]|] eqn:Hsg; simpl; [|discriminate].
  intros [= <- <-].
  destruct (store_game_result _ _ _ _ _ _ _ _ Hsg) as (_ & Hch & Hidx).
  exists gid. split; [exact Hidx|]. split; [apply emplace_lookup_same|].
  split; [|exact Hch]. intros k Hk. by apply emplace_lookup_ne.
Qed.

(** ** Launch files of a game *)

Lemma QFileInfo_eqb_refl `{Host} (a : string) : QFileInfo_eqb a a = true.
Proof. unfold QFileInfo_eqb. by rewrite String.eqb_refl. Qed.

Lemma fileinfo_set_name n gf : fileinfo (set_name n gf) = fileinfo gf.
Proof. by destruct n. Qed.

Lemma set_name_idem n gf : set_name n (set_name n gf) = set_name n gf.
Proof. by destruct n. Qed.

Lemma name_existing_None `{Host} finfo n l :
  name_existing finfo n l = None <->
  Forall (fun gf => QFileInfo_eqb (fileinfo gf) finfo = false) l.
Proof.
  induction l as [|gf l IH]; simpl.
  - split; [constructor|reflexivity].
  - destruct (QFileInfo_eqb (fileinfo gf) finfo) eqn:E.
    + split; [discriminate|]. intros Hall. apply Forall_cons in Hall as [Hgf _]. congruence.
    + rewrite Forall_cons, <- IH.
      destruct (name_existing finfo n l); simpl; split; try done. by intros [_ ?].
Qed.

Lemma name_existing_Some `{Host} finfo n l l' :
  name_existing finfo n l = Some l' ->
  exists l1 gf l2,
    l = l1 ++ gf :: l2 /\
    Forall (fun gf => QFileInfo_eqb (fileinfo gf) finfo = false) l1 /\
    QFileInfo_eqb (fileinfo gf) finfo = true /\
    l' = l1 ++ set_name n gf :: l2.
Proof.
  revert l'. induction l as [|gf l IH]; intros l'; simpl; [discriminate|].
  destruct (QFileInfo_eqb (fileinfo gf) finfo) eqn:E.
  - intros [= <-]. exists [], gf, l. repeat split; [constructor|exact E].
  - destruct (name_existing finfo n l) as [l0|]; simpl; [|discriminate].
    intros [= <-]. destruct (IH l0 eq_refl) as (l1 & gf' & l2 & -> & Hl1 & Hgf & ->).
    exists (gf :: l1), gf', l2. repeat split; [by constructor|exact Hgf].
Qed.

Lemma name_existing_idem `{Host} finfo n l l' :
  name_existing finfo n l = Some l' -> name_existing finfo n l' = Some l'.
Proof.
  revert l'. induction l as [|gf l IH]; intros l'; simpl; [discriminate|].
  destruct (QFileInfo_eqb (fileinfo gf) finfo) eqn:E.
  - intros [= <-]. simpl. rewrite fileinfo_set_name, E, set_name_idem. reflexivity.
  - destruct (name_existing finfo n l) as [l0|]; simpl; [|discriminate].
    intros [= <-]. simpl. rewrite E, (IH l0 eq_refl). reflexivity.
Qed.

Lemma name_existing_appended `{Host} finfo n l :
  name_existing finfo n l = None ->
  name_existing finfo n (l ++ [set_name n (GameFile_new finfo)])
  = Some (l ++ [set_name n (GameFile_new finfo)]).
Proof.
  induction l as [|gf l IH]; simpl.
  - intros _. rewrite fileinfo_set_name. simpl.
    rewrite QFileInfo_eqb_refl, set_name_idem. reflexivity.
  - destruct (QFileInfo_eqb (fileinfo gf) finfo); [discriminate|].
    destruct (name_existing finfo n l); simpl; [discriminate|].
    intros _. rewrite IH by reflexivity. reflexivity.
Qed.

Lemma emplace_idem `{Countable K} {V} (k : K) (v : V) (m : gmap K V) :
  emplace k v (emplace k v m) = emplace k v m.
Proof.
  unfold emplace at 1. rewrite emplace_lookup_same. reflexivity.
Qed.

(** X13: storing an additional application a second time changes nothing:
    the context after the second call of [store_addiapp] with the same entry
    is the context after the first. *)
Theorem store_addiapp_idempotent `{Host} xmlpath lb_dir values gm st st1 :
  store_addiapp xmlpath lb_dir values gm st = Some st1 ->
  exists st2,
    store_addiapp xmlpath lb_dir values gm st1 = Some st2 /\ sctx st2 = sctx st1.
Proof.
  unfold store_addiapp.
  destruct (values !! AdditionalAppField.ID) as [id|];
    [|intros [= <-]; eexists; split; reflexivity].
  destruct (values !! AdditionalAppField.GAME_ID) as [gid|];
    [|intros [= <-]; eexists; split; reflexivity].
  destruct (gm !! gid) as [gameid|]; [|intros [= <-]; eexists; split; reflexivity].
  destruct (values !! AdditionalAppField.PATH) as [path|];
    [|intros [= <-]; eexists; split; reflexivity].
  destruct (exists_ (filePath lb_dir path)); simpl;
    [|intros [= <-]; eexists; split; reflexivity].
  destruct (games (sctx st) !! gameid) as [game|] eqn:Hgame; simpl; [|discriminate].
  intros [= <-]. simpl. rewrite lookup_insert_eq. simpl.
  eexists. split; [reflexivity|]. simpl.
  set (n := values !! AdditionalAppField.NAME).
  set (finfo := filePath lb_dir path).
  assert (Hfiles : match name_existing finfo n
                           (match name_existing finfo n (files game) with
                            | Some l => l
                            | None => files game ++ [set_name n (GameFile_new finfo)]
                            end) with
                   | Some l => l
                   | None => (match name_existing finfo n (files game) with
                              | Some l => l
                              | None => files game ++ [set_name n (GameFile_new finfo)]
                              end) ++ [set_name n (GameFile_new finfo)]
                   end
                   = match name_existing finfo n (files game) with
                     | Some l => l
                     | None => files game ++ [set_name n (GameFile_new finfo)]
                     end).
  { destruct (name_existing finfo n (files game)) as [l|] eqn:E.
    - by rewrite (name_existing_idem _ _ _ _ E).
    - by rewrite (name_existing_appended _ _ _ E). }
  unfold register_path, set_game. simpl. rewrite Hfiles.
  rewrite insert_insert_eq, emplace_idem. f_equal.
Qed.

(** X14: an additional application that passes the checks changes two
    things: the launch files of the game it refers to, and the dedup index.
    When no file of the game is the file of the entry, by path or by
    canonical path, the file is added as the last launch file, under the Name
    of the entry when it has one; otherwise no file is added, and the first
    such file of the game takes the Name of the entry when it has one. The
    canonical path of the file is registered under the id of the game when
    it is not in the index yet, and keeps the id it has otherwise. The other
    fields of the game, the other games, the other entries of the index, the
    collections and their children stay as they were, and the call prints
    nothing. *)
Theorem store_addiapp_attaches `{Host} xmlpath lb_dir values gm st id gid gameid path game :
  values !! AdditionalAppField.ID = Some id ->
  values !! AdditionalAppField.GAME_ID = Some gid ->
  gm !! gid = Some gameid ->
  values !! AdditionalAppField.PATH = Some path ->
  exists_ (filePath lb_dir path) = true ->
  games (sctx st) !! gameid = Some game ->
  exists st' g',
    store_addiapp xmlpath lb_dir values gm st = Some st' /\
    log st' = log st /\
    games (sctx st') !! gameid = Some g' /\
    (forall i, i <> gameid -> games (sctx st') !! i = games (sctx st) !! i) /\
    set_files [] g' = set_files [] game /\
    path_to_gameid (sctx st') !! canonicalFilePath (filePath lb_dir path)
    = Some (default gameid
              (path_to_gameid (sctx st) !! canonicalFilePath (filePath lb_dir path))) /\
    (forall p, p <> canonicalFilePath (filePath lb_dir path) ->
               path_to_gameid (sctx st') !! p = path_to_gameid (sctx st) !! p) /\
    collections (sctx st') = collections (sctx st) /\
    collection_childs (sctx st') = collection_childs (sctx st) /\
    ((Forall (fun gf => QFileInfo_eqb (fileinfo gf) (filePath lb_dir path) = false)
        (files game) /\
      files g' = files game ++ [set_name (values !! AdditionalAppField.NAME)
                                  (GameFile_new (filePath lb_dir path))]) \/
     (exists l1 gf l2,
        files game = l1 ++ gf :: l2 /\
        Forall (fun gf => QFileInfo_eqb (fileinfo gf) (filePath lb_dir path) = false) l1 /\
        QFileInfo_eqb (fileinfo gf) (filePath lb_dir path) = true /\
        files g' = l1 ++ set_name (values !! AdditionalAppField.NAME) gf :: l2)).
Proof.
  intros Hid Hgid Hgm Hpath Hex Hgame. unfold store_addiapp.
  rewrite Hid, Hgid, Hgm, Hpath, Hex, Hgame. simpl.
  do 2 eexists. split; [reflexivity|]. simpl. split; [reflexivity|].
  split; [apply lookup_insert_eq|].
  split; [intros i Hi; by apply lookup_insert_ne|].
  split; [by destruct game|]. simpl.
  split; [apply emplace_lookup_same|].
  split; [intros p Hp; by apply emplace_lookup_ne|].
  split; [reflexivity|]. split; [reflexivity|].
  destruct (name_existing (filePath lb_dir path) (values !! AdditionalAppField.NAME)
              (files game)) as [l|] eqn:E.
  - right. destruct (name_existing_Some _ _ _ _ E) as (l1 & gf & l2 & Hl & Hl1 & Hgf & ->).
    exists l1, gf, l2. repeat split; assumption.
  - left. split; [by apply name_existing_None in E|reflexivity].
Qed.

Lemma store_addiapp_idempotent_witness :
  store_addiapp (H := Demo.host) "/lb/Data/Platforms/NES.xml" "/lb/" Demo.x1_values
    sample_gm sample_st
  = Some (default sample_st
            (store_addiapp (H := Demo.host) "/lb/Data/Platforms/NES.xml" "/lb/"
               Demo.x1_values sample_gm sample_st)) /\
  exists st2,
    store_addiapp (H := Demo.host) "/lb/Data/Platforms/NES.xml" "/lb/" Demo.x1_values
      sample_gm
      (default sample_st
         (store_addiapp (H := Demo.host) "/lb/Data/Platforms/NES.xml" "/lb/"
            Demo.x1_values sample_gm sample_st))
    = Some st2 /\
    sctx st2
    = sctx (default sample_st
              (store_addiapp (H := Demo.host) "/lb/Data/Platforms/NES.xml" "/lb/"
                 Demo.x1_values sample_gm sample_st)).
Proof.
  assert (H1 : store_addiapp (H := Demo.host) "/lb/Data/Platforms/NES.xml" "/lb/"
                 Demo.x1_values sample_gm sample_st
               = Some (default sample_st
                         (store_addiapp (H := Demo.host) "/lb/Data/Platforms/NES.xml"
                            "/lb/" Demo.x1_values sample_gm sample_st)))
    by (vm_compute; reflexivity).
  split; [exact H1|].
  exact (store_addiapp_idempotent (H := Demo.host) _ _ _ _ _ _ H1).
Defined.

Lemma store_addiapp_attaches_witness :
  Demo.x1_values !! AdditionalAppField.ID = Some "x1" /\
  Demo.x1_values !! AdditionalAppField.GAME_ID = Some "g1" /\
  sample_gm !! "g1" = Some 0%nat /\
  Demo.x1_values !! AdditionalAppField.PATH = Some "Games/b.nes" /\
  exists_ (Host := Demo.host) (filePath (Host := Demo.host) "/lb/" "Games/b.nes") = true /\
  games (sctx sample_st) !! 0%nat = Some sample_g0 /\
  exists st' g',
    store_addiapp (H := Demo.host) "/lb/Data/Platforms/NES.xml" "/lb/" Demo.x1_values
      sample_gm sample_st = Some st' /\
    log st' = log sample_st /\
    games (sctx st') !! 0%nat = Some g' /\
    set_files [] g' = set_files [] sample_g0 /\
    path_to_gameid (sctx st')
      !! canonicalFilePath (Host := Demo.host)
           (filePath (Host := Demo.host) "/lb/" "Games/b.nes")
    = Some (default 0%nat
              (path_to_gameid (sctx sample_st)
                 !! canonicalFilePath (Host := Demo.host)
                      (filePath (Host := Demo.host) "/lb/" "Games/b.nes"))) /\
    collection_childs (sctx st') = collection_childs (sctx sample_st).
Proof.
  assert (H1 : Demo.x1_values !! AdditionalAppField.ID = Some "x1")
    by (vm_compute; reflexivity).
  assert (H2 : Demo.x1_values !! AdditionalAppField.GAME_ID = Some "g1")
    by (vm_compute; reflexivity).
  assert (H3 : sample_gm !! "g1" = Some 0%nat) by (vm_compute; reflexivity).
  assert (H4 : Demo.x1_values !! AdditionalAppField.PATH = Some "Games/b.nes")
    by (vm_compute; reflexivity).
  assert (H5 : exists_ (Host := Demo.host)
                 (filePath (Host := Demo.host) "/lb/" "Games/b.nes") = true)
    by (vm_compute; reflexivity).
  assert (H6 : games (sctx sample_st) !! 0%nat = Some sample_g0)
    by (vm_compute; reflexivity).
  do 6 (split; [assumption|]).
  destruct (store_addiapp_attaches (H := Demo.host) "/lb/Data/Platforms/NES.xml" "/lb/"
              Demo.x1_values sample_gm sample_st "x1" "g1" 0%nat "Games/b.nes" sample_g0
              H1 H2 H3 H4 H5 H6)
    as (st' & g' & Hst & Hlog & Hg' & _ & Hcore & Hidx & _ & _ & Hch & _).
  exists st', g'. repeat split; assumption.
Defined.

Lemma platform_xml_read_game_binds_witness :
  read_fields gamefield_map sample_kids !! GameField.ID = Some "g9" /\
  read_fields gamefield_map sample_kids !! GameField.PATH = Some "Games/a.nes" /\
  exists_ (Host := Demo.host) (filePath (Host := Demo.host) "/lb/" "Games/a.nes") = true /\
  sample_read = Some (default (∅, Demo.start) sample_read) /\
  exists gid,
    path_to_gameid (sctx (default (∅, Demo.start) sample_read).2)
      !! canonicalFilePath (Host := Demo.host)
           (filePath (Host := Demo.host) "/lb/" "Games/a.nes") = Some gid /\
    (default (∅, Demo.start) sample_read).1 !! "g9" = Some (default gid (sample_gm !! "g9")).
Proof.
  assert (H1 : read_fields gamefield_map sample_kids !! GameField.ID = Some "g9")
    by (vm_compute; reflexivity).
  assert (H2 : read_fields gamefield_map sample_kids !! GameField.PATH = Some "Games/a.nes")
    by (vm_compute; reflexivity).
  assert (H3 : exists_ (Host := Demo.host)
                 (filePath (Host := Demo.host) "/lb/" "Games/a.nes") = true)
    by (vm_compute; reflexivity).
  assert (H4 : sample_read = Some (default (∅, Demo.start) sample_read))
    by (vm_compute; reflexivity).
  do 4 (split; [assumption|]).
  destruct (platform_xml_read_game_binds (H := Demo.host) "/lb/Data/Platforms/NES.xml"
              sample_kids "/lb/" Demo.nes Demo.emulators "NES" sample_gm sample_st
              (default (∅, Demo.start) sample_read).1
              (default (∅, Demo.start) sample_read).2 "g9" "Games/a.nes" H1 H2 H3)
    as (gid & Hidx & Hgm & _).
  { rewrite <- surjective_pairing. exact H4. }
  exists gid. split; assumption.
Defined.

Lemma findLists_grows_witness :
  exists st1 st2,
    findLists (H := Demo.host) "/lb/" Demo.start = Some st1 /\
    findLists (H := Demo.host) "/lb/" st1 = Some st2 /\
    state_grows st1 st2.
Proof.
  destruct (findLists_wf (H := Demo.host) "/lb/" Demo.start (ctx_wf_empty (H := Demo.host)))
    as (st1 & H1 & Hwf1).
  destruct (findLists_wf (H := Demo.host) "/lb/" st1 Hwf1) as (st2 & H2 & _).
  exists st1, st2. split; [exact H1|]. split; [exact H2|].
  exact (findLists_grows (H := Demo.host) "/lb/" st1 st2 H2).
Defined.

Lemma find_assets_appends_witness :
  sample_assets = Some (default empty_context sample_assets) /\
  (c ← sample_assets; g ← games c !! 0%nat; Some (assets g))
  = Some [ (BOX_FRONT, "/lb/Images/NES/Box - Front/Alpha-01.png") ] /\
  (c ← sample_assets; g ← games c !! 1%nat; Some (assets g))
  = Some [ (MUSIC, "/lb/Music/NES/Beta.mp3"); (VIDEOS, "/lb/Videos/NES/Beta (USA).mp4") ] /\
  path_to_gameid (default empty_context sample_assets) = path_to_gameid sample_ctx /\
  games_assets_appended (games sample_ctx) (games (default empty_context sample_assets)).
Proof.
  assert (Hfa : sample_assets = Some (default empty_context sample_assets))
    by (vm_compute; reflexivity).
  split; [exact Hfa|]. do 2 (split; [vm_compute; reflexivity|]).
  destruct (find_assets_appends (H := sample_host) "/lb/" Demo.nes assetdir_map sample_ctx
              (default empty_context sample_assets) Hfa) as (Hp & _ & _ & Hg).
  split; assumption.
Defined.

(** ** A platform file that cannot be read, and one without games *)

(** X15: when the catalogue of a platform cannot be opened, or has no root
    element or another one than LaunchBox, the platform adds one warning and
    nothing else: the context stays as it was, without a collection for the
    platform. *)
Theorem process_platform_xml_unreadable `{Host} lb_dir platform emulators st :
  open_xml (xml_path platform) = None \/
  (exists doc, open_xml (xml_path platform) = Some doc /\
               doc_root doc <> Some "LaunchBox") ->
  exists d, process_platform_xml lb_dir platform emulators st = Some (warn d st).
Proof.
  unfold process_platform_xml, platform_xml_read_root.
  intros [->|(doc & -> & Hroot)]; [eauto|].
  destruct (doc_root doc) as [root|]; simpl; [|eauto].
  destruct (String.eqb_spec root "LaunchBox") as [->|Hne]; [congruence|].
  simpl. eauto.
Qed.

Lemma process_platform_xml_unreadable_witness :
  (open_xml (Host := Demo.host) (xml_path sample_snes) = None \/
   (exists doc, open_xml (Host := Demo.host) (xml_path sample_snes) = Some doc /\
                doc_root doc <> Some "LaunchBox")) /\
  exists d,
    process_platform_xml (H := Demo.host) "/lb/" sample_snes Demo.emulators Demo.start
    = Some (warn d Demo.start).
Proof.
  assert (Hbad : open_xml (Host := Demo.host) (xml_path sample_snes) = None \/
                 (exists doc, open_xml (Host := Demo.host) (xml_path sample_snes) = Some doc /\
                              doc_root doc <> Some "LaunchBox"))
    by (left; reflexivity).
  split; [exact Hbad|].
  exact (process_platform_xml_unreadable (H := Demo.host) "/lb/" sample_snes
           Demo.emulators Demo.start Hbad).
Defined.

Lemma store_addiapp_collections `{Host} xmlpath lb_dir values gm st st' :
  store_addiapp xmlpath lb_dir values gm st = Some st' ->
  collection_childs (sctx st') = collection_childs (sctx st) /\
  collections (sctx st') = collections (sctx st).
Proof.
  unfold store_addiapp.
  destruct (values !! AdditionalAppField.ID) as [id|]; [|intros [= <-]; by split].
  destruct (values !! AdditionalAppField.GAME_ID) as [gid|]; [|intros [= <-]; by split].
  destruct (gm !! gid) as [gameid|]; [|intros [= <-]; by split].
  destruct (values !! AdditionalAppField.PATH) as [path|]; [|intros [= <-]; by split].
  destruct (exists_ (filePath lb_dir path)); simpl; [|intros [= <-]; by split].
  destruct (games (sctx st) !! gameid) as [game|]; simpl; [|discriminate].
  intros [= <-]. by split.
Qed.

Lemma store_addiapps_collections `{Host} xmlpath lb_dir addiapps gm st st' :
  store_addiapps xmlpath lb_dir addiapps gm st = Some st' ->
  collection_childs (sctx st') = collection_childs (sctx st) /\
  collections (sctx st') = collections (sctx st).
Proof.
  revert st. induction addiapps as [|values rest IH]; intros st; simpl.
  - intros [= <-]. by split.
  - destruct (store_addiapp xmlpath lb_dir values gm st) as [st1|] eqn:H1; simpl;
      [|discriminate].
    intros Hrest. destruct (store_addiapp_collections _ _ _ _ _ _ H1) as [Hc1 Hk1].
    destruct (IH _ Hrest) as [Hc2 Hk2]. split; congruence.
Qed.

(** X16: a catalogue with the root LaunchBox opens the collection of its
    platform, also when it holds no game: after [process_platform_xml] the
    collection is there, under the name it had or under the name of the
    platform, and so is its list of children; when the catalogue has no Game
    element the children are those the collection had, none for a new one. *)
Theorem process_platform_xml_opens_collection `{Host} lb_dir platform emulators st doc st' :
  open_xml (xml_path platform) = Some doc ->
  doc_root doc = Some "LaunchBox" ->
  process_platform_xml lb_dir platform emulators st = Some st' ->
  collections (sctx st') !! name platform
  = Some (default (name platform) (collections (sctx st) !! name platform)) /\
  is_Some (collection_childs (sctx st') !! name platform) /\
  (filter (fun e => elem_name e = "Game") (doc_elements doc) = [] ->
   children_of (name platform) (sctx st') = children_of (name platform) (sctx st)).
Proof.
  intros Hopen Hroot. unfold process_platform_xml. rewrite Hopen.
  unfold platform_xml_read_root. rewrite Hroot. simpl.
  set (st0 := {| sctx := open_collection (name platform) (sctx st); log := log st |}).
  destruct (read_elements (doc_file doc) (doc_elements doc) lb_dir platform emulators
              (name platform) [] ∅ st0) as [[[aa gm] st1]|] eqn:Hre; simpl; [|discriminate].
  destruct (store_addiapps (doc_file doc) lb_dir aa gm st1) as [st2|] eqn:Haa; simpl;
    [|discriminate].
  intros Hst'.
  assert (Hsctx : sctx st' = sctx st2).
  { destruct (doc_error doc); injection Hst' as <-; reflexivity. }
  rewrite Hsctx. clear Hst' Hsctx.
  destruct (store_addiapps_collections _ _ _ _ _ _ Haa) as [Hc2 Hk2].
  rewrite Hc2, Hk2. unfold children_of. rewrite Hc2.
  pose proof (read_elements_grows _ _ _ _ _ _ _ _ _ _ _ _ Hre) as [[(_ & _ & Hk & Hl) _] _].
  split; [|split].
  - apply Hk. simpl. apply emplace_lookup_same.
  - destruct (Hl (name platform)
                (default [] (collection_childs (sctx st) !! name platform)))
      as (l' & Hl' & _); [simpl; apply emplace_lookup_same|eauto].
  - intros Hnone. rewrite read_elements_games_first, Hnone in Hre. simpl in Hre.
    injection Hre as _ _ <-. simpl. rewrite emplace_lookup_same. reflexivity.
Qed.

Lemma process_platform_xml_opens_collection_witness :
  open_xml (Host := Demo.host) (xml_path Demo.nes) = Some Demo.nes_xml /\
  doc_root Demo.nes_xml = Some "LaunchBox" /\
  exists st',
    process_platform_xml (H := Demo.host) "/lb/" Demo.nes Demo.emulators Demo.start
    = Some st' /\
    collections (sctx st') !! name Demo.nes
    = Some (default (name Demo.nes) (collections (sctx Demo.start) !! name Demo.nes)) /\
    is_Some (collection_childs (sctx st') !! name Demo.nes).
Proof.
  assert (Hopen : open_xml (Host := Demo.host) (xml_path Demo.nes) = Some Demo.nes_xml)
    by reflexivity.
  split; [exact Hopen|]. split; [reflexivity|].
  destruct (process_platform_xml (H := Demo.host) "/lb/" Demo.nes Demo.emulators Demo.start)
    as [st'|] eqn:E.
  - exists st'. split; [reflexivity|].
    destruct (process_platform_xml_opens_collection (H := Demo.host) "/lb/" Demo.nes
                Demo.emulators Demo.start Demo.nes_xml st' Hopen eq_refl E)
      as (Hc & Hl & _).
    split; assumption.
  - vm_compute in E. discriminate E.
Defined.

(** ** Fields of a platform of the registry *)

Lemma read_platform_fields_snoc (kids : list XmlLeaf) (leaf : XmlLeaf) :
  read_platform_fields (kids ++ [leaf])
  = let p := read_platform_fields kids in
    if String.eqb (tag leaf) "Emulator" then
      {| default_emu_id := QStr.trimmed (text leaf); name := name p;
         cmd_params := cmd_params p; xml_path := xml_path p |}
    else if String.eqb (tag leaf) "Platform" then
      {| default_emu_id := default_emu_id p; name := QStr.trimmed (text leaf);
         cmd_params := cmd_params p; xml_path := xml_path p |}
    else if String.eqb (tag leaf) "CommandLine" then
      {| default_emu_id := default_emu_id p; name := name p;
         cmd_params := QStr.trimmed (text leaf); xml_path := xml_path p |}
    else p.
Proof. unfold read_platform_fields. rewrite foldl_app. reflexivity. Qed.

Lemma last_text_snoc (t : string) (kids : list XmlLeaf) (leaf : XmlLeaf) :
  last_text t (kids ++ [leaf])
  = if String.eqb (tag leaf) t then Some (text leaf) else last_text t kids.
Proof.
  induction kids as [|l kids IH]; simpl; [reflexivity|].
  rewrite IH. destruct (String.eqb (tag leaf) t); reflexivity.
Qed.

(** X17: in a platform of the registry the last Emulator, Platform and
    CommandLine children give the emulator reference, the name and the
    parameters, trimmed, an empty text included; a field without a child is
    empty. *)
Theorem read_platform_fields_last_wins (kids : list XmlLeaf) :
  default_emu_id (read_platform_fields kids)
  = default EmptyString (QStr.trimmed <$> last_text "Emulator" kids) /\
  name (read_platform_fields kids)
  = default EmptyString (QStr.trimmed <$> last_text "Platform" kids) /\
  cmd_params (read_platform_fields kids)
  = default EmptyString (QStr.trimmed <$> last_text "CommandLine" kids) /\
  xml_path (read_platform_fields kids) = EmptyString.
Proof.
  induction kids as [|leaf kids IH] using rev_ind; [repeat split|].
  destruct IH as (He & Hn & Hc & Hx).
  rewrite read_platform_fields_snoc, !last_text_snoc. simpl.
  destruct (String.eqb (tag leaf) "Emulator") eqn:E1.
  { apply String.eqb_eq in E1. rewrite E1. simpl. repeat split; assumption. }
  destruct (String.eqb (tag leaf) "Platform") eqn:E2.
  { apply String.eqb_eq in E2. rewrite E2. simpl. repeat split; assumption. }
  destruct (String.eqb (tag leaf) "CommandLine") eqn:E3; simpl; repeat split; assumption.
Qed.

(** * The scan as a whole: matcher, references and deduplication *)

(** ** The asset matcher *)

Lemma attached_by_refl J (gs : gmap nat Game) : attached_by J gs gs.
Proof.
  intros i. destruct (gs !! i) as [g|]; [|exact I].
  exists []. split; [rewrite app_nil_r; by destruct g|constructor].
Qed.

Lemma attached_by_trans J (gs1 gs2 gs3 : gmap nat Game) :
  attached_by J gs1 gs2 -> attached_by J gs2 gs3 -> attached_by J gs1 gs3.
Proof.
  intros H12 H23 i. specialize (H12 i). specialize (H23 i).
  destruct (gs1 !! i) as [g1|], (gs2 !! i) as [g2|], (gs3 !! i) as [g3|]; try done.
  destruct H12 as (e1 & -> & J1), H23 as (e2 & -> & J2).
  exists (e1 ++ e2). split.
  - destruct g1. unfold set_assets. simpl. by rewrite app_assoc.
  - by apply Forall_app.
Qed.

Lemma attached_by_mono (J J' : nat -> AssetType -> string -> Prop)
    (gs gs' : gmap nat Game) :
  (forall i ty file, J i ty file -> J' i ty file) ->
  attached_by J gs gs' -> attached_by J' gs gs'.
Proof.
  intros HJ Hgs i. specialize (Hgs i).
  destruct (gs !! i) as [g|], (gs' !! i) as [g'|]; try done.
  destruct Hgs as (extra & -> & Hall). exists extra. split; [reflexivity|].
  eapply Forall_impl; [exact Hall|]. intros [ty file]. apply HJ.
Qed.

Lemma attached_by_insert (J : nat -> AssetType -> string -> Prop)
    (gs : gmap nat Game) id g ty file :
  gs !! id = Some g -> J id ty file ->
  attached_by J gs (<[id := addFileMaybe ty file g]> gs).
Proof.
  intros Hg HJ i. destruct (decide (id = i)) as [<-|Hne].
  - rewrite lookup_insert_eq, Hg. unfold addFileMaybe.
    destruct (has_asset ty g).
    + exists []. split; [rewrite app_nil_r; by destruct g|constructor].
    + exists [(ty, file)]. split; [reflexivity|]. by repeat constructor.
  - rewrite lookup_insert_ne by exact Hne.
    destruct (gs !! i) as [g0|]; [|exact I].
    exists []. split; [rewrite app_nil_r; by destruct g0|constructor].
Qed.

Lemma attached_by_appended J (gs gs' : gmap nat Game) :
  attached_by J gs gs' -> games_assets_appended gs gs'.
Proof.
  intros Hgs i. specialize (Hgs i).
  destruct (gs !! i) as [g|], (gs' !! i) as [g'|]; try done.
  destruct Hgs as (extra & -> & _). by exists extra.
Qed.

Lemma has_asset_addFileMaybe ty file g : has_asset ty (addFileMaybe ty file g) = true.
Proof.
  unfold addFileMaybe. destruct (has_asset ty g) eqn:E; [exact E|].
  unfold has_asset. apply bool_decide_eq_true. simpl.
  rewrite fmap_app. apply elem_of_app. right. simpl. by left.
Qed.

Lemma holds_asset_insert (gs : gmap nat Game) id g ty file :
  holds_asset (<[id := addFileMaybe ty file g]> gs) id ty.
Proof.
  eexists. split; [apply lookup_insert_eq|apply has_asset_addFileMaybe].
Qed.

Lemma holds_asset_appended (gs gs' : gmap nat Game) i ty :
  games_assets_appended gs gs' -> holds_asset gs i ty -> holds_asset gs' i ty.
Proof.
  intros Hgs (g & Hg & Hty). specialize (Hgs i). rewrite Hg in Hgs.
  destruct (gs' !! i) as [g'|] eqn:Hg'; [|done]. destruct Hgs as [extra ->].
  eexists. split; [exact Hg'|].
  unfold has_asset in *. apply bool_decide_eq_true. apply bool_decide_eq_true in Hty.
  simpl. rewrite fmap_app. apply elem_of_app. by left.
Qed.

Lemma first_with_title_appended key k childs (gs gs' : gmap nat Game) :
  games_assets_appended gs gs' ->
  first_with_title key k childs gs' = first_with_title key k childs gs.
Proof.
  intros Hgs. induction childs as [|i rest IH]; simpl; [reflexivity|].
  specialize (Hgs i).
  destruct (gs !! i) as [g|], (gs' !! i) as [g'|]; try done.
  destruct Hgs as [extra ->]. simpl. by rewrite IH.
Qed.

Lemma asset_game_title_cut (file : string) :
  asset_game_title true file = cut_last_three (FileName.completeBaseName file).
Proof.
  unfold asset_game_title, cut_last_three.
  set (b := FileName.completeBaseName file).
  destruct (length (QStr.chars b) <? 3)%nat eqn:E.
  - apply Nat.ltb_lt in E. apply left_whole. unfold QStr.size. lia.
  - apply Nat.ltb_ge in E. unfold QStr.size.
    replace (Z.of_nat (length (QStr.chars b)) - 3)
      with (Z.of_nat (length (QStr.chars b) - 3)) by lia.
    apply left_take. lia.
Qed.

Lemma cut_last_three_app (b : string) (t : list ascii) (c1 c2 c3 : ascii) :
  QStr.chars b = t ++ [c1; c2; c3] -> cut_last_three b = QStr.str t.
Proof.
  intros Hb. unfold cut_last_three. rewrite Hb, length_app. simpl.
  destruct (length t + 3 <? 3)%nat eqn:E; [apply Nat.ltb_lt in E; lia|].
  replace (length t + 3 - 3)%nat with (length t) by lia.
  by rewrite take_app_length.
Qed.

Lemma cut_last_three_short (b : string) :
  (length (QStr.chars b) < 3)%nat -> cut_last_three b = b.
Proof.
  intros Hb. unfold cut_last_three.
  by rewrite (proj2 (Nat.ltb_lt _ _) Hb).
Qed.

(** The loop of [find_assets_in]: what it attaches, and that it attaches. *)
Lemma find_assets_loop_attached files_ ty hs (m : gmap string nat)
    (gs gs' : gmap nat Game) :
  find_assets_loop files_ ty hs m gs = Some gs' ->
  attached_by (fun i ty' file =>
                 ty' = ty /\ file ∈ files_ /\ m !! asset_game_title hs file = Some i)
    gs gs'.
Proof.
  revert gs. induction files_ as [|file rest IH]; intros gs; simpl.
  - intros [= <-]. apply attached_by_refl.
  - assert (Hrest : forall gs0, find_assets_loop rest ty hs m gs0 = Some gs' ->
              attached_by (fun i ty' f =>
                 ty' = ty /\ f ∈ file :: rest /\ m !! asset_game_title hs f = Some i)
                gs0 gs').
    { intros gs0 H0. eapply attached_by_mono; [|apply (IH _ H0)].
      intros i ty' f (? & ? & ?). repeat split; [assumption|by right|assumption]. }
    destruct (m !! asset_game_title hs file) as [id|] eqn:Hid; [|apply Hrest].
    destruct (gs !! id) as [g|] eqn:Hg; simpl; [|discriminate].
    intros H0. eapply attached_by_trans; [|apply (Hrest _ H0)].
    apply attached_by_insert; [exact Hg|]. repeat split; [by left|exact Hid].
Qed.

Lemma find_assets_loop_hit files_ ty hs (m : gmap string nat)
    (gs gs' : gmap nat Game) file i :
  find_assets_loop files_ ty hs m gs = Some gs' ->
  file ∈ files_ -> m !! asset_game_title hs file = Some i ->
  holds_asset gs' i ty.
Proof.
  revert gs. induction files_ as [|f rest IH]; intros gs Hloop Hin Hm.
  - by apply elem_of_nil in Hin.
  - simpl in Hloop. apply elem_of_cons in Hin as [->|Hin].
    + rewrite Hm in Hloop.
      destruct (gs !! i) as [g|] eqn:Hg; simpl in Hloop; [|discriminate].
      apply find_assets_loop_attached, attached_by_appended in Hloop.
      eapply holds_asset_appended; [exact Hloop|apply holds_asset_insert].
    + destruct (m !! asset_game_title hs f) as [id|]; [|by apply (IH gs)].
      destruct (gs !! id) as [g|]; simpl in Hloop; [|discriminate].
      by apply (IH _ Hloop).
Qed.

Lemma find_image_assets_attached `{Host} root dirs (m : gmap string nat)
    (gs gs' : gmap nat Game) :
  find_image_assets root dirs m gs = Some gs' ->
  attached_by (fun i ty file =>
                 exists dir, (dir, ty) ∈ dirs /\ file ∈ dir_files (root +:+ dir) /\
                             m !! asset_game_title true file = Some i)
    gs gs'.
Proof.
  revert gs. induction dirs as [|[dir ty] rest IH]; intros gs; simpl.
  - intros [= <-]. apply attached_by_refl.
  - destruct (find_assets_in (root +:+ dir) ty true m gs) as [gs1|] eqn:H1; simpl;
      [|discriminate].
    intros Hrest. eapply attached_by_trans.
    + eapply attached_by_mono; [|apply (find_assets_loop_attached _ _ _ _ _ _ H1)].
      intros i ty' file (-> & Hf & Hm). exists dir. repeat split; [by left|assumption..].
    + eapply attached_by_mono; [|apply (IH _ Hrest)].
      intros i ty' file (d & Hd & Hf & Hm). exists d. repeat split; [by right|assumption..].
Qed.

Lemma find_image_assets_hit `{Host} root dirs (m : gmap string nat)
    (gs gs' : gmap nat Game) dir ty file i :
  find_image_assets root dirs m gs = Some gs' ->
  (dir, ty) ∈ dirs -> file ∈ dir_files (root +:+ dir) ->
  m !! asset_game_title true file = Some i ->
  holds_asset gs' i ty.
Proof.
  revert gs. induction dirs as [|[d t] rest IH]; intros gs Himg Hin Hf Hm.
  - by apply elem_of_nil in Hin.
  - simpl in Himg.
    destruct (find_assets_in (root +:+ d) t true m gs) as [gs1|] eqn:H1; simpl in Himg;
      [|discriminate].
    apply elem_of_cons in Hin as [[= <- <-]|Hin].
    + apply find_image_assets_attached, attached_by_appended in Himg.
      eapply holds_asset_appended; [exact Himg|].
      by apply (find_assets_loop_hit _ _ _ _ _ _ file i H1).
    + by apply (IH _ Himg).
Qed.

(** The loop of [find_videos_in]. *)
Lemma find_videos_loop_attached files_ (m : gmap string nat) (gs gs' : gmap nat Game) :
  find_videos_loop files_ m gs = Some gs' ->
  attached_by (fun i ty file =>
                 ty = VIDEOS /\ file ∈ files_ /\ video_match m file = Some i)
    gs gs'.
Proof.
  revert gs. induction files_ as [|file rest IH]; intros gs; simpl.
  - intros [= <-]. apply attached_by_refl.
  - assert (Hrest : forall gs0, find_videos_loop rest m gs0 = Some gs' ->
              attached_by (fun i ty f =>
                 ty = VIDEOS /\ f ∈ file :: rest /\ video_match m f = Some i) gs0 gs').
    { intros gs0 H0. eapply attached_by_mono; [|apply (IH _ H0)].
      intros i ty' f (? & ? & ?). repeat split; [assumption|by right|assumption]. }
    destruct (video_match m file) as [id|] eqn:Hid; [|apply Hrest].
    destruct (gs !! id) as [g|] eqn:Hg; simpl; [|discriminate].
    intros H0. eapply attached_by_trans; [|apply (Hrest _ H0)].
    apply attached_by_insert; [exact Hg|]. repeat split; [by left|exact Hid].
Qed.


(** The steps of [find_assets] on a collection that has children. *)
Lemma find_assets_steps `{Host} lb_dir platform dirs c c' childs :
  collection_childs c !! name platform = Some childs ->
  find_assets lb_dir platform dirs c = Some c' ->
  exists esc tm gs1 gs2,
    (forall k, esc !! k = first_with_title escape_title k childs (games c)) /\
    find_image_assets (lb_dir +:+ "Images/" +:+ name platform +:+ "/") dirs esc (games c)
      = Some gs1 /\
    find_assets_in (lb_dir +:+ "Music/" +:+ name platform +:+ "/") MUSIC false esc gs1
      = Some gs2 /\
    (forall k, tm !! k = first_with_title id k childs (games c)) /\
    find_videos_in (lb_dir +:+ "Videos/" +:+ name platform +:+ "/") tm gs2
      = Some (games c').
Proof.
  intros Hch. unfold find_assets. rewrite Hch. unfold build_escaped_title_map.
  destruct (build_title_map escape_title childs (games c) ∅) as [esc|] eqn:Hesc; simpl;
    [|discriminate].
  destruct (find_image_assets _ dirs esc (games c)) as [gs1|] eqn:H1; simpl; [|discriminate].
  destruct (find_assets_in _ MUSIC false esc gs1) as [gs2|] eqn:H2; simpl; [|discriminate].
  destruct (build_title_map id childs gs2 ∅) as [tm|] eqn:Htm; simpl; [|discriminate].
  destruct (find_videos_in _ tm gs2) as [gs3|] eqn:H3; simpl; [|discriminate].
  intros [= <-]. simpl. exists esc, tm, gs1, gs2.
  split; [|split; [exact H1|split; [exact H2|split; [|exact H3]]]].
  - intros k. rewrite (build_title_map_lookup _ _ _ _ _ k Hesc), lookup_empty. reflexivity.
  - intros k. rewrite (build_title_map_lookup _ _ _ _ _ k Htm), lookup_empty.
    apply first_with_title_appended.
    eapply games_assets_appended_trans.
    + apply attached_by_appended with (1 := find_image_assets_attached _ _ _ _ _ H1).
    + apply attached_by_appended with (1 := find_assets_loop_attached _ _ _ _ _ _ H2).
Qed.

Lemma video_match_cases (m : gmap string nat) (index : string -> option nat) file i :
  (forall k, m !! k = index k) ->
  video_match m file = Some i <-> video_title_match index i file.
Proof.
  intros Hm. unfold video_match, video_title_match. rewrite !Hm.
  destruct (index (video_game_title (FileName.completeBaseName file))) as [j|].
  - split; [intros [= <-]; by left|].
    intros [[= <-]|[? _]]; [reflexivity|discriminate].
  - split; [intros Hi; by right|]. intros [?|[_ Hi]]; [discriminate|exact Hi].
Qed.

(** What [find_assets] attaches comes from an image directory, the music
    directory or the video directory of the platform, by the lookup of that
    directory. *)
Lemma find_assets_attached `{Host} lb_dir platform dirs c c' childs :
  collection_childs c !! name platform = Some childs ->
  find_assets lb_dir platform dirs c = Some c' ->
  attached_by
    (fun i ty file =>
       image_match (lb_dir +:+ "Images/" +:+ name platform +:+ "/") dirs
         (fun k => first_with_title escape_title k childs (games c)) i ty file \/
       music_match (lb_dir +:+ "Music/" +:+ name platform +:+ "/")
         (fun k => first_with_title escape_title k childs (games c)) i ty file \/
       (ty = VIDEOS /\
        file ∈ dir_files (lb_dir +:+ "Videos/" +:+ name platform +:+ "/") /\
        video_title_match (fun k => first_with_title id k childs (games c)) i file))
    (games c) (games c').
Proof.
  intros Hch Hfa.
  destruct (find_assets_steps _ _ _ _ _ _ Hch Hfa)
    as (esc & tm & gs1 & gs2 & Hesc & H1 & H2 & Htm & H3).
  eapply attached_by_trans; [|eapply attached_by_trans].
  - eapply attached_by_mono; [|apply (find_image_assets_attached _ _ _ _ _ H1)].
    intros i ty file (dir & Hd & Hf & Hm). left. exists dir.
    rewrite asset_game_title_cut, Hesc in Hm. repeat split; assumption.
  - eapply attached_by_mono; [|apply (find_assets_loop_attached _ _ _ _ _ _ H2)].
    intros i ty file (-> & Hf & Hm). right. left.
    unfold asset_game_title in Hm. rewrite Hesc in Hm. repeat split; assumption.
  - eapply attached_by_mono; [|apply (find_videos_loop_attached _ _ _ _ H3)].
    intros i ty file (-> & Hf & Hm). right. right.
    repeat split; [exact Hf|]. by apply (video_match_cases tm).
Qed.

(** C4, amended: in every image directory of the platform the name looked up
    for a file is its base name without its last three characters, whatever
    they are, and the whole base name when it has fewer than three; in the
    music directory it is the base name as it is; both are looked up in the
    index of the escaped titles of the children of the collection. A file
    whose name is in the index leaves its game with an asset of the type of
    the directory, and no image or piece of music is attached to a game but
    by these lookups. A trailing dash and two digits are cut off, and so are
    the last three characters of a name without such a tag. *)
Theorem asset_lookup_title `{Host} lb_dir platform dirs c c' childs :
  collection_childs c !! name platform = Some childs ->
  find_assets lb_dir platform dirs c = Some c' ->
  let index k := first_with_title escape_title k childs (games c) in
  let images := lb_dir +:+ "Images/" +:+ name platform +:+ "/" in
  let music := lb_dir +:+ "Music/" +:+ name platform +:+ "/" in
  let videos := lb_dir +:+ "Videos/" +:+ name platform +:+ "/" in
  (forall dir ty file i,
     (dir, ty) ∈ dirs -> file ∈ dir_files (images +:+ dir) ->
     index (cut_last_three (FileName.completeBaseName file)) = Some i ->
     holds_asset (games c') i ty) /\
  (forall file i,
     file ∈ dir_files music ->
     index (FileName.completeBaseName file) = Some i ->
     holds_asset (games c') i MUSIC) /\
  attached_by
    (fun i ty file =>
       image_match images dirs index i ty file \/
       music_match music index i ty file \/
       (ty = VIDEOS /\ file ∈ dir_files videos))
    (games c) (games c') /\
  (forall b t c1 c2 c3,
     QStr.chars b = t ++ [c1; c2; c3] -> cut_last_three b = QStr.str t) /\
  (forall b, (length (QStr.chars b) < 3)%nat -> cut_last_three b = b).
Proof.
  intros Hch Hfa index images music videos.
  destruct (find_assets_steps _ _ _ _ _ _ Hch Hfa)
    as (esc & tm & gs1 & gs2 & Hesc & H1 & H2 & Htm & H3).
  pose proof (attached_by_appended _ _ _ (find_assets_loop_attached _ _ _ _ _ _ H2)) as A2.
  pose proof (attached_by_appended _ _ _ (find_videos_loop_attached _ _ _ _ H3)) as A3.
  split; [|split; [|split; [|split]]].
  - intros dir ty file i Hd Hf Hi.
    apply (holds_asset_appended gs2); [exact A3|].
    apply (holds_asset_appended gs1); [exact A2|].
    apply (find_image_assets_hit _ _ _ _ _ dir ty file i H1 Hd Hf).
    rewrite asset_game_title_cut, Hesc. exact Hi.
  - intros file i Hf Hi.
    apply (holds_asset_appended gs2); [exact A3|].
    apply (find_assets_loop_hit _ _ _ _ _ _ file i H2 Hf).
    unfold asset_game_title. rewrite Hesc. exact Hi.
  - eapply attached_by_mono; [|apply (find_assets_attached _ _ _ _ _ _ Hch Hfa)].
    intros i ty file [Him|[Hmu|(Hty & Hf & _)]]; [by left|by right; left|by right; right].
  - apply cut_last_three_app.
  - apply cut_last_three_short.
Qed.

Lemma asset_lookup_title_witness :
  collection_childs matcher_ctx !! name Demo.nes = Some [0; 1; 2; 3]%nat /\
  matcher_result = Some (default empty_context matcher_result) /\
  holds_asset (games (default empty_context matcher_result)) 0 BOX_FRONT /\
  holds_asset (games (default empty_context matcher_result)) 1 BOX_FRONT /\
  holds_asset (games (default empty_context matcher_result)) 0 MUSIC /\
  cut_last_three "Mario-01" = "Mario".
Proof.
  assert (Hch : collection_childs matcher_ctx !! name Demo.nes = Some [0; 1; 2; 3]%nat)
    by (vm_compute; reflexivity).
  assert (Hfa : matcher_result = Some (default empty_context matcher_result))
    by (vm_compute; reflexivity).
  destruct (asset_lookup_title (H := matcher_host) "/lb/" Demo.nes assetdir_map matcher_ctx
              (default empty_context matcher_result) [0; 1; 2; 3]%nat Hch Hfa)
    as (Himg & Hmus & _ & Hcut & _).
  split; [exact Hch|]. split; [exact Hfa|].
  split; [|split; [|split]].
  - apply (Himg "Box - Front" BOX_FRONT "/lb/Images/NES/Box - Front/Mario-01.png").
    + by left.
    + right. by left.
    + vm_compute. reflexivity.
  - apply (Himg "Box - Front" BOX_FRONT "/lb/Images/NES/Box - Front/Mario.png").
    + by left.
    + by left.
    + vm_compute. reflexivity.
  - apply (Hmus "/lb/Music/NES/Mario.mp3").
    + by left.
    + vm_compute. reflexivity.
  - apply (Hcut "Mario-01" (QStr.chars "Mario") "-"%char "0"%char "1"%char). reflexivity.
Defined.

(** C4 as stated fails: the base name [Mario] carries no numeric tag, and the
    file [Mario.png], the first of the directory, does not go to the game
    titled [Mario] but to the one titled [Ma]. *)
Lemma asset_no_tag_counterexample :
  spec_has_numeric_tag
    (FileName.completeBaseName "/lb/Images/NES/Box - Front/Mario.png") = false /\
  (c ← matcher_result; g ← games c !! 0%nat; Some (title g, assets g))
  = Some ("Mario", [ (BOX_FRONT, "/lb/Images/NES/Box - Front/Mario-01.png");
                     (MUSIC, "/lb/Music/NES/Mario.mp3") ]) /\
  (c ← matcher_result; g ← games c !! 1%nat; Some (title g, assets g))
  = Some ("Ma", [ (BOX_FRONT, "/lb/Images/NES/Box - Front/Mario.png") ]).
Proof. vm_compute. repeat split; reflexivity. Qed.

(** ** Videos: the title tried after a miss, and the lookups *)














(** ** Additional applications: the references to the games of the file *)

Lemma platform_xml_read_game_local_id `{Host} xmlpath e lb_dir platform emulators coll
    gm st gm' st' gid :
  elem_name e = "Game" ->
  platform_xml_read_game xmlpath (children e) lb_dir platform emulators coll gm st
    = Some (gm', st') ->
  gm !! gid = None ->
  match valid_game_path lb_dir gid e with
  | Some path =>
      exists i, gm' !! gid = Some i /\
                path_to_gameid (sctx st') !! canonicalFilePath (filePath lb_dir path)
                = Some i
  | None => gm' !! gid = None
  end.
Proof.
  intros Hname. unfold platform_xml_read_game, valid_game_path. rewrite Hname. simpl.
  destruct (read_fields gamefield_map (children e) !! GameField.ID) as [id|] eqn:Hid.
  2:{ intros [= <- <-] Hgm. rewrite bool_decide_eq_false_2 by discriminate. exact Hgm. }
  destruct (read_fields gamefield_map (children e) !! GameField.PATH) as [path|] eqn:Hpath.
  2:{ intros [= <- <-] Hgm. simpl. by case_bool_decide. }
  simpl. destruct (exists_ (filePath lb_dir path)) eqn:Hex; simpl.
  2:{ intros [= <- <-] Hgm. by case_bool_decide. }
  destruct (store_game (filePath lb_dir path) (read_fields gamefield_map (children e))
              platform emulators coll st) as [[gameid st1]|] eqn:Hsg; simpl; [|discriminate].
  intros [= <- <-] Hgm.
  destruct (store_game_result _ _ _ _ _ _ _ _ Hsg) as (_ & _ & Hidx).
  case_bool_decide as Hgid.
  - injection Hgid as ->. exists gameid. split; [|exact Hidx].
    rewrite emplace_lookup_same, Hgm. reflexivity.
  - rewrite emplace_lookup_ne by congruence. exact Hgm.
Qed.

Lemma valid_game_path_not_game `{Host} lb_dir gid e :
  elem_name e <> "Game" -> valid_game_path lb_dir gid e = None.
Proof.
  intros Hne. unfold valid_game_path.
  by rewrite (proj2 (String.eqb_neq _ _) Hne).
Qed.

(** When the loop over the elements ends, the ID [gid] names the game of the
    first Game element that has this ID and passes the checks. *)
Lemma read_elements_local_id `{Host} xmlpath elems lb_dir platform emulators coll
    aa gm st aa' gm' st' gid path :
  read_elements xmlpath elems lb_dir platform emulators coll aa gm st
    = Some (aa', gm', st') ->
  gm !! gid = None ->
  first_game_with_id lb_dir gid elems = Some path ->
  exists i, gm' !! gid = Some i /\
            path_to_gameid (sctx st') !! canonicalFilePath (filePath lb_dir path) = Some i.
Proof.
  revert aa gm st. induction elems as [|e rest IH]; intros aa gm st; simpl; [discriminate|].
  destruct (String.eqb_spec (elem_name e) "Game") as [Hg|Hg].
  - destruct (platform_xml_read_game xmlpath (children e) lb_dir platform emulators
                coll gm st) as [[gm1 st1]|] eqn:Hrg; simpl; [|discriminate].
    intros Hrest Hgm Hfirst.
    pose proof (platform_xml_read_game_local_id _ _ _ _ _ _ _ _ _ _ gid Hg Hrg Hgm) as Hloc.
    destruct (valid_game_path lb_dir gid e) as [p|].
    + injection Hfirst as ->. destruct Hloc as (i & Hi & Hidx).
      destruct (read_elements_grows _ _ _ _ _ _ _ _ _ _ _ _ Hrest) as [[Hctx _] Hmono].
      exists i. split; [by apply Hmono|]. by apply (proj1 Hctx).
    + by apply (IH _ _ _ Hrest).
  - rewrite (valid_game_path_not_game _ _ _ Hg).
    destruct (String.eqb (elem_name e) "AdditionalApplication"); apply IH.
Qed.

Lemma elem_of_fileinfo_grows (g g' : Game) (fi : string) :
  game_grows g g' -> fi ∈ map fileinfo (files g) -> fi ∈ map fileinfo (files g').
Proof.
  intros (_ & [k Hk] & _) Hin. rewrite Hk. apply elem_of_app. by left.
Qed.

(** A valid entry leaves its game with the file of the entry among its
    launch files. *)
Lemma store_addiapp_file `{Host} xmlpath lb_dir values gm st st' gid i path :
  store_addiapp xmlpath lb_dir values gm st = Some st' ->
  is_Some (values !! AdditionalAppField.ID) ->
  values !! AdditionalAppField.GAME_ID = Some gid ->
  gm !! gid = Some i ->
  values !! AdditionalAppField.PATH = Some path ->
  exists_ (filePath lb_dir path) = true ->
  exists g fi,
    games (sctx st') !! i = Some g /\
    fi ∈ map fileinfo (files g) /\ QFileInfo_eqb fi (filePath lb_dir path) = true.
Proof.
  intros Hst [id Hid] Hgid Hgm Hpath Hex. unfold store_addiapp in Hst.
  rewrite Hid, Hgid, Hgm, Hpath, Hex in Hst. simpl in Hst.
  destruct (games (sctx st) !! i) as [game|] eqn:Hgame; simpl in Hst; [|discriminate].
  injection Hst as <-. simpl. rewrite lookup_insert_eq.
  destruct (name_existing (filePath lb_dir path) (values !! AdditionalAppField.NAME)
              (files game)) as [l|] eqn:E.
  - destruct (name_existing_Some _ _ _ _ E) as (l1 & gf & l2 & _ & _ & Hgf & ->).
    eexists _, (fileinfo gf). split; [reflexivity|]. split; [|exact Hgf].
    simpl. rewrite map_app. apply elem_of_app. right. simpl.
    rewrite fileinfo_set_name. by left.
  - eexists _, (filePath lb_dir path). split; [reflexivity|].
    split; [|apply QFileInfo_eqb_refl].
    simpl. rewrite map_app. apply elem_of_app. right. simpl.
    rewrite fileinfo_set_name. by left.
Qed.

Lemma store_addiapps_file `{Host} xmlpath lb_dir addiapps gm st st' values gid i path :
  store_addiapps xmlpath lb_dir addiapps gm st = Some st' ->
  values ∈ addiapps ->
  is_Some (values !! AdditionalAppField.ID) ->
  values !! AdditionalAppField.GAME_ID = Some gid ->
  gm !! gid = Some i ->
  values !! AdditionalAppField.PATH = Some path ->
  exists_ (filePath lb_dir path) = true ->
  exists g fi,
    games (sctx st') !! i = Some g /\
    fi ∈ map fileinfo (files g) /\ QFileInfo_eqb fi (filePath lb_dir path) = true.
Proof.
  intros Hst Hin Hid Hgid Hgm Hpath Hex. revert st Hst.
  induction addiapps as [|v rest IH]; intros st Hst; [by apply elem_of_nil in Hin|].
  simpl in Hst.
  destruct (store_addiapp xmlpath lb_dir v gm st) as [st1|] eqn:H1; simpl in Hst;
    [|discriminate].
  apply elem_of_cons in Hin as [<-|Hin].
  - destruct (store_addiapp_file _ _ _ _ _ _ _ _ _ H1 Hid Hgid Hgm Hpath Hex)
      as (g & fi & Hg & Hfi & Heq).
    destruct (store_addiapps_grows _ _ _ _ _ _ Hst) as [(_ & Hgames & _) _].
    destruct (Hgames _ _ Hg) as (g' & Hg' & Hgrow).
    exists g', fi. split; [exact Hg'|]. split; [|exact Heq].
    by apply elem_of_fileinfo_grows with g.
  - by apply (IH Hin st1).
Qed.

(** C8: the additional applications of a file are stored after all its Game
    elements, against the local ids of all of them. So an entry that passes
    the checks and whose GameID is the ID of a Game element of the file that
    passes its own checks, the first with that ID, leaves the game of that
    element with the file of the entry among its launch files, whether the
    entry stands before or after the element. An entry without ID, without
    GameID, with a GameID that is not a local id, without path, or whose file
    does not exist, is dropped with one warning and the context is left as it
    was. *)
Theorem addiapps_after_games `{Host} doc lb_dir platform emulators st err st' :
  doc_root doc = Some "LaunchBox" ->
  platform_xml_read_root doc lb_dir platform emulators st = Some (err, st') ->
  (forall e gid apath gpath,
     e ∈ doc_elements doc -> elem_name e = "AdditionalApplication" ->
     is_Some (platform_xml_read_addiapp (children e) !! AdditionalAppField.ID) ->
     platform_xml_read_addiapp (children e) !! AdditionalAppField.GAME_ID = Some gid ->
     platform_xml_read_addiapp (children e) !! AdditionalAppField.PATH = Some apath ->
     exists_ (filePath lb_dir apath) = true ->
     first_game_with_id lb_dir gid (doc_elements doc) = Some gpath ->
     exists i g fi,
       path_to_gameid (sctx st') !! canonicalFilePath (filePath lb_dir gpath) = Some i /\
       games (sctx st') !! i = Some g /\
       fi ∈ map fileinfo (files g) /\
       QFileInfo_eqb fi (filePath lb_dir apath) = true) /\
  (forall xmlpath values gameid_map st0,
     addiapp_entry_invalid lb_dir values gameid_map ->
     exists d, store_addiapp xmlpath lb_dir values gameid_map st0 = Some (warn d st0)) /\
  platform_xml_read_root doc lb_dir platform emulators st =
  match read_elements (doc_file doc)
          (filter (fun e => elem_name e = "Game") (doc_elements doc))
          lb_dir platform emulators (name platform) [] ∅
          {| sctx := open_collection (name platform) (sctx st); log := log st |} with
  | Some (_, gm, st1) =>
      match store_addiapps (doc_file doc) lb_dir
              (map (fun e => platform_xml_read_addiapp (children e))
                 (filter (fun e => elem_name e = "AdditionalApplication")
                    (doc_elements doc)))
              gm st1 with
      | Some st2 => Some (doc_error doc, st2)
      | None => None
      end
  | None => None
  end.
Proof.
  intros Hroot Hread. split; [|split].
  - intros e gid apath gpath He Hname Hid Hgid Hpath Hex Hfirst.
    unfold platform_xml_read_root in Hread. rewrite Hroot in Hread. simpl in Hread.
    match type of Hread with
    | context [read_elements ?a ?b ?c ?d ?e ?f ?g ?h ?i] =>
        destruct (read_elements a b c d e f g h i) as [[[aa gm] st1]|] eqn:Hre
    end; simpl in Hread; [|discriminate].
    destruct (store_addiapps (doc_file doc) lb_dir aa gm st1) as [st2|] eqn:Haa;
      simpl in Hread; [|discriminate].
    injection Hread as _ <-.
    destruct (read_elements_local_id _ _ _ _ _ _ _ _ _ _ _ _ gid gpath Hre
                (lookup_empty _) Hfirst) as (i & Hi & Hidx).
    assert (Hin : platform_xml_read_addiapp (children e) ∈ aa).
    { rewrite read_elements_games_first in Hre.
      destruct (read_elements (doc_file doc) _ lb_dir platform emulators (name platform) [] ∅ _)
        as [[[aa0 gm0] st0]|]; [|discriminate].
      injection Hre as <- _ _. simpl.
      apply (list_elem_of_fmap_2 (fun e => platform_xml_read_addiapp (children e))).
      by apply list_elem_of_filter. }
    destruct (store_addiapps_file _ _ _ _ _ _ _ _ _ _ Haa Hin Hid Hgid Hi Hpath Hex)
      as (g & fi & Hg & Hfi & Heq).
    exists i, g, fi. split; [|split; [exact Hg|split; [exact Hfi|exact Heq]]].
    destruct (store_addiapps_grows _ _ _ _ _ _ Haa) as [(Hp & _) _]. by apply Hp.
  - intros xmlpath values gameid_map st0. apply store_addiapp_invalid.
  - unfold platform_xml_read_root. rewrite Hroot. simpl.
    rewrite read_elements_games_first.
    destruct (read_elements (doc_file doc) _ lb_dir platform emulators (name platform) [] ∅ _)
      as [[[aa1 gm1] st1]|]; reflexivity.
Qed.

Lemma addiapps_after_games_witness :
  doc_root Demo.nes_xml = Some "LaunchBox" /\
  platform_xml_read_root (H := Demo.host) Demo.nes_xml "/lb/" Demo.nes Demo.emulators
    Demo.start
  = Some (default (true, Demo.start)
            (platform_xml_read_root (H := Demo.host) Demo.nes_xml "/lb/" Demo.nes
               Demo.emulators Demo.start)) /\
  first_game_with_id (H := Demo.host) "/lb/" "g1" (doc_elements Demo.nes_xml)
  = Some "Games/a.nes" /\
  (exists i g fi,
     path_to_gameid
       (sctx (default (true, Demo.start)
                (platform_xml_read_root (H := Demo.host) Demo.nes_xml "/lb/" Demo.nes
                   Demo.emulators Demo.start)).2)
       !! canonicalFilePath (Host := Demo.host)
            (filePath (Host := Demo.host) "/lb/" "Games/a.nes") = Some i /\
     games
       (sctx (default (true, Demo.start)
                (platform_xml_read_root (H := Demo.host) Demo.nes_xml "/lb/" Demo.nes
                   Demo.emulators Demo.start)).2) !! i = Some g /\
     fi ∈ map fileinfo (files g) /\
     QFileInfo_eqb (H := Demo.host) fi (filePath (Host := Demo.host) "/lb/" "Games/b.nes")
     = true) /\
  addiapp_entry_invalid (H := Demo.host) "/lb/"
    (platform_xml_read_addiapp
       [ Demo.leaf "Id" "x9"; Demo.leaf "GameID" "nope";
         Demo.leaf "ApplicationPath" "Games/b.nes" ]) ∅ /\
  exists d,
    store_addiapp (H := Demo.host) "/lb/Data/Platforms/NES.xml" "/lb/"
      (platform_xml_read_addiapp
         [ Demo.leaf "Id" "x9"; Demo.leaf "GameID" "nope";
           Demo.leaf "ApplicationPath" "Games/b.nes" ]) ∅ Demo.start
    = Some (warn d Demo.start).
Proof.
  assert (Hroot : doc_root Demo.nes_xml = Some "LaunchBox") by reflexivity.
  assert (Hread : platform_xml_read_root (H := Demo.host) Demo.nes_xml "/lb/" Demo.nes
                    Demo.emulators Demo.start
                  = Some (default (true, Demo.start)
                            (platform_xml_read_root (H := Demo.host) Demo.nes_xml "/lb/"
                               Demo.nes Demo.emulators Demo.start)))
    by (vm_compute; reflexivity).
  assert (Hfirst : first_game_with_id (H := Demo.host) "/lb/" "g1"
                     (doc_elements Demo.nes_xml) = Some "Games/a.nes")
    by (vm_compute; reflexivity).
  assert (Hbad : addiapp_entry_invalid (H := Demo.host) "/lb/"
            (platform_xml_read_addiapp
               [ Demo.leaf "Id" "x9"; Demo.leaf "GameID" "nope";
                 Demo.leaf "ApplicationPath" "Games/b.nes" ]) ∅).
  { right. right. left. exists "nope". split; vm_compute; reflexivity. }
  rewrite (surjective_pairing (default (true, Demo.start) _)) in Hread.
  destruct (addiapps_after_games (H := Demo.host) Demo.nes_xml "/lb/" Demo.nes
              Demo.emulators Demo.start _ _ Hroot Hread) as (Hres & Hskip & _).
  rewrite <- surjective_pairing in Hread.
  split; [exact Hroot|]. split; [exact Hread|]. split; [exact Hfirst|].
  split; [|split; [exact Hbad|apply Hskip; exact Hbad]].
  apply (Hres {| elem_name := "AdditionalApplication";
                 children := [ Demo.leaf "Id" "x1"; Demo.leaf "GameID" "g1";
                               Demo.leaf "ApplicationPath" "Games/b.nes" ] |} "g1").
  - by left.
  - reflexivity.
  - eexists. vm_compute. reflexivity.
  - vm_compute. reflexivity.
  - vm_compute. reflexivity.
  - vm_compute. reflexivity.
  - exact Hfirst.
Defined.

(** ** Deduplication by canonical path: the games a scan creates *)

(** A property of the context that the five updates of the scan keep is kept
    by the whole scan, whatever the context it starts from. *)
Section scan_invariant.

Context `{Host} (P : SearchContext -> Prop).

Hypothesis P_push_child : forall coll id c, P c -> P (push_child coll id c).
Hypothesis P_open_collection : forall coll c, P c -> P (open_collection coll c).
Hypothesis P_add_game : forall finfo id g c,
  P c -> path_to_gameid c !! canonicalFilePath finfo = None -> src_file g = finfo ->
  P (add_game (canonicalFilePath finfo) id g c).
Hypothesis P_addiapp : forall can gameid game fs c,
  P c -> games c !! gameid = Some game ->
  P (register_path can gameid (set_game gameid (set_files fs game) c)).
Hypothesis P_assets : forall gs' c,
  P c -> games_assets_appended (games c) gs' ->
  P {| games := gs'; path_to_gameid := path_to_gameid c;
       collections := collections c; collection_childs := collection_childs c |}.

Lemma store_game_invariant finfo fields platform emulators coll st id st' :
  P (sctx st) ->
  store_game finfo fields platform emulators coll st = Some (id, st') -> P (sctx st').
Proof.
  intros HP. unfold store_game.
  destruct (path_to_gameid (sctx st) !! canonicalFilePath finfo) as [i|] eqn:Hidx; simpl.
  - rewrite Hidx. simpl. intros [= <- <-]. simpl. by apply P_push_child.
  - destruct (store_game_fields (Game_new finfo) fields platform emulators)
      as [g|] eqn:Hg; simpl; [|discriminate].
    match goal with
    | |- context [emplace ?k ?v ?m !! ?k] => destruct (emplace k v m !! k) as [j|]
    end; simpl; [|discriminate].
    intros [= <- <-]. simpl. apply P_push_child.
    pose proof (store_game_fields_src_file _ _ _ _ _ Hg) as Hsrc.
    destruct (QStr.isEmpty (launch_cmd g)); by apply P_add_game.
Qed.

Lemma platform_xml_read_game_invariant xmlpath kids lb_dir platform emulators coll
    gm st gm' st' :
  P (sctx st) ->
  platform_xml_read_game xmlpath kids lb_dir platform emulators coll gm st
    = Some (gm', st') -> P (sctx st').
Proof.
  intros HP. unfold platform_xml_read_game.
  destruct (read_fields gamefield_map kids !! GameField.ID) as [id|];
    [|by intros [= <- <-]].
  destruct (read_fields gamefield_map kids !! GameField.PATH) as [path|];
    [|by intros [= <- <-]].
  destruct (exists_ (filePath lb_dir path)); simpl; [|by intros [= <- <-]].
  destruct (store_game (filePath lb_dir path) (read_fields gamefield_map kids)
              platform emulators coll st) as [[gid st1]|] eqn:Hsg; simpl; [|discriminate].
  intros [= <- <-]. by apply store_game_invariant in Hsg.
Qed.

Lemma read_elements_invariant xmlpath elems lb_dir platform emulators coll
    aa gm st aa' gm' st' :
  P (sctx st) ->
  read_elements xmlpath elems lb_dir platform emulators coll aa gm st
    = Some (aa', gm', st') -> P (sctx st').
Proof.
  revert aa gm st. induction elems as [|e rest IH]; intros aa gm st HP; simpl.
  - by intros [= <- <- <-].
  - destruct (String.eqb (elem_name e) "Game").
    + destruct (platform_xml_read_game xmlpath (children e) lb_dir platform emulators
                  coll gm st) as [[gm1 st1]|] eqn:Hg; simpl; [|discriminate].
      apply IH. by apply platform_xml_read_game_invariant in Hg.
    + destruct (String.eqb (elem_name e) "AdditionalApplication"); by apply IH.
Qed.

Lemma store_addiapp_invariant xmlpath lb_dir values gm st st' :
  P (sctx st) -> store_addiapp xmlpath lb_dir values gm st = Some st' -> P (sctx st').
Proof.
  intros HP. unfold store_addiapp.
  destruct (values !! AdditionalAppField.ID) as [id|]; [|by intros [= <-]].
  destruct (values !! AdditionalAppField.GAME_ID) as [gid|]; [|by intros [= <-]].
  destruct (gm !! gid) as [gameid|]; [|by intros [= <-]].
  destruct (values !! AdditionalAppField.PATH) as [path|]; [|by intros [= <-]].
  destruct (exists_ (filePath lb_dir path)); simpl; [|by intros [= <-]].
  destruct (games (sctx st) !! gameid) as [game|] eqn:Hgame; simpl; [|discriminate].
  intros [= <-]. simpl. by apply P_addiapp.
Qed.

Lemma store_addiapps_invariant xmlpath lb_dir addiapps gm st st' :
  P (sctx st) -> store_addiapps xmlpath lb_dir addiapps gm st = Some st' -> P (sctx st').
Proof.
  revert st. induction addiapps as [|values rest IH]; intros st HP; simpl.
  - by intros [= <-].
  - destruct (store_addiapp xmlpath lb_dir values gm st) as [st1|] eqn:H1; simpl;
      [|discriminate].
    apply IH. by apply store_addiapp_invariant in H1.
Qed.

Lemma process_platform_xml_invariant lb_dir platform emulators st st' :
  P (sctx st) ->
  process_platform_xml lb_dir platform emulators st = Some st' -> P (sctx st').
Proof.
  intros HP. unfold process_platform_xml, platform_xml_read_root.
  destruct (open_xml (xml_path platform)) as [doc|]; [|by intros [= <-]].
  destruct (doc_root doc) as [root|]; simpl; [|by intros [= <-]].
  destruct (String.eqb root "LaunchBox"); simpl; [|by intros [= <-]].
  match goal with
  | |- context [read_elements ?a ?b ?c ?d ?e ?f ?g ?h ?i] =>
      destruct (read_elements a b c d e f g h i) as [[[aa gm] st1]|] eqn:Hre
  end; simpl; [|discriminate].
  destruct (store_addiapps (doc_file doc) lb_dir aa gm st1) as [st2|] eqn:Haa; simpl;
    [|discriminate].
  apply read_elements_invariant in Hre; [|by apply P_open_collection].
  apply store_addiapps_invariant in Haa; [|exact Hre].
  destruct (doc_error doc); by intros [= <-].
Qed.

Lemma scan_platforms_invariant lb_dir ps emulators st st' :
  P (sctx st) -> scan_platforms lb_dir ps emulators st = Some st' -> P (sctx st').
Proof.
  revert st. induction ps as [|p ps IH]; intros st HP; simpl.
  - by intros [= <-].
  - destruct (process_platform_xml lb_dir p emulators st) as [st1|] eqn:H1; simpl;
      [|discriminate].
    destruct (find_assets lb_dir p assetdir_map (sctx st1)) as [c|] eqn:H2; simpl;
      [|discriminate].
    apply IH. simpl. apply process_platform_xml_invariant in H1; [|exact HP].
    destruct (find_assets_frame _ _ _ _ _ H2) as (Hp & Hc & Hl & Hg).
    destruct c as [gs' p' cs' ch']. simpl in *. subst p' cs' ch'.
    by apply P_assets.
Qed.

Lemma findLists_invariant lb_dir st st' :
  P (sctx st) -> findLists lb_dir st = Some st' -> P (sctx st').
Proof.
  intros HP. unfold findLists. destruct (read_emulators_xml lb_dir) as [emu_data lg].
  case_bool_decide; [by intros [= <-]|].
  destruct (platforms emu_data) as [|p ps]; [by intros [= <-]|].
  by apply scan_platforms_invariant.
Qed.

End scan_invariant.

Lemma created_registered_games `{Host} (c : SearchContext) : created_registered (games c) c.
Proof. intros i g Hold Hi. congruence. Qed.

Lemma created_registered_add_game `{Host} old finfo id g c :
  created_registered old c ->
  path_to_gameid c !! canonicalFilePath finfo = None -> src_file g = finfo ->
  created_registered old (add_game (canonicalFilePath finfo) id g c).
Proof.
  intros Hc Hmiss Hsrc i g0 Hold. unfold add_game. simpl. unfold emplace at 1.
  destruct (games c !! id) as [g1|] eqn:Hid.
  - intros Hi. by apply emplace_lookup_keep, Hc.
  - destruct (decide (id = i)) as [<-|Hne].
    + rewrite lookup_insert_eq. intros [= <-]. rewrite Hsrc.
      rewrite emplace_lookup_same, Hmiss. reflexivity.
    + rewrite lookup_insert_ne by exact Hne. intros Hi.
      by apply emplace_lookup_keep, Hc.
Qed.

Lemma created_registered_addiapp `{Host} old can gameid game fs c :
  created_registered old c -> games c !! gameid = Some game ->
  created_registered old (register_path can gameid (set_game gameid (set_files fs game) c)).
Proof.
  intros Hc Hgame i g0 Hold. simpl.
  destruct (decide (gameid = i)) as [<-|Hne].
  - rewrite lookup_insert_eq. intros [= <-]. simpl.
    by apply emplace_lookup_keep, Hc.
  - rewrite lookup_insert_ne by exact Hne. intros Hi.
    by apply emplace_lookup_keep, Hc.
Qed.

Lemma created_registered_assets `{Host} old gs' c :
  created_registered old c -> games_assets_appended (games c) gs' ->
  created_registered old
    {| games := gs'; path_to_gameid := path_to_gameid c;
       collections := collections c; collection_childs := collection_childs c |}.
Proof.
  intros Hc Hgs i g' Hold. simpl. intros Hi. specialize (Hgs i). rewrite Hi in Hgs.
  destruct (games c !! i) as [g|] eqn:Hg; [|done].
  destruct Hgs as [extra ->]. simpl. by apply Hc.
Qed.

Lemma findLists_created_registered `{Host} lb_dir st st' :
  findLists lb_dir st = Some st' -> created_registered (games (sctx st)) (sctx st').
Proof.
  apply (findLists_invariant (created_registered (games (sctx st)))).
  - intros coll id c Hc. exact Hc.
  - intros coll c Hc. exact Hc.
  - intros finfo id g c. apply created_registered_add_game.
  - intros can gameid game fs c. apply created_registered_addiapp.
  - intros gs' c. apply created_registered_assets.
  - apply created_registered_games.
Qed.

Lemma store_game_creates `{Host} finfo fields platform emulators coll st :
  path_to_gameid (sctx st) !! canonicalFilePath finfo = None ->
  is_Some (emulators !! default_emu_id platform) ->
  exists g st',
    store_game finfo fields platform emulators coll st
    = Some (size (games (sctx st)), st') /\
    src_file g = finfo /\
    path_to_gameid (sctx st') !! canonicalFilePath finfo = Some (size (games (sctx st))) /\
    (games (sctx st) !! size (games (sctx st)) = None ->
     games (sctx st') !! size (games (sctx st)) = Some g) /\
    (forall i g0, games (sctx st) !! i = Some g0 -> games (sctx st') !! i = Some g0).
Proof.
  intros Hmiss Hemu.
  destruct (store_game_miss finfo fields platform emulators coll st Hmiss Hemu)
    as (g & _ & Hsrc & Hsg).
  exists g. eexists. split; [exact Hsg|]. split; [exact Hsrc|]. simpl.
  split; [by rewrite emplace_lookup_same, Hmiss|].
  split.
  - intros Hfresh. unfold emplace. rewrite Hfresh. apply lookup_insert_eq.
  - intros i g0 Hi. by apply emplace_lookup_keep.
Qed.

(** C1, amended: two game records that a scan creates from files with the
    same canonical path are the same record, whatever the context the scan
    starts from. [store_game] consults the dedup index first: on a hit it
    returns the id found and only appends it to the children of the
    collection; on a miss it builds the game, registers the canonical path of
    its file under the next id, and creates the game under that id.
    [store_addiapp] registers the canonical path of the file of an additional
    application under the id of its game when the path is not in the index
    yet; a path that is already registered keeps the id it has. *)
Theorem dedup_invariant `{Host} lb_dir st st' :
  findLists lb_dir st = Some st' ->
  (forall i j g1 g2,
     games (sctx st) !! i = None -> games (sctx st) !! j = None ->
     games (sctx st') !! i = Some g1 -> games (sctx st') !! j = Some g2 ->
     canonicalFilePath (src_file g1) = canonicalFilePath (src_file g2) ->
     i = j /\ g1 = g2) /\
  (forall st0 finfo fields platform emulators coll id,
     path_to_gameid (sctx st0) !! canonicalFilePath finfo = Some id ->
     store_game finfo fields platform emulators coll st0
     = Some (id, {| sctx := push_child coll id (sctx st0); log := log st0 |})) /\
  (forall st0 finfo fields platform emulators coll,
     path_to_gameid (sctx st0) !! canonicalFilePath finfo = None ->
     is_Some (emulators !! default_emu_id platform) ->
     exists g st1,
       store_game finfo fields platform emulators coll st0
       = Some (size (games (sctx st0)), st1) /\
       src_file g = finfo /\
       path_to_gameid (sctx st1) !! canonicalFilePath finfo
       = Some (size (games (sctx st0))) /\
       (games (sctx st0) !! size (games (sctx st0)) = None ->
        games (sctx st1) !! size (games (sctx st0)) = Some g) /\
       (forall i g0, games (sctx st0) !! i = Some g0 -> games (sctx st1) !! i = Some g0)) /\
  (forall st0 xmlpath values gm id gid gameid path game,
     values !! AdditionalAppField.ID = Some id ->
     values !! AdditionalAppField.GAME_ID = Some gid ->
     gm !! gid = Some gameid ->
     values !! AdditionalAppField.PATH = Some path ->
     exists_ (filePath lb_dir path) = true ->
     games (sctx st0) !! gameid = Some game ->
     exists st1,
       store_addiapp xmlpath lb_dir values gm st0 = Some st1 /\
       path_to_gameid (sctx st1) !! canonicalFilePath (filePath lb_dir path)
       = Some (default gameid
                 (path_to_gameid (sctx st0) !! canonicalFilePath (filePath lb_dir path)))).
Proof.
  intros Hscan. split; [|split; [|split]].
  - intros i j g1 g2 Hi0 Hj0 Hi Hj Hpath.
    pose proof (findLists_created_registered _ _ _ Hscan) as Hreg.
    pose proof (Hreg i g1 Hi0 Hi) as Ri. pose proof (Hreg j g2 Hj0 Hj) as Rj.
    rewrite Hpath in Ri. assert (i = j) as -> by congruence.
    split; [reflexivity|congruence].
  - intros st0 finfo fields platform emulators coll id. apply store_game_hit.
  - intros st0 finfo fields platform emulators coll. apply store_game_creates.
  - intros st0 xmlpath values gm id gid gameid path game.
    apply store_addiapp_registers.
Qed.

Lemma dedup_invariant_witness :
  findLists (H := Demo.host) "/lb/" Demo.start = Some (default Demo.start Demo.scan) /\
  size (games (sctx (default Demo.start Demo.scan))) = 2%nat /\
  forall i j g1 g2,
    games (sctx (default Demo.start Demo.scan)) !! i = Some g1 ->
    games (sctx (default Demo.start Demo.scan)) !! j = Some g2 ->
    canonicalFilePath (Host := Demo.host) (src_file g1)
    = canonicalFilePath (Host := Demo.host) (src_file g2) -> i = j /\ g1 = g2.
Proof.
  assert (Hscan : findLists (H := Demo.host) "/lb/" Demo.start
                  = Some (default Demo.start Demo.scan)) by (vm_compute; reflexivity).
  split; [exact Hscan|]. split; [vm_compute; reflexivity|].
  intros i j g1 g2.
  apply (proj1 (dedup_invariant (H := Demo.host) "/lb/" Demo.start _ Hscan) i j g1 g2);
    apply lookup_empty.
Defined.

(** C1 as stated fails in its last part: the additional application [x1]
    belongs to the game [g1], of id 0, and its file is attached to that game,
    but the file is the one of the game of id 1 and stays registered under
    the id 1. *)
Lemma addiapp_registration_counterexample :
  match Demo.after_games with
  | Some (_, gm, st) =>
      Demo.x1_values !! AdditionalAppField.GAME_ID = Some "g1" /\
      gm !! "g1" = Some 0%nat /\
      (st' ← store_addiapp (H := Demo.host) "/lb/Data/Platforms/NES.xml" "/lb/"
               Demo.x1_values gm st;
       g ← games (sctx st') !! 0%nat;
       Some (fileinfo <$> files g))
      = Some ["/lb/Games/a.nes"; "/lb/Games/b.nes"] /\
      (st' ← store_addiapp (H := Demo.host) "/lb/Data/Platforms/NES.xml" "/lb/"
               Demo.x1_values gm st;
       path_to_gameid (sctx st')
         !! canonicalFilePath (Host := Demo.host)
              (filePath (Host := Demo.host) "/lb/" "Games/b.nes"))
      = Some 1%nat
  | None => False
  end.
Proof. vm_compute. repeat split; reflexivity. Qed.

(** In [nes_xml] the additional application [x1] stands before the game [g1]
    it refers to; the scan attaches its file to that game all the same. *)
Example forward_reference_resolves :
  (st ← Demo.scan; g ← games (sctx st) !! 0%nat; Some (title g, fileinfo <$> files g))
  = Some ("Alpha", ["/lb/Games/a.nes"; "/lb/Games/b.nes"]).
Proof. vm_compute. reflexivity. Qed.
